(** * Entity resolution engine of [build_balanced_result.py]

    A shallow embedding of the batch deduplication job: name cleaning,
    garbage classification, normalisation, the merge policy
    ([should_merge], [has_business_conflict]), the union-find clusterer,
    the splitter of oversized groups, primary selection and the emitted
    rows.

    Conventions of the embedding.
    - Text is a [string] of 7-bit code points; the non-ASCII literals that
      occur in the source's character classes cannot occur in such text and
      are left out of the classes.
    - Python floats are idealised as rationals ([Q]); a threshold written
      [0.95] in the source is the rational 95/100.
    - The functions of the [rapidfuzz] library are an interface ([Fuzz]);
      the iteration order of Python's hash sets is an interface too
      ([HashOrder]), so that every result holds for each order.
    - Dictionaries keep insertion order and are association lists. *)

From Stdlib Require Import List String Ascii ZArith QArith Bool Lia Arith
  Permutation Relations.
From Stdlib Require Import Lqa Sorted.
Import ListNotations.

Local Open Scope string_scope.
Local Open Scope Z_scope.

(** ** Characters *)

Definition code (c : ascii) : nat := nat_of_ascii c.

Definition in_range (lo hi : nat) (c : ascii) : bool :=
  (Nat.leb lo (code c) && Nat.leb (code c) hi)%bool.

(** [str.isspace] and the class [\s] on 7-bit text. *)
Definition is_space (c : ascii) : bool :=
  (in_range 9 13 c || in_range 28 32 c)%bool.

Definition is_digit (c : ascii) : bool := in_range 48 57 c.
Definition is_upper (c : ascii) : bool := in_range 65 90 c.
Definition is_lower (c : ascii) : bool := in_range 97 122 c.
Definition is_alpha (c : ascii) : bool := (is_upper c || is_lower c)%bool.

(** The class [\w]. *)
Definition is_word (c : ascii) : bool :=
  (is_alpha c || is_digit c || Ascii.eqb c "_")%bool.

Definition lower_char (c : ascii) : ascii :=
  if is_upper c then ascii_of_nat (code c + 32) else c.

Definition upper_char (c : ascii) : ascii :=
  if is_lower c then ascii_of_nat (code c - 32) else c.

(** ** Text as lists of characters *)

Definition text := list ascii.

Definition chars (s : string) : text := list_ascii_of_string s.
Definition str (t : text) : string := string_of_list_ascii t.

Definition text_eqb (a b : text) : bool := String.eqb (str a) (str b).

Definition lower (s : string) : string := str (map lower_char (chars s)).
Definition upper (s : string) : string := str (map upper_char (chars s)).

Fixpoint lstrip_t (t : text) : text :=
  match t with
  | c :: t' => if is_space c then lstrip_t t' else t
  | [] => []
  end.

Definition rstrip_t (t : text) : text := rev (lstrip_t (rev t)).

(** [str.strip()]. *)
Definition strip (s : string) : string := str (rstrip_t (lstrip_t (chars s))).

(** [str.split()]: maximal runs of non-space characters. *)
Fixpoint split_t (cur : text) (t : text) : list text :=
  match t with
  | [] => match cur with [] => [] | _ => [rev cur] end
  | c :: t' =>
      if is_space c
      then match cur with [] => split_t [] t' | _ => rev cur :: split_t [] t' end
      else split_t (c :: cur) t'
  end.

Definition split (s : string) : list string := map str (split_t [] (chars s)).

Fixpoint join (sep : string) (l : list string) : string :=
  match l with
  | [] => ""
  | [x] => x
  | x :: l' => x ++ sep ++ join sep l'
  end.

Definition len (s : string) : nat := String.length s.

(** [s[:n]]. *)
Definition prefix_n (n : nat) (s : string) : string := str (firstn n (chars s)).

(** [sub in s] for a two-character needle and the like. *)
Fixpoint is_prefix_t (p t : text) : bool :=
  match p, t with
  | [], _ => true
  | a :: p', b :: t' => (Ascii.eqb a b && is_prefix_t p' t')%bool
  | _ :: _, [] => false
  end.

Fixpoint contains_t (p t : text) : bool :=
  (is_prefix_t p t ||
   match t with
   | [] => false
   | _ :: t' => contains_t p t'
   end)%bool.

Definition mem_str (x : string) (l : list string) : bool :=
  existsb (String.eqb x) l.

(** ** A backtracking matcher for the regular expressions of the source

    The matcher follows Python's [re]: alternatives are tried in order,
    repetition is greedy, and the first complete path wins.  The
    continuation receives the last character consumed and the rest of the
    input. *)

Inductive regex : Type :=
| Eps
| Chr (p : ascii -> bool)
| Seq (a b : regex)
| Alt (a b : regex)
| Star (a : regex)
| Bol
| Eol
| WordB.

Definition word_opt (o : option ascii) : bool :=
  match o with Some c => is_word c | None => false end.

Definition at_boundary (prev : option ascii) (rest : text) : bool :=
  xorb (word_opt prev) (word_opt (hd_error rest)).

(** [$] without MULTILINE: the end, or just before a final newline. *)
Definition at_eol (rest : text) : bool :=
  match rest with
  | [] => true
  | [c] => Ascii.eqb c "010"
  | _ => false
  end.

Definition is_none {A} (o : option A) : bool :=
  match o with None => true | Some _ => false end.

Section Matcher.
Context {A : Type}.

(** Greedy repetition of [step]: as many rounds as possible, each of
    which must consume input, then the continuation; a failed path
    gives back one round. *)
Fixpoint star_loop
    (step : option ascii -> text ->
            (option ascii -> text -> option A) -> option A)
    (k : option ascii -> text -> option A)
    (n : nat) (prev : option ascii) (s : text) {struct n} : option A :=
  match n with
  | O => k prev s
  | S n' =>
      match step prev s
              (fun prev' s' =>
                 if Nat.ltb (List.length s') (List.length s)
                 then star_loop step k n' prev' s' else None) with
      | Some x => Some x
      | None => k prev s
      end
  end.

Fixpoint rx (r : regex) (prev : option ascii) (s : text)
    (k : option ascii -> text -> option A) {struct r} : option A :=
  match r with
  | Eps => k prev s
  | Chr p =>
      match s with
      | c :: s' => if p c then k (Some c) s' else None
      | [] => None
      end
  | Seq a b => rx a prev s (fun prev' s' => rx b prev' s' k)
  | Alt a b =>
      match rx a prev s k with
      | Some x => Some x
      | None => rx b prev s k
      end
  | Star a => star_loop (rx a) k (List.length s) prev s
  | Bol => if is_none prev then k prev s else None
  | Eol => if at_eol s then k prev s else None
  | WordB => if at_boundary prev s then k prev s else None
  end.
End Matcher.

(** The rest of the input after the first match that starts here. *)
Definition match_here (r : regex) (prev : option ascii) (s : text)
  : option text :=
  rx r prev s (fun _ rest => Some rest).

Definition is_some {A} (o : option A) : bool := negb (is_none o).

(** [pattern.match(s)] as a truth value. *)
Definition re_match (r : regex) (s : string) : bool :=
  is_some (match_here r None (chars s)).

Fixpoint search_from (r : regex) (prev : option ascii) (s : text) : bool :=
  (is_some (match_here r prev s) ||
   match s with
   | [] => false
   | c :: s' => search_from r (Some c) s'
   end)%bool.

(** [pattern.search(s)] as a truth value. *)
Definition re_search (r : regex) (s : string) : bool :=
  search_from r None (chars s).

(** [pattern.sub(repl, s)]: leftmost non-overlapping matches are replaced
    by [repl] applied to the matched text.  None of the source's patterns
    matches the empty string. *)
Fixpoint sub_from (fuel : nat) (r : regex) (repl : text -> text)
    (prev : option ascii) (s : text) : text :=
  match fuel with
  | O => s
  | S fuel' =>
      match match_here r prev s with
      | Some rest =>
          let n := (List.length s - List.length rest)%nat in
          match n with
          | O =>
              match s with
              | [] => []
              | c :: s' => c :: sub_from fuel' r repl (Some c) s'
              end
          | S _ =>
              let m := firstn n s in
              (repl m ++ sub_from fuel' r repl (Some (last m " "%char)) rest)%list
          end
      | None =>
          match s with
          | [] => []
          | c :: s' => c :: sub_from fuel' r repl (Some c) s'
          end
      end
  end.

Definition re_sub (r : regex) (repl : text -> text) (s : string) : string :=
  str (sub_from (S (List.length (chars s))) r repl None (chars s)).

Definition re_sub_const (r : regex) (by_ : string) (s : string) : string :=
  re_sub r (fun _ => chars by_) s.

(** Regular-expression combinators. *)

Definition Plus (a : regex) : regex := Seq a (Star a).
Definition Opt (a : regex) : regex := Alt a Eps.
Definition Rep13 (a : regex) : regex := Seq a (Opt (Seq a (Opt a))).

Fixpoint seqs (l : list regex) : regex :=
  match l with
  | [] => Eps
  | [a] => a
  | a :: l' => Seq a (seqs l')
  end.

(** An alternation that matches nothing when the list is empty. *)
Fixpoint alts (l : list regex) : regex :=
  match l with
  | [] => Chr (fun _ => false)
  | [a] => a
  | a :: l' => Alt a (alts l')
  end.

Definition chr (c : ascii) : regex := Chr (Ascii.eqb c).

(** A literal under IGNORECASE. *)
Definition chr_ci (c : ascii) : regex :=
  Chr (fun x => Ascii.eqb (lower_char x) (lower_char c)).

Definition lit (s : string) : regex := seqs (map chr (chars s)).
Definition lit_ci (s : string) : regex := seqs (map chr_ci (chars s)).

Definition one_of (s : string) : ascii -> bool :=
  fun c => existsb (Ascii.eqb c) (chars s).

Definition ws : regex := Chr is_space.
Definition ws_star : regex := Star ws.
Definition ws_plus : regex := Plus ws.
Definition word_char : regex := Chr is_word.

Definition nochar : regex := Chr (fun _ => false).
Definition alt_ci (l : list string) : regex := alts (map lit_ci l).
Definition dquote : ascii := "034"%char.

(** ** Name cleaning ([clean_name]) *)

(** [_LINKEDIN_SUFFIX_RE].  Every match holds the middle dot U+00B7, which
    is no 7-bit character: in 7-bit text the pattern matches nowhere, and
    [nochar] stands for the dot. *)
Definition LINKEDIN_SUFFIX_RE : regex :=
  seqs [ws_star; nochar; ws_star;
        Opt (alt_ci ["Full-time"; "Part-time"; "Contract"; "Internship";
                     "Seasonal"; "Temporary"; "Freelance"; "Self-employed";
                     "Apprenticeship"]);
        ws_star; Eol].

(** The classes of [_LEADING_JUNK_RE] and [_TRAILING_JUNK_RE] have the same
    7-bit members, which are listed here; their other members (bullet,
    middle dot, en dash, em dash and the curly quotes) do not occur in 7-bit
    text. *)
Definition is_junk (c : ascii) : bool :=
  (is_space c || one_of "-,.'[](){}*/\#`=:;!?|@&+" c || Ascii.eqb c dquote)%bool.

Definition LEADING_JUNK_RE : regex := Seq Bol (Plus (Chr is_junk)).
Definition TRAILING_JUNK_RE : regex := Seq (Plus (Chr is_junk)) Eol.

Definition PAREN_RE : regex :=
  seqs [ws_star; chr "("; Star (Chr (fun c => negb (Ascii.eqb c ")")));
        Opt (chr ")"); ws_star].

Definition LOCATIONS : list string :=
  ["India"; "USA"; "UK"; "UAE"; "Singapore"; "Dubai"; "London"; "Germany";
   "Australia"; "Canada"; "Japan"; "China"; "Africa"; "Europe"; "Asia";
   "Mumbai"; "Delhi"; "New Delhi"; "Delhi/NCR"; "NCR"; "Bangalore"; "Bengaluru";
   "Chennai"; "Pune"; "Hyderabad"; "Kolkata"; "Ahmedabad"; "Jaipur";
   "Noida"; "Gurgaon"; "Gurugram"; "Ghaziabad"; "Lucknow"; "Chandigarh";
   "Indore"; "Bhopal"; "Nagpur"; "Vadodara"; "Surat"; "Kochi"; "Cochin";
   "Thiruvananthapuram"; "Coimbatore"; "Visakhapatnam"; "Mysore"; "Mysuru";
   "Jamnagar"; "Rajkot"; "Patna"; "Ranchi"; "Bhubaneswar"; "Guwahati";
   "Dehradun"; "Shimla"; "Amritsar"; "Ludhiana"; "Jalandhar";
   "Siliguri"; "Jodhpur"; "Udaipur"; "Varanasi"; "Agra"; "Kanpur";
   "Meerut"; "Faridabad"; "Gwalior"; "Jabalpur"; "Aurangabad";
   "Nashik"; "Thane"; "Navi Mumbai"; "Mangalore";
   "Head Office"; "Corporate Office"; "Corporate"; "HQ"].

(** [sorted(_LOCATIONS, key=len, reverse=True)]: a stable sort, longest
    first. *)
Fixpoint insert_by_len (x : string) (l : list string) : list string :=
  match l with
  | [] => [x]
  | y :: l' =>
      if Nat.ltb (len y) (len x) then x :: l else y :: insert_by_len x l'
  end.

Definition sort_by_len_desc (l : list string) : list string :=
  fold_right insert_by_len [] l.

Definition TRAILING_LOCATION_RE : regex :=
  seqs [Plus (Chr (fun c => (Ascii.eqb c "," || is_space c)%bool));
        alt_ci (sort_by_len_desc LOCATIONS); ws_star; Eol].

Definition WS_RUN_RE : regex := ws_plus.

Definition AMP_GLUE_RE : regex :=
  seqs [word_char; ws_plus; chr "&"; word_char].

(** The replacement [\1&\2] of [AMP_GLUE_RE]: the first and the last
    character of the match around an ampersand. *)
Definition amp_glue_repl (m : text) : text :=
  match m with
  | [] => []
  | c :: _ => [c; "&"%char; last m c]
  end.

(** The body of the [for _ in range(3)] loop; it stops early once the text
    is stable. *)
Fixpoint strip_locations (n : nat) (s : string) : string :=
  match n with
  | O => s
  | S n' =>
      let prev := s in
      let s := re_sub_const TRAILING_LOCATION_RE "" s in
      let s := re_sub_const TRAILING_JUNK_RE "" s in
      if String.eqb s prev then s else strip_locations n' s
  end.

Definition clean_name (label : string) : string :=
  if String.eqb label "" then "" else
  let s := strip label in
  let s := re_sub_const LINKEDIN_SUFFIX_RE "" s in
  let s := re_sub_const PAREN_RE " " s in
  let s := re_sub_const LEADING_JUNK_RE "" s in
  let s := re_sub_const TRAILING_JUNK_RE "" s in
  let s := strip_locations 3 s in
  let s := re_sub_const WS_RUN_RE " " s in
  let s := re_sub AMP_GLUE_RE amp_glue_repl s in
  strip s.

(** ** Garbage detection ([classify_garbage]) *)

Definition digit : regex := Chr is_digit.
Definition anchored (r : regex) : regex := seqs [Bol; r; Eol].

Definition PLACEHOLDER_RE : regex :=
  anchored (alts [
    lit_ci "test"; lit_ci "testing"; lit_ci "unknown";
    seqs [lit_ci "n"; Opt (chr "/"); lit_ci "a"];
    lit_ci "none"; lit_ci "null"; lit_ci "na"; lit_ci "tbd"; lit_ci "temp";
    lit_ci "temporary"; lit_ci "sample"; lit_ci "dummy"; lit_ci "xxx";
    lit_ci "zzz"; lit_ci "abc"; lit_ci "asdf"; lit_ci "qwerty";
    seqs [lit_ci "company"; ws_star; Star digit];
    seqs [lit_ci "no"; ws_star; lit_ci "company"];
    seqs [lit_ci "not"; ws_star; lit_ci "applicable"];
    lit_ci "confidential"; lit_ci "private"; lit_ci "personal";
    seqs [lit_ci "do"; ws_star; lit_ci "not"; ws_star; lit_ci "use"];
    lit_ci "delete"; lit_ci "removed"; lit_ci "undefined";
    lit_ci "current"; lit_ci "present"; lit_ci "same";
    seqs [lit_ci "same"; ws_plus; lit_ci "as"; ws_plus; lit_ci "above"];
    seqs [lit_ci "as"; ws_plus; lit_ci "above"];
    lit_ci "ditto"; lit_ci "above"; lit_ci "below";
    lit_ci "various"; lit_ci "multiple"; lit_ci "several"; lit_ci "many";
    lit_ci "other"; lit_ci "others"; lit_ci "etc"; lit_ci "misc";
    lit_ci "miscellaneous"]).

Definition word_star : regex := Star word_char.

(** [_NON_COMPANY_RE]; the third alternative of its prefix starts with the
    middle dot U+00B7 and matches nowhere in 7-bit text. *)
Definition NON_COMPANY_RE : regex :=
  Seq (alts [Bol; ws])
      (alts [
        seqs [lit_ci "freelanc"; word_star];
        seqs [lit_ci "self";
              Opt (Chr (fun c => (is_space c || Ascii.eqb c "-")%bool));
              lit_ci "employ"; word_star];
        seqs [lit_ci "unemploy"; word_star];
        lit_ci "retired"; lit_ci "retirement"; lit_ci "student";
        lit_ci "homemaker"; lit_ci "housewife";
        seqs [lit_ci "looking"; ws_plus; lit_ci "for"; ws_plus;
              alts [lit_ci "job"; lit_ci "work"; lit_ci "opportunit";
                    seqs [lit_ci "a"; ws_plus; lit_ci "job"]]];
        seqs [lit_ci "job"; ws_plus; lit_ci "seek"; word_star];
        seqs [lit_ci "between"; ws_plus; lit_ci "jobs"];
        seqs [lit_ci "career"; ws_plus; lit_ci "break"];
        seqs [lit_ci "open"; ws_plus; lit_ci "to"; ws_plus; lit_ci "work"];
        seqs [lit_ci "actively"; ws_plus; lit_ci "seeking"]]).

Definition JOB_TITLE_RE : regex :=
  anchored (Seq
    (alts [
      lit_ci "consultant"; lit_ci "advisor"; lit_ci "manager";
      lit_ci "director"; lit_ci "engineer"; lit_ci "analyst";
      lit_ci "developer"; lit_ci "designer"; lit_ci "architect";
      lit_ci "teacher"; lit_ci "professor"; lit_ci "lecturer";
      lit_ci "doctor"; lit_ci "lawyer"; lit_ci "advocate";
      lit_ci "attorney"; lit_ci "accountant"; lit_ci "auditor";
      lit_ci "trainer"; lit_ci "coach"; lit_ci "mentor"; lit_ci "tutor";
      lit_ci "instructor";
      lit_ci "volunteer"; lit_ci "intern"; lit_ci "trainee";
      lit_ci "apprentice";
      lit_ci "partner"; lit_ci "founder";
      seqs [lit_ci "co"; Opt (chr "-"); ws_star; lit_ci "founder"];
      lit_ci "entrepreneur";
      lit_ci "ceo"; lit_ci "cto"; lit_ci "cfo"; lit_ci "coo"; lit_ci "cio";
      lit_ci "cmo"; lit_ci "vp"; lit_ci "svp"; lit_ci "evp"; lit_ci "md";
      lit_ci "gm"])
    (Opt (lit_ci "s"))).

(** [_ROLE_PATTERN_RE]; of the three dashes of its last class only the
    hyphen is a 7-bit character. *)
Definition ROLE_PATTERN_RE : regex :=
  anchored (seqs [
    Plus (Seq
      (alts [
        lit_ci "regional"; lit_ci "branch"; lit_ci "area"; lit_ci "district";
        lit_ci "territory"; lit_ci "zone"; lit_ci "zonal"; lit_ci "national";
        lit_ci "global"; lit_ci "category"; lit_ci "channel"; lit_ci "senior";
        lit_ci "junior"; lit_ci "assistant"; lit_ci "deputy"; lit_ci "chief";
        lit_ci "associate"; lit_ci "executive"; lit_ci "general";
        lit_ci "central";
        seqs [lit_ci "key"; ws_plus; lit_ci "account"]])
      ws_plus);
    Star (Seq
      (alt_ci ["sales"; "marketing"; "business"; "service"; "product";
               "project"; "operations"; "hr"; "human"; "resource"; "finance";
               "technical"; "commercial"; "customer"; "legal"; "supply";
               "procurement"; "logistics"; "it"; "digital"])
      ws_plus);
    alt_ci ["manager"; "director"; "head"; "leader"; "officer"; "supervisor";
            "coordinator"; "executive"; "president"; "counsel"];
    Opt (lit_ci "s");
    Star (seqs [ws_star; chr "-"; ws_star; Plus word_char])]).

Definition INDEPENDENT_RE : regex :=
  anchored (seqs [
    lit_ci "independent"; ws_plus;
    alt_ci ["consultant"; "contractor"; "advisor"; "professional";
            "practitioner"; "researcher"; "developer"; "designer";
            "engineer"];
    Opt (lit_ci "s")]).

(** [_SPECIAL_ONLY_RE]; the ranges U+00C0 to U+024F and U+0400 to U+04FF
    that its class excludes besides the letters and digits hold no 7-bit
    character. *)
Definition SPECIAL_ONLY_RE : regex :=
  anchored (Plus (Chr (fun c => negb (is_alpha c || is_digit c)%bool))).

Definition NUMERIC_ONLY_RE : regex := anchored (Plus digit).

(** The reasons [classify_garbage] returns; [too_short n] stands for the
    text [too_short (n chars)]. *)
Inductive reason : Type :=
| empty
| too_short (n : nat)
| special_chars_only
| numeric_only
| placeholder
| job_title_not_company
| job_role_not_company
| independent_not_company
| non_company.

Definition classify_garbage (cleaned : string) : option reason :=
  if String.eqb cleaned "" then Some empty
  else if Nat.leb (len cleaned) 2 then Some (too_short (len cleaned))
  else if re_match SPECIAL_ONLY_RE cleaned then Some special_chars_only
  else if re_match NUMERIC_ONLY_RE cleaned then Some numeric_only
  else if re_match PLACEHOLDER_RE cleaned then Some placeholder
  else if re_match JOB_TITLE_RE cleaned then Some job_title_not_company
  else if re_match ROLE_PATTERN_RE cleaned then Some job_role_not_company
  else if re_match INDEPENDENT_RE cleaned then Some independent_not_company
  else if re_search NON_COMPANY_RE cleaned then Some non_company
  else None.

(** The priority order of the specification: one check for each reason,
    from [empty] to [non_company], and the first check that accepts the
    text gives its reason.  [classify_priority] compares [classify_garbage]
    with it. *)
Definition reason_checks : list ((string -> bool) * (string -> reason)) :=
  [ (fun s => String.eqb s "", fun _ => empty);
    (fun s => Nat.leb (len s) 2, fun s => too_short (len s));
    (re_match SPECIAL_ONLY_RE, fun _ => special_chars_only);
    (re_match NUMERIC_ONLY_RE, fun _ => numeric_only);
    (re_match PLACEHOLDER_RE, fun _ => placeholder);
    (re_match JOB_TITLE_RE, fun _ => job_title_not_company);
    (re_match ROLE_PATTERN_RE, fun _ => job_role_not_company);
    (re_match INDEPENDENT_RE, fun _ => independent_not_company);
    (re_search NON_COMPANY_RE, fun _ => non_company) ].

Fixpoint first_match (checks : list ((string -> bool) * (string -> reason)))
    (s : string) : option reason :=
  match checks with
  | [] => None
  | (accepts, why) :: checks' =>
      if accepts s then Some (why s) else first_match checks' s
  end.

Definition first_reason (s : string) : option reason :=
  first_match reason_checks s.

(** ** Normalisation ([normalize]) *)

Definition dot_opt : regex := Opt (chr ".").
Definition wb (r : regex) : regex := seqs [WordB; r; WordB].

Definition LEGAL_SUFFIX_RE : regex :=
  alts [
    wb (lit_ci "incorporated");
    seqs [WordB; lit_ci "inc"; WordB; dot_opt];
    seqs [WordB; lit_ci "llc"; WordB; dot_opt];
    seqs [WordB; lit_ci "l"; chr "."; lit_ci "l"; chr "."; lit_ci "c"; dot_opt];
    wb (lit_ci "limited");
    seqs [WordB; lit_ci "ltd"; WordB; dot_opt];
    wb (lit_ci "corporation");
    seqs [WordB; lit_ci "corp"; WordB; dot_opt];
    seqs [WordB; lit_ci "co"; WordB; dot_opt];
    seqs [WordB; lit_ci "plc"; WordB; dot_opt];
    wb (lit_ci "gmbh");
    wb (lit_ci "ag");
    seqs [WordB; lit_ci "s"; dot_opt; lit_ci "a"; dot_opt; WordB];
    seqs [WordB; lit_ci "n"; dot_opt; lit_ci "v"; dot_opt; WordB];
    seqs [WordB; lit_ci "pvt"; WordB; dot_opt];
    wb (lit_ci "private");
    seqs [WordB; lit_ci "l"; dot_opt; lit_ci "p"; dot_opt; WordB];
    seqs [WordB; lit_ci "llp"; WordB; dot_opt]].

Definition STOPWORDS : list string :=
  ["the"; "and"; "of"; "for"; "in"; "a"; "an"; "to"; "at"; "by"; "on"].

Definition AMPERSAND_ACRONYM_RE : regex :=
  seqs [WordB; Rep13 (Chr is_alpha); ws_star; chr "&"; ws_star;
        Rep13 (Chr is_alpha); WordB].

(** [m.group(1) + m.group(2)]: the letters of the match. *)
Definition acronym_repl (m : text) : text := filter is_alpha m.

(** [s.replace("&", " and ")]. *)
Definition replace_amp (s : string) : string :=
  str (flat_map (fun c => if Ascii.eqb c "&" then chars " and " else [c])
                (chars s)).

Definition PUNCT_RE : regex :=
  Chr (fun c => negb (is_word c || is_space c)%bool).
Definition LEADING_THE_RE : regex := seqs [Bol; lit "the"; ws_plus].
Definition TRAILING_THE_RE : regex := seqs [ws_plus; lit "the"; Eol].

Definition normalize (label : string) : string :=
  if String.eqb label "" then "" else
  let s := strip (lower label) in
  let s := re_sub AMPERSAND_ACRONYM_RE acronym_repl s in
  let s := replace_amp s in
  let s := re_sub_const PUNCT_RE " " s in
  let s := strip (re_sub_const WS_RUN_RE " " s) in
  let s := re_sub_const LEGAL_SUFFIX_RE "" s in
  let s := re_sub_const LEADING_THE_RE "" s in
  let s := re_sub_const TRAILING_THE_RE "" s in
  strip (re_sub_const WS_RUN_RE " " s).

(** ** Thresholds *)

Definition MERGE_THRESHOLD : Q := 0.80.
Definition AUTO_MERGE_THRESHOLD : Q := 0.91.
Definition MAX_BLOCK : nat := 350.
Definition MAX_GROUP_SIZE : nat := 50.
Definition TIGHT_THRESHOLD : Q := 0.90.

Definition Qltb (x y : Q) : bool := negb (Qle_bool y x).
Definition Qgeb (x y : Q) : bool := Qle_bool y x.

(** ** Vocabularies *)

Definition STRONG_DIFFERENTIATORS : list string :=
  ["finance"; "financial"; "bank"; "banking"; "capital"; "securities";
   "insurance"; "assurance"; "reinsurance"; "credit"; "leasing";
   "lending"; "microfinance"; "power"; "steel"; "cement"; "chemicals";
   "petrochemicals"; "polymers"; "metals"; "mining"; "refinery";
   "petroleum"; "pharma"; "pharmaceutical"; "pharmaceuticals";
   "healthcare"; "hospitals"; "hospital"; "biotech"; "diagnostics";
   "motors"; "automobiles"; "automotive"; "aviation"; "airlines";
   "shipping"; "logistics"; "telecom"; "telecommunications"; "media";
   "broadcasting"; "realty"; "construction"; "infrastructure";
   "properties"; "retail"; "distribution"; "foods"; "beverages";
   "fashion"; "apparel"; "clothing"; "education"; "educational";
   "university"; "academy"; "agriculture"; "agri"; "agrochemicals";
   "seeds"; "fertilizers"; "textiles"; "textile"; "garments"; "hotels";
   "hotel"; "resort"; "resorts"; "holidays"; "wellness"; "electronics";
   "electrical"; "appliances"; "semiconductors"; "life"; "general";
   "health"; "home"].

Definition BROADER_DIFFERENTIATORS : list string :=
  ["industries"; "industrial"; "manufacturing"; "engineering";
   "automation"; "technologies"; "technology"; "digital"; "software";
   "infotech"; "infosystems"; "systems"; "computing"; "solutions";
   "consulting"; "consultancy"; "advisory"; "services"; "outsourcing";
   "staffing"; "recruitment"; "entertainment"; "communications";
   "broadband"; "investment"; "investments"; "mutual"; "fund"; "asset";
   "wealth"; "housing"; "factoring"; "consumer"; "fmcg"; "trading";
   "stores"; "wholesale"; "medical"; "sciences"; "clinical"; "transport";
   "transportation"; "freight"; "courier"; "developers"; "estates";
   "learning"; "training"; "institute"; "fertilisers"; "pesticides";
   "fabrics"; "oil"; "gas"; "energy"; "renewables"; "solar"; "wind";
   "robotics"; "defence"; "defense"; "aerospace"; "amc"; "nbfc"; "hfc"].

Definition GENERIC_INDUSTRY_TERMS : list string :=
  ["group"; "groups"; "company"; "companies"; "corporation"; "corporate";
   "enterprises"; "enterprise"; "industries"; "industrial"; "industry";
   "international"; "global"; "worldwide"; "national"; "associates";
   "associate"; "partnership"; "partners"; "holdings"; "holding";
   "limited"; "pvt"; "private"; "public"; "division"; "divisions"; "unit";
   "branch"; "services"; "service"; "solutions"; "solution"; "management";
   "consulting"; "consultant"; "consultants"; "consultancy"; "advisory";
   "advisor"; "advisors"; "products"; "product"; "works"; "systems";
   "system"; "operations"; "operation"; "hospital"; "hospitals"; "clinic";
   "clinics"; "medical"; "healthcare"; "financial"; "finance"; "bank";
   "banking"; "banks"; "insurance"; "assurance"; "engineering";
   "engineers"; "engineer"; "technology"; "technologies"; "tech";
   "software"; "hardware"; "bearings"; "bearing"; "machine"; "machines";
   "tools"; "tool"; "devices"; "device"; "exchange"; "exchanges";
   "mutual"; "fund"; "funds"; "electric"; "electrical"; "electronics";
   "electronic"; "vehicles"; "vehicle"; "commercial"; "pharma";
   "pharmaceutical"; "pharmaceuticals"; "drugs"; "drug"; "cement";
   "cements"; "steel"; "steels"; "power"; "energy"; "motors"; "motor";
   "oil"; "gas"; "chemicals"; "chemical"; "paints"; "paint"; "textiles";
   "textile"; "retail"; "stores"; "store"; "foods"; "food"; "beverages";
   "beverage"; "logistics"; "transport"; "transportation"; "construction";
   "infrastructure"; "telecom"; "telecommunications"; "media";
   "broadcasting"; "digital"; "automation"; "research"; "development";
   "laboratory"; "laboratories"; "lab"; "labs"; "manufacturing";
   "manufacturer"; "manufacturers"; "trading"; "traders"; "distribution";
   "distributors"; "distributor"; "marketing"; "sales"; "stock";
   "investment"; "investments"; "securities"; "capital"; "credit";
   "lending"; "leasing"; "housing"; "asset"; "wealth"; "consumer";
   "petroleum"; "petrochemicals"; "petrochemical"; "polymers"; "plastics";
   "rubber"; "metals"; "mining"; "refinery"; "refineries";
   "semiconductors"; "diagnostics"; "biotech"; "biotechnology";
   "aerospace"; "defence"; "defense"; "shipping"; "freight"; "courier";
   "airlines"; "aviation"; "seeds"; "fertilizers"; "fertilisers";
   "garments"; "apparel"; "fashion"; "fabrics"; "realty"; "properties";
   "property"; "estates"; "estate"; "education"; "educational";
   "training"; "learning"; "institute"; "institution"; "institutions";
   "academy"; "university"; "college"; "school"; "india"; "indian";
   "armed"; "forces"; "force"; "air"; "army"; "navy"; "chamber";
   "commerce"; "ministry"; "department"; "government"; "govt";
   "independent"; "professional"; "professionals"; "regional"; "area";
   "senior"; "junior"; "manager"; "managers"; "director"; "directors";
   "head"; "officer"; "executive"; "facilities"; "facility"; "network";
   "networks"; "communications"; "communication"; "broadband"; "wireless";
   "computing"; "outsourcing"; "staffing"; "recruitment"; "entertainment";
   "supply"; "chain"; "procurement"; "developers"; "developer";
   "advanced"; "integrated"; "small"; "micro"; "mini"; "new"; "sector";
   "council"; "authority"; "board"; "commission"; "organization";
   "organisation"; "federation"; "association"; "society"; "trust";
   "foundation"; "welfare"].

Definition BUSINESS_DIFFERENTIATORS : list string :=
  (STRONG_DIFFERENTIATORS ++ BROADER_DIFFERENTIATORS)%list.

(** ** Interfaces of the environment *)

(** The four scorers of [rapidfuzz.fuzz], each with values in [0, 100]. *)
Class Fuzz : Type := {
  fuzz_ratio : string -> string -> Q;
  fuzz_token_sort_ratio : string -> string -> Q;
  fuzz_token_set_ratio : string -> string -> Q;
  fuzz_partial_ratio : string -> string -> Q
}.

(** The order in which a hash set yields its members: some permutation. *)
Class HashOrder : Type := {
  order : forall {A : Type}, list A -> list A;
  order_perm : forall (A : Type) (l : list A), Permutation (order l) l
}.

(** ** Sets of strings, as duplicate-free lists *)

Fixpoint set_of (l : list string) : list string :=
  match l with
  | [] => []
  | x :: l' => let s := set_of l' in if mem_str x s then s else x :: s
  end.

Definition set_add (x : string) (s : list string) : list string :=
  if mem_str x s then s else (s ++ [x])%list.

Definition set_inter (a b : list string) : list string :=
  filter (fun x => mem_str x b) a.

Definition set_diff (a b : list string) : list string :=
  filter (fun x => negb (mem_str x b)) a.

Definition set_union (a b : list string) : list string :=
  (a ++ set_diff b a)%list.

Definition is_empty {A} (l : list A) : bool :=
  match l with [] => true | _ => false end.

Definition subset (a b : list string) : bool :=
  forallb (fun x => mem_str x b) a.

Definition set_eqb (a b : list string) : bool := (subset a b && subset b a)%bool.

(** [_significant_tokens]: the non-stopword tokens longer than one
    character. *)
Definition significant_tokens (norm : string) : list string :=
  filter (fun t => (negb (mem_str t STOPWORDS) && Nat.ltb 1 (len t))%bool)
         (split norm).

Section Policy.
Context {fz : Fuzz} {ho : HashOrder}.

(** [fuzz.ratio(ta, tb) >= 80]. *)
Definition close (ta tb : string) : bool := Qgeb (fuzz_ratio ta tb) 80.

(** The inner loop of the typo matching: the first token of [only_b], in
    iteration order, that is not yet matched and is close to [ta]. *)
Definition first_close (ta : string) (only_b matched_b : list string)
  : option string :=
  find (fun tb => (negb (mem_str tb matched_b) && close ta tb)%bool)
       (order only_b).

(** The typo matching of [has_business_conflict]: returns
    [(real_only_a, matched_b)]. *)
Fixpoint conflict_fold (todo only_b real_only_a matched_b : list string)
  : list string * list string :=
  match todo with
  | [] => (real_only_a, matched_b)
  | ta :: todo' =>
      match first_close ta only_b matched_b with
      | Some tb => conflict_fold todo' only_b real_only_a (set_add tb matched_b)
      | None => conflict_fold todo' only_b (set_add ta real_only_a) matched_b
      end
  end.

(** The sets [real_only_a] and [real_only_b] of [has_business_conflict]. *)
Definition conflict_real_only (tokens_a tokens_b : list string)
  : list string * list string :=
  let only_a := set_diff tokens_a tokens_b in
  let only_b := set_diff tokens_b tokens_a in
  let '(real_only_a, matched_b) :=
    conflict_fold (order only_a) only_b [] [] in
  (real_only_a, set_diff only_b matched_b).

Definition has_business_conflict (norm_a norm_b : string) (score : Q) : bool :=
  let tokens_a := set_of (significant_tokens norm_a) in
  let tokens_b := set_of (significant_tokens norm_b) in
  let shared := set_inter tokens_a tokens_b in
  if is_empty shared then false else
  let only_a := set_diff tokens_a tokens_b in
  let only_b := set_diff tokens_b tokens_a in
  if (is_empty only_a && is_empty only_b)%bool then false else
  let '(real_only_a, real_only_b) := conflict_real_only tokens_a tokens_b in
  if (is_empty real_only_a && is_empty real_only_b)%bool then false else
  if (is_empty real_only_a || is_empty real_only_b)%bool then
    let extra := set_union real_only_a real_only_b in
    if negb (is_empty (set_inter extra STRONG_DIFFERENTIATORS))
    then Qltb score 0.93
    else false
  else
    let has_biz_a :=
      negb (is_empty (set_inter real_only_a BUSINESS_DIFFERENTIATORS)) in
    let has_biz_b :=
      negb (is_empty (set_inter real_only_b BUSINESS_DIFFERENTIATORS)) in
    if (has_biz_a || has_biz_b)%bool then Qltb score 0.95
    else Qltb score 0.90.

(** [composite_score].  The weighted sum is exact here; the source computes
    it in floating point, where each product and each sum is rounded, so
    the two values can differ in the last bits. *)
Definition composite_score (a b : string) : Q :=
  if (String.eqb a "" || String.eqb b "")%bool then 0%Q else
  let tsr := (fuzz_token_sort_ratio a b / 100)%Q in
  let tse := (fuzz_token_set_ratio a b / 100)%Q in
  let rat := (fuzz_ratio a b / 100)%Q in
  let par := (fuzz_partial_ratio a b / 100)%Q in
  (0.30 * tsr + 0.25 * tse + 0.30 * rat + 0.15 * par)%Q.

(** The typo matching of the generic-term protection in [should_merge]:
    returns [(fuzzy_a, matched_b)]. *)
Fixpoint generic_fold (todo only_b fuzzy_a matched_b : list string)
  : list string * list string :=
  match todo with
  | [] => (fuzzy_a, matched_b)
  | ta :: todo' =>
      match first_close ta only_b matched_b with
      | Some tb =>
          generic_fold todo' only_b (set_add ta fuzzy_a) (set_add tb matched_b)
      | None => generic_fold todo' only_b fuzzy_a matched_b
      end
  end.

(** The sets [real_only_a] and [real_only_b] of the generic-term
    protection. *)
Definition generic_real_only (set_a set_b : list string)
  : list string * list string :=
  let only_a := set_diff set_a set_b in
  let only_b := set_diff set_b set_a in
  let '(fuzzy_a, matched_b) := generic_fold (order only_a) only_b [] [] in
  (set_diff only_a fuzzy_a, set_diff only_b matched_b).

(** The generic industry-term protection of [should_merge]; [true] when
    the block executes one of its [return False]. *)
Definition generic_protection (tokens_a tokens_b : list string) (score : Q)
  : bool :=
  let set_a := set_of tokens_a in
  let set_b := set_of tokens_b in
  let shared := set_inter set_a set_b in
  if is_empty shared then false else
  let distinctive_shared := set_diff shared GENERIC_INDUSTRY_TERMS in
  if negb (is_empty distinctive_shared) then false else
  let '(real_only_a, real_only_b) := generic_real_only set_a set_b in
  if (is_empty real_only_a && is_empty real_only_b)%bool then false
  else if (negb (is_empty real_only_a) && negb (is_empty real_only_b))%bool
  then true
  else
    let extra := set_union real_only_a real_only_b in
    let has_distinctive_extra :=
      existsb (fun tok => negb (mem_str tok GENERIC_INDUSTRY_TERMS)) extra in
    (has_distinctive_extra && Qltb score 0.95)%bool.

(** The number of tokens of [set_a] with a close token in [set_b]. *)
Definition fuzzy_matches (set_a set_b : list string) : nat :=
  List.length
    (filter (fun ta => existsb (fun tb => close ta tb) (order set_b))
            (order set_a)).

(** The medium-confidence rule at the end of [should_merge]. *)
Definition token_overlap (tokens_a tokens_b : list string) : bool :=
  let set_a := set_of tokens_a in
  let set_b := set_of tokens_b in
  if set_eqb set_a set_b then true else
  let matches := fuzzy_matches set_a set_b in
  let max_len := Nat.max (List.length set_a) (List.length set_b) in
  if Nat.eqb max_len 0 then false
  else Qgeb (inject_Z (Z.of_nat matches) / inject_Z (Z.of_nat max_len))%Q 0.65.

Definition should_merge (norm_a norm_b : string) (score : Q) : bool :=
  if Qltb score MERGE_THRESHOLD then false else
  if String.eqb norm_a norm_b then true else
  let tokens_a := significant_tokens norm_a in
  let tokens_b := significant_tokens norm_b in
  let min_tokens := Nat.min (List.length tokens_a) (List.length tokens_b) in
  if (Nat.leb min_tokens 1 && Qltb score 0.95)%bool then false else
  if generic_protection tokens_a tokens_b score then false else
  if has_business_conflict norm_a norm_b score then false else
  if Qgeb score AUTO_MERGE_THRESHOLD then true else
  token_overlap tokens_a tokens_b.
End Policy.

(** ** Dictionaries in insertion order *)

Class EqKey (K : Type) : Type := {
  keqb : K -> K -> bool;
  keqb_eq : forall x y, keqb x y = true <-> x = y
}.

#[export] Instance EqKey_Z : EqKey Z :=
  {| keqb := Z.eqb; keqb_eq := Z.eqb_eq |}.

#[export] Instance EqKey_string : EqKey string :=
  {| keqb := String.eqb; keqb_eq := String.eqb_eq |}.

Definition dict (K V : Type) : Type := list (K * V).

Section Dict.
Context {K V : Type} {ek : EqKey K}.

Fixpoint dget (d : dict K V) (k : K) : option V :=
  match d with
  | [] => None
  | (k', v) :: d' => if keqb k' k then Some v else dget d' k
  end.

(** [d[k] = v]: an existing key keeps its place, a new one goes last. *)
Fixpoint dset (d : dict K V) (k : K) (v : V) : dict K V :=
  match d with
  | [] => [(k, v)]
  | (k', v') :: d' =>
      if keqb k' k then (k, v) :: d' else (k', v') :: dset d' k v
  end.

Definition dmem (d : dict K V) (k : K) : bool := is_some (dget d k).
Definition dkeys (d : dict K V) : list K := map fst d.
Definition dget_or (d : dict K V) (k : K) (default : V) : V :=
  match dget d k with Some v => v | None => default end.
End Dict.

(** Sets of keys, as duplicate-free lists. *)
Section KeySet.
Context {K : Type} {ek : EqKey K}.

Definition kmem (x : K) (s : list K) : bool := existsb (keqb x) s.
Definition kadd (x : K) (s : list K) : list K :=
  if kmem x s then s else (s ++ [x])%list.
End KeySet.

(** [d[k].add(x)] on a [defaultdict(set)]. *)
Definition block_add {K} {ek : EqKey K} (d : dict K (list Z)) (k : K) (x : Z)
  : dict K (list Z) :=
  dset d k (kadd x (dget_or d k [])).

(** [sorted] on integers. *)
Fixpoint insert_Z (x : Z) (l : list Z) : list Z :=
  match l with
  | [] => [x]
  | y :: l' => if x <=? y then x :: l else y :: insert_Z x l'
  end.

Definition sorted_Z (l : list Z) : list Z := fold_right insert_Z [] l.

(** [sorted] on strings, by code points. *)
Fixpoint insert_str (x : string) (l : list string) : list string :=
  match l with
  | [] => [x]
  | y :: l' => if String.leb x y then x :: l else y :: insert_str x l'
  end.

Definition sorted_str (l : list string) : list string :=
  fold_right insert_str [] l.

(** ** Union-Find *)

Record UnionFind : Type := {
  parent : dict Z Z;
  rank : dict Z nat
}.

Definition uf_new : UnionFind := {| parent := []; rank := [] |}.

Definition parent_of (uf : UnionFind) (x : Z) : Z := dget_or (parent uf) x x.
Definition rank_of (uf : UnionFind) (x : Z) : nat := dget_or (rank uf) x 0%nat.

(** The first statement of [find]: an unknown element becomes a root of
    rank 0. *)
Definition touch (uf : UnionFind) (x : Z) : UnionFind :=
  if dmem (parent uf) x then uf
  else {| parent := dset (parent uf) x x; rank := dset (rank uf) x 0%nat |}.

Definition set_parent (uf : UnionFind) (x p : Z) : UnionFind :=
  {| parent := dset (parent uf) x p; rank := rank uf |}.

(** [find] with path compression; [fuel] bounds the depth of the
    recursion. *)
Fixpoint find_rec (fuel : nat) (uf : UnionFind) (x : Z) : UnionFind * Z :=
  let uf := touch uf x in
  let p := parent_of uf x in
  if p =? x then (uf, p)
  else
    match fuel with
    | O => (uf, p)
    | S fuel' =>
        let '(uf', r) := find_rec fuel' uf p in
        (set_parent uf' x r, r)
    end.

(** Ranks grow strictly along a chain of parents, so the largest rank
    bounds the depth of [find]. *)
Definition max_rank (uf : UnionFind) : nat := list_max (map snd (rank uf)).

Definition find (uf : UnionFind) (x : Z) : UnionFind * Z :=
  find_rec (max_rank uf) uf x.

Definition union (uf : UnionFind) (x y : Z) : UnionFind :=
  let '(uf, rx) := find uf x in
  let '(uf, ry) := find uf y in
  if rx =? ry then uf
  else
    let '(rx, ry) :=
      if Nat.ltb (rank_of uf rx) (rank_of uf ry) then (ry, rx) else (rx, ry) in
    let uf := set_parent uf ry rx in
    if Nat.eqb (rank_of uf rx) (rank_of uf ry)
    then {| parent := parent uf;
            rank := dset (rank uf) rx (rank_of uf rx + 1)%nat |}
    else uf.

(** [groups]: the dictionary from each root to the set of its members; the
    calls of [find] compress paths on the way. *)
Definition groups_step (st : UnionFind * dict Z (list Z)) (x : Z)
  : UnionFind * dict Z (list Z) :=
  let '(uf, g) := st in
  let '(uf', r) := find uf x in
  (uf', block_add g r x).

Definition groups (uf : UnionFind) : UnionFind * dict Z (list Z) :=
  fold_left groups_step (dkeys (parent uf)) (uf, []).

Definition unions (uf : UnionFind) (l : list (Z * Z)) : UnionFind :=
  fold_left (fun u ab => union u (fst ab) (snd ab)) l uf.

(** ** Primary selection ([primary_score]) *)

Definition LEGAL_SIMPLE : regex :=
  wb (alt_ci ["inc"; "ltd"; "llc"; "corp"; "plc"; "gmbh"; "pvt"; "limited";
              "corporation"; "incorporated"]).

Definition type_bonus (source_type : string) : Q :=
  if String.eqb source_type "Company" then 100
  else if String.eqb source_type "Companny" then 90
  else if String.eqb source_type "Group" then 50
  else if String.eqb source_type "Archived" then 10
  else 0.

Definition q_min (x y : Q) : Q := if Qle_bool x y then x else y.

Definition first_is_upper (label : string) : bool :=
  match chars label with c :: _ => is_upper c | [] => false end.

Definition primary_score (label source_type : string) : Q :=
  if (String.eqb label "" || Nat.ltb (len (strip label)) 2)%bool then (-10)%Q
  else
    let score := type_bonus source_type in
    let score :=
      if String.eqb label (upper label) then (score - 1)%Q
      else if String.eqb label (lower label) then (score - 1)%Q
      else if first_is_upper label then (score + 2)%Q
      else score in
    let score :=
      if re_search LEGAL_SIMPLE label then (score + 1)%Q else score in
    let length := len (strip label) in
    let score :=
      if Nat.leb 5 length
      then (score + q_min (inject_Z (Z.of_nat length) / 30) 1)%Q
      else score in
    if (contains_t (chars "  ") (chars label)
        || negb (String.eqb label (strip label)))%bool
    then (score - 1)%Q else score.

(** ** The batch job ([main]) *)

Record input_row : Type := {
  in_id : Z;
  in_label : option string;
  in_type : option string
}.

(** An element of [all_records]. *)
Record record : Type := {
  rec_id : Z;
  rec_cleaned : string;
  rec_original : string;
  rec_type : string;
  rec_valid : Z;
  rec_reason : option reason
}.

(** A row inserted into [balanced_result]. *)
Record output_row : Type := {
  company_name : string;
  original_name : string;
  master_id : Z;
  source_type : string;
  group_id : Z;
  is_primary : Z;
  is_valid : Z;
  filter_reason : option reason
}.

(** [x or default] on an optional text. *)
Definition or_else (x : option string) (default : string) : string :=
  match x with
  | Some s => if String.eqb s "" then default else s
  | None => default
  end.

(** Step 3: clean and classify. *)
Definition load_record (r : input_row) : record :=
  let original := or_else (in_label r) "" in
  let cleaned := clean_name original in
  let reason := classify_garbage cleaned in
  {| rec_id := in_id r;
     rec_cleaned := cleaned;
     rec_original := original;
     rec_type := or_else (in_type r) "Unknown";
     rec_valid := if is_some reason then 0 else 1;
     rec_reason := reason |}.

Definition all_records (rows : list input_row) : list record :=
  map load_record rows.

(** Step 4: the lookups. *)
Definition dict_of {K V} {ek : EqKey K} (l : list (K * V)) : dict K V :=
  fold_left (fun d kv => dset d (fst kv) (snd kv)) l [].

Definition is_valid_record (r : record) : bool :=
  ((rec_valid r =? 1) && negb (String.eqb (rec_cleaned r) ""))%bool.

Definition valid_records (recs : list record) : list (Z * string) :=
  map (fun r => (rec_id r, rec_cleaned r)) (filter is_valid_record recs).

Definition id_to_cleaned (recs : list record) : dict Z string :=
  dict_of (valid_records recs).

Definition id_to_norm (recs : list record) : dict Z string :=
  dict_of (map (fun rc => (fst rc, normalize (snd rc))) (valid_records recs)).

Definition id_to_type (recs : list record) : dict Z string :=
  dict_of (map (fun r => (rec_id r, rec_type r)) recs).

(** Step 5: blocking. *)
Record blocks : Type := {
  block_prefix3 : dict string (list Z);
  block_prefix4 : dict string (list Z);
  block_token : dict string (list Z);
  block_first_word : dict string (list Z);
  block_word_prefix : dict string (list Z);
  block_compound : dict string (list Z)
}.

Definition no_blocks : blocks :=
  {| block_prefix3 := []; block_prefix4 := []; block_token := [];
     block_first_word := []; block_word_prefix := []; block_compound := [] |}.

Definition token_signature (normalized : string) : string :=
  join " " (sorted_str (significant_tokens normalized)).

Definition block_words (norm : string) : list string :=
  filter (fun w => (negb (mem_str w STOPWORDS) && Nat.ltb 2 (len w))%bool)
         (split norm).

Definition add_when (c : bool) (d : dict string (list Z)) (k : string) (x : Z)
  : dict string (list Z) :=
  if c then block_add d k x else d.

Definition block_record (b : blocks) (entry : Z * string) : blocks :=
  let '(rid, norm) := entry in
  let tsig := token_signature norm in
  let words := block_words norm in
  {| block_prefix3 :=
       add_when (Nat.leb 3 (len norm)) (block_prefix3 b) (prefix_n 3 norm) rid;
     block_prefix4 :=
       add_when (Nat.leb 4 (len norm)) (block_prefix4 b) (prefix_n 4 norm) rid;
     block_token :=
       add_when (negb (String.eqb tsig "")
                 && Nat.ltb 1 (List.length (split tsig)))%bool
                (block_token b) tsig rid;
     block_first_word :=
       match words with
       | w :: _ => block_add (block_first_word b) w rid
       | [] => block_first_word b
       end;
     block_word_prefix :=
       fold_left (fun d w => add_when (Nat.ltb 4 (len w)) d (prefix_n 5 w) rid)
                 words (block_word_prefix b);
     block_compound :=
       match words with
       | w0 :: w1 :: _ =>
           block_add (block_compound b) (w0 ++ "_" ++ prefix_n 3 w1) rid
       | _ => block_compound b
       end |}.

Definition build_blocks (norms : dict Z string) : blocks :=
  fold_left block_record norms no_blocks.

(** All [(ml[i], ml[j])] with [i < j], in loop order. *)
Fixpoint pairs_from (ml : list Z) : list (Z * Z) :=
  match ml with
  | [] => []
  | x :: ml' => (map (pair x) ml' ++ pairs_from ml')%list
  end.

Definition block_pairs (members : list Z) : list (Z * Z) :=
  if (Nat.ltb (List.length members) 2
      || Nat.ltb MAX_BLOCK (List.length members))%bool
  then []
  else pairs_from (sorted_Z members).

Definition pair_eqb (p q : Z * Z) : bool :=
  ((fst p =? fst q) && (snd p =? snd q))%bool.

Definition pair_add (p : Z * Z) (s : list (Z * Z)) : list (Z * Z) :=
  if existsb (pair_eqb p) s then s else (s ++ [p])%list.

Definition block_dicts (b : blocks) : list (dict string (list Z)) :=
  [block_prefix3 b; block_prefix4 b; block_token b; block_first_word b;
   block_word_prefix b; block_compound b].

(** The pairs emitted by the blocking loops, in emission order. *)
Definition emitted_pairs (b : blocks) : list (Z * Z) :=
  flat_map (fun bd => flat_map (fun kv => block_pairs (snd kv)) bd)
           (block_dicts b).

Definition candidate_pairs (b : blocks) : list (Z * Z) :=
  fold_left (fun s p => pair_add p s) (emitted_pairs b) [].

Section Job.
Context {fz : Fuzz} {ho : HashOrder}.

(** Step 6: the decision taken for a candidate pair with normalised
    names [na] and [nb]. *)
Definition link (na nb : string) : bool :=
  if (String.eqb na "" || String.eqb nb "")%bool then false
  else if String.eqb na nb then true
  else should_merge na nb (composite_score na nb).

Definition norm_of (norms : dict Z string) (rid : Z) : string :=
  dget_or norms rid "".

Definition cluster_step (norms : dict Z string) (uf : UnionFind)
    (p : Z * Z) : UnionFind :=
  if link (norm_of norms (fst p)) (norm_of norms (snd p))
  then union uf (fst p) (snd p) else uf.

Definition cluster (norms : dict Z string) (pairs : list (Z * Z))
  : UnionFind :=
  fold_left (cluster_step norms) (order pairs) uf_new.

(** Step 6b: the decision of the splitter. *)
Definition strict_link (na nb : string) : bool :=
  if (String.eqb na "" || String.eqb nb "")%bool then false
  else if String.eqb na nb then true
  else
    let sc := composite_score na nb in
    (Qgeb sc TIGHT_THRESHOLD && should_merge na nb sc)%bool.

Definition strict_step (norms : dict Z string) (uf : UnionFind)
    (p : Z * Z) : UnionFind :=
  if strict_link (norm_of norms (fst p)) (norm_of norms (snd p))
  then union uf (fst p) (snd p) else uf.

(** The cluster-local union-find built for one oversized group. *)
Definition sub_cluster (norms : dict Z string) (members : list Z)
  : UnionFind :=
  let member_list := sorted_Z members in
  let sub_uf := fold_left (fun u mid => fst (find u mid)) member_list uf_new in
  fold_left (strict_step norms) (pairs_from member_list) sub_uf.

Definition sub_groups (norms : dict Z string) (members : list Z)
  : dict Z (list Z) :=
  snd (groups (sub_cluster norms members)).

Definition is_oversized (g : Z * list Z) : bool :=
  Nat.ltb MAX_GROUP_SIZE (List.length (snd g)).

(** [for k in range(1, len(ml)): uf2.union(ml[0], ml[k])]. *)
Definition star (uf : UnionFind) (ml : list Z) : UnionFind :=
  match ml with
  | [] => uf
  | h :: tl => fold_left (fun u x => union u h x) tl uf
  end.

Definition rebuild (norms : dict Z string)
    (raw_groups oversized : dict Z (list Z)) : UnionFind :=
  let uf2 :=
    fold_left
      (fun u g => if dmem oversized (fst g) then u
                  else star u (sorted_Z (snd g)))
      raw_groups uf_new in
  fold_left
    (fun u g => fold_left (strict_step norms)
                          (pairs_from (sorted_Z (snd g))) u)
    oversized uf2.

(** The whole of step 6b; in the rebuild the source fills a second
    [sub_uf] that it never reads, which is left out. *)
Definition split_oversized (norms : dict Z string) (uf : UnionFind)
  : UnionFind :=
  let '(uf, raw_groups) := groups uf in
  let oversized := filter is_oversized raw_groups in
  if is_empty oversized then uf
  else
    let split_count :=
      List.length
        (filter (fun g => Nat.ltb 1 (List.length (sub_groups norms (snd g))))
                oversized) in
    if Nat.ltb 0 split_count then rebuild norms raw_groups oversized
    else uf.

(** Step 7: scoring the members of a group. *)
Definition scored (cleaned types : dict Z string) (mid : Z) : Z * Q :=
  (mid, primary_score (dget_or cleaned mid "") (dget_or types mid "Company")).

(** [sort(key=score, reverse=True)]: stable, highest score first. *)
Fixpoint insert_scored (x : Z * Q) (l : list (Z * Q)) : list (Z * Q) :=
  match l with
  | [] => [x]
  | y :: l' =>
      if Qltb (snd x) (snd y) then y :: insert_scored x l' else x :: l
  end.

Definition sort_scored (l : list (Z * Q)) : list (Z * Q) :=
  fold_right insert_scored [] l.

Definition scored_members (cleaned types : dict Z string) (members : list Z)
  : list (Z * Q) :=
  sort_scored (map (scored cleaned types) (order members)).

(** [scored_members[0][0]]; a group is never empty. *)
Definition best_id (sm : list (Z * Q)) : Z :=
  match sm with
  | x :: _ => fst x
  | [] => 0
  end.

(** The two result dictionaries [id_to_group] and [id_is_primary]. *)
Record assignment : Type := {
  to_group : dict Z Z;
  to_primary : dict Z Z
}.

Definition assign_member (best : Z) (a : assignment) (m : Z * Q)
  : assignment :=
  {| to_group := dset (to_group a) (fst m) best;
     to_primary := dset (to_primary a) (fst m)
                        (if fst m =? best then 1 else 0) |}.

Definition assign_group (cleaned types : dict Z string) (a : assignment)
    (g : Z * list Z) : assignment :=
  let sm := scored_members cleaned types (snd g) in
  fold_left (assign_member (best_id sm)) sm a.

Definition assign_singleton (a : assignment) (rid : Z) : assignment :=
  if dmem (to_group a) rid then a
  else {| to_group := dset (to_group a) rid rid;
          to_primary := dset (to_primary a) rid 1 |}.

Definition select_primaries (cleaned types : dict Z string)
    (grps : dict Z (list Z)) : assignment :=
  let a := fold_left (assign_group cleaned types) grps
                     {| to_group := []; to_primary := [] |} in
  fold_left assign_singleton (dkeys cleaned) a.

(** Step 8: the inserted row of a record. *)
Definition emit (a : assignment) (r : record) : output_row :=
  let valid := negb (rec_valid r =? 0) in
  {| company_name := rec_cleaned r;
     original_name := rec_original r;
     master_id := rec_id r;
     source_type := rec_type r;
     group_id := if valid then dget_or (to_group a) (rec_id r) (rec_id r)
                 else rec_id r;
     is_primary := if valid then dget_or (to_primary a) (rec_id r) 1 else 0;
     is_valid := rec_valid r;
     filter_reason := rec_reason r |}.

(** The clusters after steps 5, 6 and 6b. *)
Definition raw_clusters (recs : list record) : UnionFind :=
  let norms := id_to_norm recs in
  cluster norms (candidate_pairs (build_blocks norms)).

Definition final_clusters (recs : list record) : UnionFind :=
  split_oversized (id_to_norm recs) (raw_clusters recs).

Definition final_assignment (recs : list record) : assignment :=
  select_primaries (id_to_cleaned recs) (id_to_type recs)
                   (snd (groups (final_clusters recs))).

(** [main], from the rows read from [masters] to the rows inserted. *)
Definition main (rows : list input_row) : list output_row :=
  let recs := all_records rows in
  map (emit (final_assignment recs)) recs.
End Job.

(** ** A reference environment

    The scorers of [rapidfuzz.fuzz] as the library defines them (normalised
    Indel similarity, on a scale of 100), and the hash order that yields the
    members of a set in the order of the list that represents it.  The
    general results below hold for every environment; this one serves to
    run the job on concrete inputs. *)

Module Rapidfuzz.

(** One row of the longest-common-subsequence table. *)
Fixpoint lcs_row (a : ascii) (s2 : text) (prev : list nat) (diag left : nat)
  : list nat :=
  match s2, prev with
  | b :: s2', up :: prev' =>
      let v := if Ascii.eqb a b then S diag else Nat.max up left in
      v :: lcs_row a s2' prev' up v
  | _, _ => []
  end.

Definition lcs (s1 s2 : text) : nat :=
  last (fold_left (fun row a => O :: lcs_row a s2 (tl row) O O) s1
                  (repeat O (S (List.length s2)))) O.

Definition indel_distance (s1 s2 : text) : nat :=
  (List.length s1 + List.length s2 - 2 * lcs s1 s2)%nat.

Definition qnat (n : nat) : Q := inject_Z (Z.of_nat n).

(** [100 - 100 * dist / lensum], and 100 when [lensum] is 0. *)
Definition norm_distance (dist lensum : nat) : Q :=
  match lensum with
  | O => 100%Q
  | S _ => Qred (100 - 100 * qnat dist / qnat lensum)%Q
  end.

Definition ratio_t (s1 s2 : text) : Q :=
  norm_distance (indel_distance s1 s2) (List.length s1 + List.length s2).

Definition ratio (s1 s2 : string) : Q := ratio_t (chars s1) (chars s2).

Definition token_sort_ratio (s1 s2 : string) : Q :=
  ratio (join " " (sorted_str (split s1))) (join " " (sorted_str (split s2))).

Definition q_max (x y : Q) : Q := if Qle_bool x y then y else x.

Definition token_set_ratio (s1 s2 : string) : Q :=
  let tokens_a := set_of (split s1) in
  let tokens_b := set_of (split s2) in
  if (is_empty tokens_a || is_empty tokens_b)%bool then 0%Q else
  let intersect := set_inter tokens_a tokens_b in
  let diff_ab := set_diff tokens_a tokens_b in
  let diff_ba := set_diff tokens_b tokens_a in
  if (negb (is_empty intersect)
      && (is_empty diff_ab || is_empty diff_ba))%bool then 100%Q else
  let diff_ab_joined := join " " (sorted_str diff_ab) in
  let diff_ba_joined := join " " (sorted_str diff_ba) in
  let ab_len := len diff_ab_joined in
  let ba_len := len diff_ba_joined in
  let sect_len := len (join " " intersect) in
  let sep := match sect_len with O => O | S _ => 1%nat end in
  let sect_ab_len := (sect_len + sep + ab_len)%nat in
  let sect_ba_len := (sect_len + sep + ba_len)%nat in
  let dist := indel_distance (chars diff_ab_joined) (chars diff_ba_joined) in
  let result := norm_distance dist (sect_ab_len + sect_ba_len) in
  match sect_len with
  | O => result
  | S _ =>
      let sect_ab_ratio :=
        norm_distance (sep + ab_len) (sect_len + sect_ab_len) in
      let sect_ba_ratio :=
        norm_distance (sep + ba_len) (sect_len + sect_ba_len) in
      q_max result (q_max sect_ab_ratio sect_ba_ratio)
  end.

Definition has_char (c : option ascii) (s : text) : bool :=
  match c with
  | Some c => existsb (Ascii.eqb c) s
  | None => false
  end.

Definition window (i j : nat) (s : text) : text := firstn (j - i) (skipn i s).

(** The windows of the longer text that [partial_ratio] compares with
    the shorter one: proper prefixes, full-length windows, and suffixes. *)
Definition windows (s1 s2 : text) : list text :=
  let len1 := List.length s1 in
  let len2 := List.length s2 in
  (filter (fun w => has_char (hd_error (rev w)) s1)
     (map (fun i => window 0 i s2) (seq 1 (len1 - 1)))
   ++ filter (fun w => has_char (hd_error (rev w)) s1)
     (map (fun i => window i (i + len1) s2) (seq 0 (len2 - len1)))
   ++ filter (fun w => has_char (hd_error w) s1)
     (map (fun i => skipn i s2) (seq (len2 - len1) len1)))%list.

Definition partial_impl (s1 s2 : text) : Q :=
  fold_left (fun best w => q_max best (ratio_t s1 w)) (windows s1 s2) 0%Q.

Definition partial_ratio (s1 s2 : string) : Q :=
  let t1 := chars s1 in
  let t2 := chars s2 in
  match t1, t2 with
  | [], [] => 100%Q
  | _, _ =>
      if Nat.ltb (List.length t1) (List.length t2) then partial_impl t1 t2
      else if Nat.ltb (List.length t2) (List.length t1) then partial_impl t2 t1
      else q_max (partial_impl t1 t2) (partial_impl t2 t1)
  end.

Definition fuzz : Fuzz :=
  {| fuzz_ratio := ratio;
     fuzz_token_sort_ratio := token_sort_ratio;
     fuzz_token_set_ratio := token_set_ratio;
     fuzz_partial_ratio := partial_ratio |}.

End Rapidfuzz.

(** The hash order that follows the representing list. *)
Definition list_order : HashOrder :=
  {| order := fun _ l => l; order_perm := fun _ l => Permutation_refl l |}.

(** * Vocabulary of the statements *)

(** ** Merge policy *)

(** The short-name guard of [should_merge] rejects. *)
Definition short_name_guard (a b : string) (s : Q) : bool :=
  (Nat.leb (Nat.min (List.length (significant_tokens a))
                    (List.length (significant_tokens b))) 1
   && Qltb s 0.95)%bool.

(** One of the three conflict checks of [should_merge] rejects. *)
Definition conflict_fired {fz : Fuzz} {ho : HashOrder} (a b : string) (s : Q)
  : bool :=
  (short_name_guard a b s
   || generic_protection (significant_tokens a) (significant_tokens b) s
   || has_business_conflict a b s)%bool.

(** The premise of the business-differentiator rule as the specification
    words it: after typo-folding the unique tokens, one name is a subset of
    the other and the extra tokens include a strong differentiator. *)
Definition subset_with_strong_extra {fz : Fuzz} {ho : HashOrder}
    (a b : string) : bool :=
  let '(ra, rb) := conflict_real_only (set_of (significant_tokens a))
                                      (set_of (significant_tokens b)) in
  ((is_empty ra || is_empty rb)
   && negb (is_empty (set_inter (set_union ra rb) STRONG_DIFFERENTIATORS)))%bool.

(** The medium-confidence rule as the specification words it: equal token
    sets, or at least 65% of the members of the smaller set have a close
    counterpart in the other set. *)
Definition smaller_set_overlap {fz : Fuzz} {ho : HashOrder} (a b : string)
  : bool :=
  let set_a := set_of (significant_tokens a) in
  let set_b := set_of (significant_tokens b) in
  let '(small, other) :=
    if Nat.leb (List.length set_a) (List.length set_b)
    then (set_a, set_b) else (set_b, set_a) in
  (set_eqb set_a set_b
   || (negb (is_empty small)
       && Qgeb (inject_Z (Z.of_nat (fuzzy_matches small other))
                / inject_Z (Z.of_nat (List.length small)))%Q 0.65))%bool.

(** ** Union-Find *)

(** [Rep uf x r]: following parents from [x] ends at the root [r]. *)
Inductive Rep (uf : UnionFind) : Z -> Z -> Prop :=
| Rep_root x : dget (parent uf) x = Some x -> Rep uf x x
| Rep_step x p r :
    dget (parent uf) x = Some p -> p <> x -> Rep uf p r -> Rep uf x r.

(** The invariant of the structure: parents are elements, ranks grow
    strictly towards the root, and unknown elements have no rank. *)
Record uf_inv (uf : UnionFind) : Prop := {
  inv_closed : forall x p, dget (parent uf) x = Some p ->
                           dmem (parent uf) p = true;
  inv_rank : forall x p, dget (parent uf) x = Some p -> p <> x ->
                         (rank_of uf x < rank_of uf p)%nat;
  inv_fresh : forall x, dmem (parent uf) x = false -> dget (rank uf) x = None
}.

(** Two elements of one class. *)
Definition same (uf : UnionFind) (a b : Z) : Prop :=
  exists r, Rep uf a r /\ Rep uf b r.

Definition conn (uf : UnionFind) (a b : Z) : Prop := a = b \/ same uf a b.

(** What a call of [find] on [x] guarantees, from the state [uf0] in which
    [x] is known. *)
Definition find_post (uf0 : UnionFind) (x : Z) (res : UnionFind * Z) : Prop :=
  uf_inv (fst res)
  /\ dkeys (parent (fst res)) = dkeys (parent uf0)
  /\ rank (fst res) = rank uf0
  /\ Rep uf0 x (snd res)
  /\ (forall y ry, Rep uf0 y ry <-> Rep (fst res) y ry).

(** The end of [union]: [parent[b] = a], then the rank of [a] grows when
    both ranks agree. *)
Definition link_roots (uf : UnionFind) (a b : Z) : UnionFind :=
  let uf := set_parent uf b a in
  if Nat.eqb (rank_of uf a) (rank_of uf b)
  then {| parent := parent uf;
          rank := dset (rank uf) a (rank_of uf a + 1)%nat |}
  else uf.

(** The state after the two [find]s of [union]. *)
Definition found (uf : UnionFind) (x y : Z) : UnionFind :=
  fst (find (fst (find uf x)) y).

(** The root of each element after [union], from its root before. *)
Definition merged (uf : UnionFind) (x y : Z) (r : Z) : Z :=
  let uf2 := found uf x y in
  let rx := snd (find uf x) in
  let ry := snd (find (fst (find uf x)) y) in
  if rx =? ry then r
  else if Nat.ltb (rank_of uf2 rx) (rank_of uf2 ry)
       then (if r =? rx then ry else r)
       else (if r =? ry then rx else r).

(** What the loop of [groups] guarantees after the elements [l]. *)
Definition group_post (uf : UnionFind) (l : list Z) (g : dict Z (list Z))
    (res : UnionFind * dict Z (list Z)) : Prop :=
  uf_inv (fst res)
  /\ dkeys (parent (fst res)) = dkeys (parent uf)
  /\ (forall y ry, Rep uf y ry <-> Rep (fst res) y ry)
  /\ (forall r a, In a (dget_or (snd res) r []) <->
                  In a (dget_or g r []) \/ (In a l /\ Rep uf a r))
  /\ (forall r, dmem (snd res) r = true <->
                dmem g r = true \/ exists a, In a l /\ Rep uf a r)
  /\ (NoDup (dkeys g) -> NoDup (dkeys (snd res)))
  /\ ((forall r, NoDup (dget_or g r [])) ->
      forall r, NoDup (dget_or (snd res) r [])).

(** A union-find whose elements satisfy [P] and whose classes lie inside
    the relation [E]. *)
Definition uf_ok (P : Z -> Prop) (E : Z -> Z -> Prop) (uf : UnionFind) : Prop :=
  uf_inv uf
  /\ (forall z, dmem (parent uf) z = true -> P z)
  /\ (forall a b, same uf a b -> E a b).

(** The unions performed by [star]. *)
Definition star_edges (ml : list Z) : list (Z * Z) :=
  match ml with
  | [] => []
  | h :: tl => map (pair h) tl
  end.

(** ** The batch job *)

(** A record with a non-empty normalised name. *)
Definition named (norms : dict Z string) (z : Z) : Prop :=
  norm_of norms z <> "".

Definition link_pair {fz : Fuzz} {ho : HashOrder} (norms : dict Z string)
    (p : Z * Z) : bool :=
  link (norm_of norms (fst p)) (norm_of norms (snd p)).

Definition strict_pair {fz : Fuzz} {ho : HashOrder} (norms : dict Z string)
    (p : Z * Z) : bool :=
  strict_link (norm_of norms (fst p)) (norm_of norms (snd p)).

(** The condition under which the splitter unites two records: equal
    normalised names, or a score at the strict threshold that also passes
    the merge policy. *)
Definition meets_strict_policy {fz : Fuzz} {ho : HashOrder}
    (norms : dict Z string) (a b : Z) : Prop :=
  let na := norm_of norms a in
  let nb := norm_of norms b in
  na = nb
  \/ ((TIGHT_THRESHOLD <= composite_score na nb)%Q
      /\ should_merge na nb (composite_score na nb) = true).

(** Linked by a chain of such pairs. *)
Definition strict_chain {fz : Fuzz} {ho : HashOrder} (norms : dict Z string)
  : Z -> Z -> Prop :=
  clos_refl_sym_trans Z (meets_strict_policy norms).

Definition raw_groups_of (uf : UnionFind) : dict Z (list Z) := snd (groups uf).

Definition oversized_of (uf : UnionFind) : dict Z (list Z) :=
  filter is_oversized (raw_groups_of uf).

(** The unions performed by [rebuild], in order. *)
Definition rebuild_edges {fz : Fuzz} {ho : HashOrder} (norms : dict Z string)
    (raw ov : dict Z (list Z)) : list (Z * Z) :=
  (flat_map (fun g => if dmem ov (fst g) then []
                      else star_edges (sorted_Z (snd g))) raw
   ++ flat_map (fun g => filter (strict_pair norms)
                                (pairs_from (sorted_Z (snd g)))) ov)%list.

(** A member of a raw group of at most [MAX_GROUP_SIZE] members. *)
Definition small (uf : UnionFind) (a : Z) : Prop :=
  exists r ms, In (r, ms) (raw_groups_of uf) /\ In a ms
               /\ is_oversized (r, ms) = false.

(** What the rebuilt union-find may join: members of one raw group, which
    is small or else links them by a strict chain. *)
Definition split_rel {fz : Fuzz} {ho : HashOrder} (norms : dict Z string)
    (uf : UnionFind) (a b : Z) : Prop :=
  a = b \/ (same uf a b /\ (small uf a \/ strict_chain norms a b)).

(** The group and the primary flag that [emit] reads for a valid record. *)
Definition group_of (a : assignment) (x : Z) : Z := dget_or (to_group a) x x.
Definition primary_of (a : assignment) (x : Z) : Z := dget_or (to_primary a) x 1.

Definition flag (b x : Z) : Z := if x =? b then 1 else 0.

(** The primary elected for the members [ms]. *)
Definition best {ho : HashOrder} (cleaned types : dict Z string) (ms : list Z)
  : Z :=
  best_id (scored_members cleaned types ms).

Definition disjoint_groups (grps : list (Z * list Z)) : Prop :=
  forall g1 g2 x, In g1 grps -> In g2 grps ->
                  In x (snd g1) -> In x (snd g2) -> g1 = g2.

Definition keys_agree (a : assignment) : Prop :=
  forall x, dmem (to_group a) x = dmem (to_primary a) x.

Definition empty_assignment : assignment := {| to_group := []; to_primary := [] |}.

(** The number of rows of a group that are flagged primary. *)
Definition primaries_of_group (out : list output_row) (g : Z) : nat :=
  List.length
    (filter (fun o => ((group_id o =? g) && (is_primary o =? 1))%bool) out).

Definition is_primary_of {fz : Fuzz} {ho : HashOrder} (rows : list input_row)
    (g : Z) (rec : record) : bool :=
  ((group_id (emit (final_assignment (all_records rows)) rec) =? g)
   && (is_primary (emit (final_assignment (all_records rows)) rec) =? 1))%bool.


(** ** Example inputs *)

Definition company_row (rid : Z) (label : string) : input_row :=
  {| in_id := rid; in_label := Some label; in_type := Some "Company" |}.

(** Two spellings of one company, one placeholder and one empty label. *)
Definition sample_rows : list input_row :=
  [company_row 1 "Tata Motors Ltd"; company_row 2 "TATA MOTORS";
   company_row 3 "test";
   {| in_id := 4; in_label := None; in_type := None |}].

(** Two valid records whose normalised names are both [ab]. *)
Definition short_name_rows : list input_row :=
  [company_row 5 "AB Ltd"; company_row 6 "AB Inc"].


(** The rows that [main] writes for records 1 and 3 of [sample_rows]. *)
Definition sample_primary_row : output_row :=
  {| company_name := "Tata Motors Ltd"; original_name := "Tata Motors Ltd";
     master_id := 1; source_type := "Company"; group_id := 1;
     is_primary := 1; is_valid := 1; filter_reason := None |}.

Definition sample_placeholder_row : output_row :=
  {| company_name := "test"; original_name := "test";
     master_id := 3; source_type := "Company"; group_id := 3;
     is_primary := 0; is_valid := 0; filter_reason := Some placeholder |}.


(** ** Vocabulary of the further properties *)

(** Text of 7-bit characters only, on which the classes of this embedding
    are the classes of the source. *)
Definition seven_bit (s : string) : bool :=
  forallb (fun c => Nat.ltb (code c) 128) (chars s).

(** The continuation of a pattern that ends in [$]. *)
Definition eol_rest (rest : text) : option text :=
  if at_eol rest then Some rest else None.

(** The 7-bit characters in the class of [_SPECIAL_ONLY_RE]: neither a
    letter nor a digit. *)
Definition is_special (c : ascii) : bool := negb (is_alpha c || is_digit c).

Definition newline : ascii := "010"%char.

(** A candidate pair that step 6 unites. *)
Definition accepted_pair {fz : Fuzz} {ho : HashOrder} (norms : dict Z string)
    (a b : Z) : Prop :=
  In (a, b) (candidate_pairs (build_blocks norms))
  /\ link (norm_of norms a) (norm_of norms b) = true.

(** United in one direction or the other. *)
Definition accepted_link {fz : Fuzz} {ho : HashOrder} (norms : dict Z string)
    (a b : Z) : Prop :=
  accepted_pair norms a b \/ accepted_pair norms b a.

(** Every block of a dictionary holds distinct ids, all of which satisfy
    [P]. *)
Definition dict_ok (P : Z -> Prop) (d : dict string (list Z)) : Prop :=
  forall k ms, In (k, ms) d -> NoDup ms /\ forall x, In x ms -> P x.

Definition blocks_ok (P : Z -> Prop) (b : blocks) : Prop :=
  forall d, In d (block_dicts b) -> dict_ok P d.

(** ** The summary of step 9

    The counts that [main] reads back from [balanced_result] and from
    [masters] once the rows are inserted, and the deduplication rate it
    prints. *)

Definition count_rows (p : output_row -> bool) (table : list output_row)
  : nat :=
  List.length (filter p table).

Definition row_is_valid (o : output_row) : bool := is_valid o =? 1.
Definition row_is_garbage (o : output_row) : bool := is_valid o =? 0.
Definition row_is_valid_primary (o : output_row) : bool :=
  ((is_primary o =? 1) && (is_valid o =? 1))%bool.

Record summary : Type := {
  master_total : nat;
  total : nat;
  valid : nat;
  invalid : nat;
  primaries : nat;
  unique_groups : nat
}.

Definition summarize (rows : list input_row) (table : list output_row)
  : summary :=
  {| master_total := List.length rows;
     total := List.length table;
     valid := count_rows row_is_valid table;
     invalid := count_rows row_is_garbage table;
     primaries := count_rows row_is_valid_primary table;
     unique_groups :=
       List.length (nodup Z.eq_dec (map group_id (filter row_is_valid table))) |}.

(** [(valid - primaries) / valid * 100 if valid else 0]. *)
Definition dedup_pct (s : summary) : Q :=
  if Nat.eqb (valid s) 0 then 0%Q
  else (inject_Z (Z.of_nat (valid s) - Z.of_nat (primaries s))
        / inject_Z (Z.of_nat (valid s)) * 100)%Q.

(** The line [Row match: YES]. *)
Definition row_match (s : summary) : bool := Nat.eqb (total s) (master_total s).

(** ** Shape of normalised text *)

(** [s'] is what is left of [s] after some prefix. *)
Definition suffix_of (s' s : text) : Prop := exists pre, s = (pre ++ s')%list.

(** Every white-space character is a blank that is not followed by another
    white-space character. *)
Fixpoint loose (t : text) : bool :=
  match t with
  | [] => true
  | c :: t' =>
      ((if is_space c
        then Ascii.eqb c " "
             && match t' with d :: _ => negb (is_space d) | [] => true end
        else true)
       && loose t')%bool
  end.

(** The characters [normalize] can leave: word characters other than
    capital letters, and blanks. *)
Definition is_norm_char (c : ascii) : bool :=
  (negb (is_upper c) && (is_word c || Ascii.eqb c " "))%bool.

(** ** Further example values *)

(** The row that [main] writes for record 2 of [sample_rows]. *)
Definition sample_duplicate_row : output_row :=
  {| company_name := "TATA MOTORS"; original_name := "TATA MOTORS";
     master_id := 2; source_type := "Company"; group_id := 1;
     is_primary := 0; is_valid := 1; filter_reason := None |}.

(** The row that [main] writes for record 5 of [short_name_rows]. *)
Definition short_name_row : output_row :=
  {| company_name := "AB Ltd"; original_name := "AB Ltd";
     master_id := 5; source_type := "Company"; group_id := 5;
     is_primary := 1; is_valid := 1; filter_reason := None |}.

(** A union-find with the class of 1 and 2 and the class of 3. *)
Definition small_forest : UnionFind := fst (find (union uf_new 1 2) 3).

(** ** Vocabulary of the blocking properties *)

(** What the blocking loop does to [block_prefix3] for one entry. *)
Definition add_prefix3 (d : dict string (list Z)) (entry : Z * string)
  : dict string (list Z) :=
  add_when (Nat.leb 3 (len (snd entry))) d (prefix_n 3 (snd entry))
           (fst entry).

(** A valid row whose normalised name starts with the three characters
    [key]. *)
Definition shares_prefix3 (key : string) (o : output_row) : bool :=
  ((is_valid o =? 1)
   && String.eqb (prefix_n 3 (normalize (company_name o))) key)%bool.

(** The members of a block are the ids of the entries seen so far that
    carry its key, and every such entry of three characters or more is a
    member. *)
Definition prefix3_inv (seen : list (Z * string)) (d : dict string (list Z))
  : Prop :=
  (forall k ms, dget d k = Some ms ->
     NoDup ms /\ forall x, In x ms ->
                 exists v, In (x, v) seen /\ prefix_n 3 v = k)
  /\ (forall x v, In (x, v) seen -> (3 <= len v)%nat ->
        exists ms, dget d (prefix_n 3 v) = Some ms /\ In x ms).

(** ** Vocabulary of the rank bound *)

(** The root that [find] returns for [x]. *)
Definition root_of (uf : UnionFind) (x : Z) : Z := snd (find uf x).

(** The number of elements whose root is [r]. *)
Definition class_size (uf : UnionFind) (r : Z) : nat :=
  List.length (filter (fun z => root_of uf z =? r) (dkeys (parent uf))).

(** The states of a [UnionFind] object: the empty one of [__init__] and
    what calls of [find], [union] and [groups] make of it. *)
Inductive built : UnionFind -> Prop :=
| built_new : built uf_new
| built_find uf x : built uf -> built (fst (find uf x))
| built_union uf x y : built uf -> built (union uf x y)
| built_groups uf : built uf -> built (fst (groups uf)).

(** Union by rank: a root of rank [k] has at least [2 ^ k] elements below
    it, and no key of [rank] is repeated. *)
Definition size_inv (uf : UnionFind) : Prop :=
  uf_inv uf
  /\ NoDup (dkeys (rank uf))
  /\ forall r, dget (parent uf) r = Some r ->
               (2 ^ rank_of uf r <= class_size uf r)%nat.

(** * Facts about the text functions *)

Lemma star_loop_all {A} (p : ascii -> bool) (k : option ascii -> text -> option A) (x : A) :
  (forall prev, k prev [] = Some x) ->
  forall t n prev, forallb p t = true -> (List.length t <= n)%nat ->
  star_loop (rx (Chr p)) k n prev t = Some x.
Proof.
  intros Hk t. induction t as [|c t IH]; intros n prev Hall Hn.
  - destruct n; simpl; auto.
  - simpl in Hall. apply andb_true_iff in Hall as [Hc Hall].
    destruct n as [|n]; [simpl in Hn; lia|].
    cbn [star_loop rx]. rewrite Hc.
    replace (List.length t <? List.length (c :: t))%nat with true
      by (symmetry; apply Nat.ltb_lt; simpl; lia).
    assert (IH' := IH n (Some c) Hall ltac:(simpl in Hn; lia)).
    cbn [rx] in IH'. rewrite IH'. reflexivity.
Qed.

Lemma chars_str t : chars (str t) = t.
Proof. apply list_ascii_of_string_of_list_ascii. Qed.
Lemma str_chars s : str (chars s) = s.
Proof. apply string_of_list_ascii_of_string. Qed.
Lemma len_chars s : len s = List.length (chars s).
Proof. unfold len, chars. induction s; simpl; auto. Qed.

Lemma numeric_only_match s :
  forallb is_digit (chars s) = true -> s <> "" ->
  re_match NUMERIC_ONLY_RE s = true.
Proof.
  intros Hd Hne. unfold re_match, match_here.
  destruct (chars s) as [|c t] eqn:E.
  - exfalso. apply Hne. rewrite <- (str_chars s), E. reflexivity.
  - simpl in Hd. apply andb_true_iff in Hd as [Hc Ht].
    cbn. rewrite Hc.
    pose proof (star_loop_all is_digit
                  (fun _ s' => if at_eol s' then Some s' else None) []
                  (fun _ => eq_refl) t (List.length t) (Some c) Ht (le_n _)) as H.
    cbn [rx] in H. rewrite H. reflexivity.
Qed.

Lemma special_only_no_match s c t :
  chars s = c :: t -> (is_alpha c || is_digit c)%bool = true ->
  re_match SPECIAL_ONLY_RE s = false.
Proof.
  intros E Hc. unfold re_match, match_here. rewrite E. cbn. rewrite Hc. reflexivity.
Qed.

Lemma len_le_2_eqb (s : string) : (3 <= len s)%nat -> String.eqb s "" = false /\ Nat.leb (len s) 2 = false.
Proof.
  intros H. split.
  - destruct s; simpl in *; [lia|reflexivity].
  - apply Nat.leb_gt. lia.
Qed.


(** * Facts about the merge policy *)

Lemma Qltb_false x y : Qltb x y = false <-> (y <= x)%Q.
Proof.
  unfold Qltb. rewrite negb_false_iff. apply Qle_bool_iff.
Qed.

Lemma Qltb_true x y : Qltb x y = true <-> (x < y)%Q.
Proof.
  unfold Qltb. rewrite negb_true_iff. split; intros H.
  - apply Qnot_le_lt. intros Hle. apply Qle_bool_iff in Hle. congruence.
  - destruct (Qle_bool y x) eqn:E; auto. apply Qle_bool_iff in E.
    exfalso. eapply Qlt_not_le; eauto.
Qed.

Lemma Qgeb_true x y : Qgeb x y = true <-> (y <= x)%Q.
Proof. unfold Qgeb. apply Qle_bool_iff. Qed.

Lemma mem_str_In x l : mem_str x l = true <-> In x l.
Proof.
  unfold mem_str. rewrite existsb_exists. split.
  - intros [y [Hy E]]. apply String.eqb_eq in E. subst. auto.
  - intros H. exists x. split; auto. apply String.eqb_refl.
Qed.

Lemma set_of_In x l : In x (set_of l) <-> In x l.
Proof.
  induction l as [|y l IH]; simpl; [tauto|].
  destruct (mem_str y (set_of l)) eqn:E.
  - apply mem_str_In in E. rewrite IH. split; [auto|].
    intros [<-|H]; auto. apply IH. exact E.
  - simpl. rewrite IH. tauto.
Qed.

Lemma set_inter_In x a b : In x (set_inter a b) <-> In x a /\ In x b.
Proof. unfold set_inter. rewrite filter_In, mem_str_In. tauto. Qed.

Lemma set_diff_In x a b : In x (set_diff a b) <-> In x a /\ ~ In x b.
Proof.
  unfold set_diff. rewrite filter_In, negb_true_iff.
  rewrite <- (mem_str_In x b). destruct (mem_str x b); intuition congruence.
Qed.

Lemma is_empty_false {A} (l : list A) : is_empty l = false <-> l <> [].
Proof. destruct l; simpl; split; congruence. Qed.

Lemma is_empty_true {A} (l : list A) : is_empty l = true <-> l = [].
Proof. destruct l; simpl; split; congruence. Qed.

Lemma nonempty_In {A} (l : list A) x : In x l -> l <> [].
Proof. destruct l; simpl; [tauto|congruence]. Qed.

Lemma In_nil_eq {A} (l : list A) : (forall x, ~ In x l) -> l = [].
Proof. destruct l; auto. intros H. exfalso. apply (H a). left. auto. Qed.

Lemma set_diff_self a : set_diff a a = [].
Proof. apply In_nil_eq. intros x H. apply set_diff_In in H. tauto. Qed.

Section PolicyFacts.
Context {fz : Fuzz} {ho : HashOrder}.

Lemma order_nil {A} : order (@nil A) = [].
Proof. apply Permutation_nil. symmetry. apply order_perm. Qed.

Lemma generic_real_only_self l : generic_real_only l l = ([], []).
Proof.
  unfold generic_real_only. rewrite set_diff_self, order_nil. reflexivity.
Qed.

Lemma conflict_real_only_self l : conflict_real_only l l = ([], []).
Proof.
  unfold conflict_real_only. rewrite set_diff_self, order_nil. reflexivity.
Qed.

(** C6, short-name bridge prevention: when the two names differ and the
    one with fewer significant tokens has at most one, [should_merge]
    accepts only at a score of at least 0.95. *)
Theorem short_name_bridge_prevention (a b : string) (s : Q) :
  a <> b ->
  (Nat.min (List.length (significant_tokens a))
           (List.length (significant_tokens b)) <= 1)%nat ->
  should_merge a b s = true -> (0.95 <= s)%Q.
Proof.
  intros Hab Hmin Hm. unfold should_merge in Hm.
  destruct (Qltb s MERGE_THRESHOLD); [discriminate|].
  destruct (String.eqb a b) eqn:E; [apply String.eqb_eq in E; contradiction|].
  apply Nat.leb_le in Hmin. rewrite Hmin in Hm. simpl in Hm.
  destruct (Qltb s 0.95) eqn:E95; [discriminate|].
  apply Qltb_false in E95. exact E95.
Qed.

(** C8, generic-industry-term protection: when the names share a
    significant token, every shared token is a generic industry term, and
    after typo-folding each side keeps a token the other lacks,
    [should_merge] refuses at every score. *)
Theorem generic_terms_refused (a b : string) (ra rb : list string) (s : Q) :
  (exists t, In t (significant_tokens a) /\ In t (significant_tokens b)) ->
  (forall t, In t (significant_tokens a) -> In t (significant_tokens b) ->
             In t GENERIC_INDUSTRY_TERMS) ->
  generic_real_only (set_of (significant_tokens a))
                    (set_of (significant_tokens b)) = (ra, rb) ->
  ra <> [] -> rb <> [] ->
  should_merge a b s = false.
Proof.
  intros [t [Ha Hb]] Hgen Hro Hra Hrb. unfold should_merge.
  destruct (Qltb s MERGE_THRESHOLD); [reflexivity|].
  destruct (String.eqb a b) eqn:E.
  { apply String.eqb_eq in E. subst b.
    rewrite generic_real_only_self in Hro. congruence. }
  match goal with |- (if ?c then _ else _) = _ => destruct c end;
    [reflexivity|].
  assert (Hg : generic_protection (significant_tokens a)
                 (significant_tokens b) s = true).
  { unfold generic_protection.
    assert (Hsh : is_empty (set_inter (set_of (significant_tokens a))
                              (set_of (significant_tokens b))) = false).
    { apply is_empty_false. apply (nonempty_In _ t).
      apply set_inter_In. rewrite !set_of_In. auto. }
    rewrite Hsh.
    assert (Hds : set_diff (set_inter (set_of (significant_tokens a))
                              (set_of (significant_tokens b)))
                    GENERIC_INDUSTRY_TERMS = []).
    { apply In_nil_eq. intros x Hx. apply set_diff_In in Hx as [Hx Hn].
      apply set_inter_In in Hx. rewrite !set_of_In in Hx.
      apply Hn. apply Hgen; tauto. }
    rewrite Hds. simpl. rewrite Hro.
    apply is_empty_false in Hra, Hrb. rewrite Hra, Hrb. reflexivity. }
  rewrite Hg. reflexivity.
Qed.

(** C7, business-differentiator conflict in the subset case: when the
    names share a significant token letter for letter, one side has no
    token left after typo-folding the unshared ones, and a token left on
    the other side is a strong differentiator, [should_merge] refuses at
    every score below 0.93. *)
Theorem strong_differentiator_blocks (a b : string) (ra rb : list string)
    (s : Q) :
  (exists t, In t (significant_tokens a) /\ In t (significant_tokens b)) ->
  conflict_real_only (set_of (significant_tokens a))
                     (set_of (significant_tokens b)) = (ra, rb) ->
  ra = [] \/ rb = [] ->
  (exists t, In t (set_union ra rb) /\ In t STRONG_DIFFERENTIATORS) ->
  (s < 0.93)%Q ->
  should_merge a b s = false.
Proof.
  intros [t [Ha Hb]] Hro Hsub [d [Hd Hstrong]] Hs.
  assert (Hne : a <> b).
  { intros ->. rewrite conflict_real_only_self in Hro.
    injection Hro as <- <-. destruct Hd. }
  assert (Hc : has_business_conflict a b s = true).
  { unfold has_business_conflict.
    assert (Hsh : is_empty (set_inter (set_of (significant_tokens a))
                              (set_of (significant_tokens b))) = false).
    { apply is_empty_false. apply (nonempty_In _ t).
      apply set_inter_In. rewrite !set_of_In. auto. }
    rewrite Hsh.
    assert (Hex : is_empty (set_inter (set_union ra rb)
                              STRONG_DIFFERENTIATORS) = false).
    { apply is_empty_false. apply (nonempty_In _ d).
      apply set_inter_In. auto. }
    assert (Hnn : (is_empty ra && is_empty rb)%bool = false).
    { destruct ra, rb; simpl in *; try reflexivity; contradiction. }
    assert (Hor : (is_empty ra || is_empty rb)%bool = true).
    { destruct Hsub as [-> | ->]; simpl; auto. apply orb_true_r. }
    destruct (is_empty (set_diff (set_of (significant_tokens a))
                                 (set_of (significant_tokens b)))
              && is_empty (set_diff (set_of (significant_tokens b))
                                    (set_of (significant_tokens a))))%bool
      eqn:Eonly.
    { exfalso. apply andb_true_iff in Eonly as [E1 E2].
      apply is_empty_true in E1, E2.
      unfold conflict_real_only in Hro. rewrite E1, E2, order_nil in Hro.
      simpl in Hro. injection Hro as <- <-. destruct Hd. }
    rewrite Hro, Hnn, Hor, Hex. simpl. apply Qltb_true. exact Hs. }
  unfold should_merge.
  destruct (Qltb s MERGE_THRESHOLD); [reflexivity|].
  destruct (String.eqb a b) eqn:E; [apply String.eqb_eq in E; contradiction|].
  rewrite Hc.
  repeat match goal with
         | |- (if ?c then false else _) = false => destruct c; [reflexivity|]
         end.
  reflexivity.
Qed.

Lemma ratio_ge_iff (m n : nat) :
  (0 < n)%nat ->
  Qgeb (inject_Z (Z.of_nat m) / inject_Z (Z.of_nat n)) 0.65 = true
  <-> (65 * n <= 100 * m)%nat.
Proof.
  intros Hn. rewrite Qgeb_true.
  destruct n as [|n]; [lia|].
  unfold Qle, Qdiv, Qmult, Qinv, inject_Z.
  cbn [Qnum Qden]. 
  rewrite Nat2Z.inj_succ. unfold Z.succ.
  replace (Z.of_nat n + 1)%Z with (Z.pos (Pos.of_succ_nat n)) by lia.
  cbn [Qnum Qden Z.mul].
  rewrite Pos2Z.inj_mul, Pos.mul_1_l, Zpos_P_of_succ_nat. lia.
Qed.

(** C9, medium-confidence token overlap: for two different names, at a
    score from the base threshold up to the auto-merge threshold and with
    no conflict check firing, [should_merge] accepts exactly when the
    significant-token sets are equal or the tokens of the first name with
    a close counterpart in the second number at least 65% of the larger
    of the two sets. *)
Theorem medium_band_overlap (a b : string) (s : Q) :
  a <> b ->
  (MERGE_THRESHOLD <= s)%Q -> (s < AUTO_MERGE_THRESHOLD)%Q ->
  conflict_fired a b s = false ->
  let set_a := set_of (significant_tokens a) in
  let set_b := set_of (significant_tokens b) in
  should_merge a b s = true <->
  (set_eqb set_a set_b = true
   \/ (65 * Nat.max (List.length set_a) (List.length set_b)
       <= 100 * fuzzy_matches set_a set_b)%nat).
Proof.
  intros Hab Hlo Hhi Hcf set_a set_b.
  unfold conflict_fired in Hcf.
  apply orb_false_iff in Hcf as [Hcf Hbc].
  apply orb_false_iff in Hcf as [Hsn Hgp].
  unfold short_name_guard in Hsn.
  unfold should_merge.
  apply Qltb_false in Hlo. rewrite Hlo.
  destruct (String.eqb a b) eqn:E; [apply String.eqb_eq in E; contradiction|].
  rewrite Hsn, Hgp, Hbc.
  assert (Hau : Qgeb s AUTO_MERGE_THRESHOLD = false).
  { destruct (Qgeb s AUTO_MERGE_THRESHOLD) eqn:Eq; auto.
    apply Qgeb_true in Eq. exfalso. eapply Qlt_not_le; eauto. }
  rewrite Hau. unfold token_overlap. fold set_a set_b.
  destruct (set_eqb set_a set_b) eqn:Eeq; [tauto|].
  destruct (Nat.eqb _ 0) eqn:E0.
  { apply Nat.eqb_eq in E0.
    assert (set_a = [] /\ set_b = []) as [Ea Eb].
    { destruct set_a, set_b; simpl in E0; try lia; auto. }
    rewrite Ea, Eb in Eeq. discriminate. }
  apply Nat.eqb_neq in E0.
  rewrite ratio_ge_iff by lia.
  split; [auto|]. intros [H|H]; [discriminate|exact H].
Qed.
End PolicyFacts.

(** * Facts about dictionaries and the union-find *)

Section DictFacts.
Context {K V : Type} {ek : EqKey K}.
Implicit Types (d : dict K V) (k : K) (v : V).

Lemma keqb_refl k : keqb k k = true.
Proof. apply keqb_eq. reflexivity. Qed.

Lemma keqb_neq k k' : k <> k' -> keqb k k' = false.
Proof.
  intros H. destruct (keqb k k') eqn:E; auto. apply keqb_eq in E. contradiction.
Qed.

Lemma keqb_dec k k' : {k = k'} + {k <> k'}.
Proof.
  destruct (keqb k k') eqn:E.
  - left. apply keqb_eq. exact E.
  - right. intros ->. rewrite keqb_refl in E. discriminate.
Qed.

Lemma dget_dset_same d k v : dget (dset d k v) k = Some v.
Proof.
  induction d as [|[k' v'] d IH]; simpl.
  - rewrite keqb_refl. reflexivity.
  - destruct (keqb k' k) eqn:E; simpl.
    + rewrite keqb_refl. reflexivity.
    + rewrite E. exact IH.
Qed.

Lemma dget_dset_other d k v k' : k' <> k -> dget (dset d k v) k' = dget d k'.
Proof.
  intros Hne. induction d as [|[k0 v0] d IH]; simpl.
  - rewrite keqb_neq; auto.
  - destruct (keqb k0 k) eqn:E; simpl.
    + apply keqb_eq in E. subst k0. rewrite !(keqb_neq k k'); auto.
    + destruct (keqb k0 k'); auto.
Qed.

Lemma dmem_In d k : dmem d k = true <-> In k (dkeys d).
Proof.
  unfold dmem, dkeys. induction d as [|[k0 v0] d IH]; simpl.
  - split; [discriminate|tauto].
  - destruct (keqb k0 k) eqn:E.
    + apply keqb_eq in E. subst. simpl. tauto.
    + rewrite IH. split; auto. intros [H|H]; auto.
      subst. rewrite keqb_refl in E. discriminate.
Qed.

Lemma dget_Some_In d k v : dget d k = Some v -> In (k, v) d.
Proof.
  induction d as [|[k0 v0] d IH]; simpl; [discriminate|].
  destruct (keqb k0 k) eqn:E.
  - apply keqb_eq in E. intros [= ->]. subst. auto.
  - auto.
Qed.

Lemma dget_Some_mem d k v : dget d k = Some v -> dmem d k = true.
Proof. unfold dmem. intros ->. reflexivity. Qed.

Lemma dmem_false_None d k : dmem d k = false <-> dget d k = None.
Proof. unfold dmem, is_some, is_none. destruct (dget d k); simpl; split; congruence. Qed.

Lemma dmem_true_Some d k : dmem d k = true -> exists v, dget d k = Some v.
Proof. unfold dmem. destruct (dget d k); simpl; eauto; discriminate. Qed.

Lemma dkeys_dset_mem d k v : dmem d k = true -> dkeys (dset d k v) = dkeys d.
Proof.
  unfold dmem, dkeys. induction d as [|[k0 v0] d IH]; simpl; [discriminate|].
  destruct (keqb k0 k) eqn:E; simpl.
  - apply keqb_eq in E. subst. reflexivity.
  - intros H. rewrite IH; auto.
Qed.

Lemma dset_new d k v : dget d k = None -> dset d k v = (d ++ [(k, v)])%list.
Proof.
  induction d as [|[k0 v0] d IH]; simpl; auto.
  destruct (keqb k0 k); [discriminate|]. intros H. rewrite IH; auto.
Qed.

Lemma dmem_dset d k v k' : dmem (dset d k v) k' = (keqb k k' || dmem d k')%bool.
Proof.
  unfold dmem. destruct (keqb_dec k' k) as [->|Hne].
  - rewrite dget_dset_same, keqb_refl. reflexivity.
  - rewrite dget_dset_other by auto. rewrite keqb_neq by auto. reflexivity.
Qed.

Lemma dkeys_dset_NoDup d k v : NoDup (dkeys d) -> NoDup (dkeys (dset d k v)).
Proof.
  intros H. destruct (dmem d k) eqn:E.
  - rewrite dkeys_dset_mem; auto.
  - apply dmem_false_None in E. rewrite dset_new by auto.
    unfold dkeys. rewrite map_app. simpl.
    apply NoDup_app. repeat split; auto.
    + constructor; [simpl; tauto|constructor].
    + intros x Hx [<-|[]].
      apply dmem_In in Hx. apply dmem_false_None in E. congruence.
Qed.

Lemma NoDup_keys_In_dget d k v : NoDup (dkeys d) -> In (k, v) d -> dget d k = Some v.
Proof.
  unfold dkeys. induction d as [|[k0 v0] d IH]; simpl; [tauto|].
  intros Hnd [H|H].
  - injection H as -> ->. rewrite keqb_refl. reflexivity.
  - inversion Hnd; subst. destruct (keqb k0 k) eqn:E.
    + apply keqb_eq in E. subst. exfalso. apply H2.
      change k with (fst (k, v)). apply in_map. exact H.
    + auto.
Qed.
End DictFacts.

Section UFFacts.
Implicit Types (uf : UnionFind) (x y z r p : Z).

Lemma Rep_det uf x r1 r2 : Rep uf x r1 -> Rep uf x r2 -> r1 = r2.
Proof.
  intros H1. revert r2. induction H1 as [x Hx|x p r Hx Hp H1 IH]; intros r2 H2.
  - inversion H2; subst; congruence.
  - inversion H2; subst; try congruence.
    apply IH. congruence.
Qed.

Lemma Rep_dom uf x r : Rep uf x r -> dmem (parent uf) x = true.
Proof. intros H; inversion H; subst; eapply dget_Some_mem; eauto. Qed.

Lemma Rep_is_root uf x r : Rep uf x r -> dget (parent uf) r = Some r.
Proof. induction 1; auto. Qed.

Lemma Rep_root_self uf x r : Rep uf x r -> Rep uf r r.
Proof. intros H. apply Rep_root. eapply Rep_is_root; eauto. Qed.

Lemma rank_le_max uf x : (rank_of uf x <= max_rank uf)%nat.
Proof.
  unfold rank_of, dget_or, max_rank.
  destruct (dget (rank uf) x) as [v|] eqn:E; [|lia].
  apply dget_Some_In in E.
  assert (H : Forall (fun k => (k <= list_max (map snd (rank uf)))%nat)
                     (map snd (rank uf))).
  { apply list_max_le. lia. }
  rewrite Forall_forall in H. apply H.
  change v with (snd (x, v)). apply in_map. exact E.
Qed.

Lemma Rep_rank uf x r :
  uf_inv uf -> Rep uf x r -> x = r \/ (rank_of uf x < rank_of uf r)%nat.
Proof.
  intros Hinv. induction 1 as [x Hx|x p r Hx Hp H1 IH]; auto.
  right. pose proof (inv_rank uf Hinv x p Hx Hp). destruct IH; subst; lia.
Qed.

Lemma Rep_total uf :
  uf_inv uf ->
  forall n x, dmem (parent uf) x = true ->
              (max_rank uf - rank_of uf x <= n)%nat ->
              exists r, Rep uf x r.
Proof.
  intros Hinv. induction n as [|n IH]; intros x Hx Hn;
    destruct (dmem_true_Some _ _ Hx) as [p Hp];
    destruct (Z.eq_dec p x) as [->|Hne];
    try (exists x; apply Rep_root; assumption).
  - pose proof (inv_rank uf Hinv x p Hp Hne).
    pose proof (rank_le_max uf p). lia.
  - destruct (IH p) as [r Hr].
    + eapply inv_closed; eauto.
    + pose proof (inv_rank uf Hinv x p Hp Hne). lia.
    + exists r. eapply Rep_step; eauto.
Qed.

Lemma Rep_exists uf x :
  uf_inv uf -> dmem (parent uf) x = true -> exists r, Rep uf x r.
Proof. intros Hinv Hx. eapply (Rep_total uf Hinv (max_rank uf)); auto. lia. Qed.

(** Path compression *)

Lemma rank_of_set_parent uf x p z : rank_of (set_parent uf x p) z = rank_of uf z.
Proof. reflexivity. Qed.

Lemma compress_fwd uf x r :
  Rep uf x r -> forall y ry, Rep uf y ry -> Rep (set_parent uf x r) y ry.
Proof.
  intros Hx y ry Hy. induction Hy as [y Hy|y p ry Hy Hp H1 IH].
  - destruct (Z.eq_dec y x) as [->|Hne].
    + assert (r = x)
        by (apply (Rep_det uf x r x Hx); apply Rep_root; exact Hy).
      subst.
      apply Rep_root. simpl. apply dget_dset_same.
    + apply Rep_root. simpl. rewrite dget_dset_other; auto.
  - destruct (Z.eq_dec y x) as [->|Hne].
    + assert (ry = r)
        by (apply (Rep_det uf x ry r); [eapply Rep_step; eauto|exact Hx]).
      subst.
      assert (r <> x).
      { intros ->. apply Rep_is_root in Hx. congruence. }
      eapply Rep_step; [simpl; apply dget_dset_same|auto|].
      apply Rep_root. simpl. rewrite dget_dset_other; auto.
      eapply Rep_is_root; eauto.
    + eapply Rep_step; eauto. simpl. rewrite dget_dset_other; auto.
Qed.

Lemma set_parent_inv uf x r :
  uf_inv uf -> Rep uf x r -> uf_inv (set_parent uf x r).
Proof.
  intros Hinv Hx. constructor.
  - intros z q. simpl. rewrite dmem_dset.
    destruct (Z.eq_dec z x) as [->|Hne].
    + rewrite dget_dset_same. intros [= <-].
      apply orb_true_iff. right. eapply dget_Some_mem, Rep_is_root; eauto.
    + rewrite dget_dset_other by auto. intros Hq.
      apply orb_true_iff. right. eapply inv_closed; eauto.
  - intros z q. simpl. rewrite !rank_of_set_parent.
    destruct (Z.eq_dec z x) as [->|Hne].
    + rewrite dget_dset_same. intros [= <-] Hq.
      destruct (Rep_rank uf x r Hinv Hx); auto. congruence.
    + rewrite dget_dset_other by auto. apply inv_rank; auto.
  - intros z. simpl. rewrite dmem_dset. intros H.
    apply orb_false_iff in H as [_ H]. apply inv_fresh; auto.
Qed.

Lemma set_parent_keys uf x r :
  dmem (parent uf) x = true ->
  dkeys (parent (set_parent uf x r)) = dkeys (parent uf).
Proof. intros H. simpl. apply dkeys_dset_mem; auto. Qed.

Lemma dmem_keys_eq {V} (d d' : dict Z V) z :
  dkeys d' = dkeys d -> dmem d' z = dmem d z.
Proof.
  intros E. destruct (dmem d z) eqn:H.
  - apply dmem_In. rewrite E. apply dmem_In. exact H.
  - destruct (dmem d' z) eqn:H'; auto.
    apply dmem_In in H'. rewrite E in H'. apply dmem_In in H'. congruence.
Qed.

Lemma compress_iff uf x r :
  uf_inv uf -> Rep uf x r ->
  forall y ry, Rep uf y ry <-> Rep (set_parent uf x r) y ry.
Proof.
  intros Hinv Hx y ry. split; [apply compress_fwd; auto|].
  intros H'. pose proof (Rep_dom _ _ _ H') as Hd.
  rewrite (dmem_keys_eq (parent uf)) in Hd
    by (apply set_parent_keys; eapply Rep_dom; eauto).
  destruct (Rep_exists uf y Hinv Hd) as [r0 Hr0].
  pose proof (compress_fwd uf x r Hx y r0 Hr0) as H0.
  rewrite (Rep_det _ _ _ _ H' H0). exact Hr0.
Qed.

(** [touch] *)

Lemma touch_mem uf x : dmem (parent uf) x = true -> touch uf x = uf.
Proof. unfold touch. intros ->. reflexivity. Qed.

Lemma touch_dmem uf x z :
  dmem (parent (touch uf x)) z = ((x =? z) || dmem (parent uf) z)%bool.
Proof.
  unfold touch. destruct (dmem (parent uf) x) eqn:E; simpl.
  - destruct (Z.eqb_spec x z); subst; simpl; auto.
  - exact (dmem_dset _ _ _ _).
Qed.

Lemma touch_idem uf x : touch (touch uf x) x = touch uf x.
Proof. apply touch_mem. rewrite touch_dmem, Z.eqb_refl. reflexivity. Qed.

Lemma rank_of_touch uf x z :
  uf_inv uf -> rank_of (touch uf x) z = rank_of uf z.
Proof.
  intros Hinv. unfold touch. destruct (dmem (parent uf) x) eqn:E; auto.
  unfold rank_of, dget_or. simpl.
  destruct (Z.eq_dec z x) as [->|Hne].
  - rewrite dget_dset_same, (inv_fresh uf Hinv x E). reflexivity.
  - rewrite dget_dset_other by auto. reflexivity.
Qed.

Lemma list_max_snoc l n : list_max (l ++ [n]) = Nat.max (list_max l) n.
Proof. rewrite list_max_app. simpl. lia. Qed.

Lemma max_rank_touch uf x : uf_inv uf -> max_rank (touch uf x) = max_rank uf.
Proof.
  intros Hinv. unfold touch. destruct (dmem (parent uf) x) eqn:E; auto.
  unfold max_rank. simpl. rewrite dset_new by (apply inv_fresh; auto).
  rewrite map_app, list_max_app. simpl. lia.
Qed.

Lemma touch_inv uf x : uf_inv uf -> uf_inv (touch uf x).
Proof.
  intros Hinv. destruct (dmem (parent uf) x) eqn:E.
  { rewrite touch_mem; auto. }
  assert (Hcl : forall z q, dget (parent uf) z = Some q -> q <> x /\ z <> x).
  { intros z q Hq. split; intros ->.
    - apply (inv_closed uf Hinv) in Hq. congruence.
    - apply dget_Some_mem in Hq. congruence. }
  constructor.
  - intros z q Hq. rewrite touch_dmem. unfold touch in Hq. rewrite E in Hq.
    simpl in Hq. destruct (Z.eq_dec z x) as [->|Hne].
    + rewrite dget_dset_same in Hq. injection Hq as <-.
      rewrite Z.eqb_refl. reflexivity.
    + rewrite dget_dset_other in Hq by auto.
      apply orb_true_iff. right. eapply inv_closed; eauto.
  - intros z q Hq Hne. rewrite !rank_of_touch by auto.
    unfold touch in Hq. rewrite E in Hq. simpl in Hq.
    destruct (Z.eq_dec z x) as [->|Hzx].
    + rewrite dget_dset_same in Hq. congruence.
    + rewrite dget_dset_other in Hq by auto. apply inv_rank; auto.
  - intros z Hz. rewrite touch_dmem in Hz.
    apply orb_false_iff in Hz as [Hzx Hz]. apply Z.eqb_neq in Hzx.
    unfold touch. rewrite E. simpl. rewrite dget_dset_other by auto.
    apply inv_fresh; auto.
Qed.

Lemma Rep_touch uf x y r :
  uf_inv uf ->
  Rep (touch uf x) y r <->
  Rep uf y r \/ (dmem (parent uf) x = false /\ y = x /\ r = x).
Proof.
  intros Hinv. destruct (dmem (parent uf) x) eqn:E.
  { rewrite touch_mem by auto. intuition congruence. }
  assert (Hg : forall z, z <> x ->
                 dget (parent (touch uf x)) z = dget (parent uf) z).
  { intros z Hz. unfold touch. rewrite E. simpl.
    apply dget_dset_other; auto. }
  assert (Hx : dget (parent (touch uf x)) x = Some x).
  { unfold touch. rewrite E. simpl. apply dget_dset_same. }
  split.
  - induction 1 as [y Hy|y p r Hy Hp H1 IH].
    + destruct (Z.eq_dec y x) as [->|Hne]; auto.
      left. apply Rep_root. rewrite <- Hg; auto.
    + destruct (Z.eq_dec y x) as [->|Hne]; [congruence|].
      rewrite Hg in Hy by auto.
      destruct IH as [IH|[_ [-> _]]].
      * left. eapply Rep_step; eauto.
      * apply (inv_closed uf Hinv) in Hy. congruence.
  - intros [H|[_ [-> ->]]]; [|apply Rep_root; auto].
    induction H as [y Hy|y p r Hy Hp H1 IH].
    + apply Rep_root. rewrite Hg; auto.
      intros ->. apply dget_Some_mem in Hy. congruence.
    + eapply Rep_step; eauto. rewrite Hg; auto.
      intros ->. apply dget_Some_mem in Hy. congruence.
Qed.
End UFFacts.

Section FindFacts.
Implicit Types (uf : UnionFind) (x y z r p : Z).

Lemma find_rec_unfold n uf x :
  find_rec n uf x =
  let uf1 := touch uf x in
  let p := parent_of uf1 x in
  if p =? x then (uf1, p)
  else match n with
       | O => (uf1, p)
       | S n' => let '(uf', r) := find_rec n' uf1 p in (set_parent uf' x r, r)
       end.
Proof. destruct n; reflexivity. Qed.

Lemma rank_of_ext uf uf' z : rank uf' = rank uf -> rank_of uf' z = rank_of uf z.
Proof. unfold rank_of. intros ->. reflexivity. Qed.

Lemma max_rank_ext uf uf' : rank uf' = rank uf -> max_rank uf' = max_rank uf.
Proof. unfold max_rank. intros ->. reflexivity. Qed.

Lemma find_post_refl uf x r : uf_inv uf -> Rep uf x r -> find_post uf x (uf, r).
Proof. intros. unfold find_post. simpl. intuition. Qed.

Lemma find_rec_spec n :
  forall uf x, uf_inv uf -> dmem (parent uf) x = true ->
               (max_rank uf - rank_of uf x <= n)%nat ->
               find_post uf x (find_rec n uf x).
Proof.
  induction n as [|n IH]; intros uf x Hinv Hx Hn;
    rewrite find_rec_unfold, (touch_mem uf x Hx); cbv zeta;
    destruct (dmem_true_Some _ _ Hx) as [p Hp];
    unfold parent_of, dget_or; rewrite Hp;
    destruct (Z.eqb_spec p x) as [->|Hne];
    try (apply find_post_refl; auto using Rep_root; fail).
  - pose proof (inv_rank uf Hinv x p Hp Hne).
    pose proof (rank_le_max uf p). lia.
  - assert (Hpd : dmem (parent uf) p = true) by (eapply inv_closed; eauto).
    assert (Hpn : (max_rank uf - rank_of uf p <= n)%nat).
    { pose proof (inv_rank uf Hinv x p Hp Hne). lia. }
    specialize (IH uf p Hinv Hpd Hpn).
    destruct (find_rec n uf p) as [uf' r].
    destruct IH as (Hinv' & Hk & Hr & Hrep & Heq). simpl in *.
    assert (Hxr : Rep uf x r) by (eapply Rep_step; eauto).
    assert (Hxr' : Rep uf' x r) by (apply Heq; auto).
    unfold find_post. simpl. split; [|split; [|split; [|split; [|split]]]].
    + apply set_parent_inv; auto.
    + rewrite <- Hk. apply dkeys_dset_mem. eapply Rep_dom; eauto.
    + exact Hr.
    + exact Hxr.
    + intros H. apply (compress_iff uf' x r Hinv' Hxr'). apply Heq. exact H.
    + intros H. apply Heq. apply (compress_iff uf' x r Hinv' Hxr'). exact H.
Qed.

Lemma find_rec_touch n uf x : find_rec n uf x = find_rec n (touch uf x) x.
Proof. rewrite !find_rec_unfold, touch_idem. reflexivity. Qed.

Lemma find_spec uf x : uf_inv uf -> find_post (touch uf x) x (find uf x).
Proof.
  intros Hinv. unfold find. rewrite find_rec_touch.
  apply find_rec_spec.
  - apply touch_inv; auto.
  - rewrite touch_dmem, Z.eqb_refl. reflexivity.
  - rewrite max_rank_touch by auto. lia.
Qed.

Lemma find_inv uf x : uf_inv uf -> uf_inv (fst (find uf x)).
Proof. intros H. apply (find_spec uf x H). Qed.

Lemma find_dmem uf x z :
  uf_inv uf ->
  dmem (parent (fst (find uf x))) z = ((x =? z) || dmem (parent uf) z)%bool.
Proof.
  intros H. destruct (find_spec uf x H) as (_ & Hk & _).
  rewrite (dmem_keys_eq _ _ _ Hk). apply touch_dmem.
Qed.

Lemma find_root uf x :
  uf_inv uf -> Rep (fst (find uf x)) x (snd (find uf x)).
Proof.
  intros H. destruct (find_spec uf x H) as (_ & _ & _ & Hr & Heq).
  apply Heq. exact Hr.
Qed.

Lemma find_Rep uf x y ry :
  uf_inv uf ->
  Rep (fst (find uf x)) y ry <->
  Rep uf y ry \/ (dmem (parent uf) x = false /\ y = x /\ ry = x).
Proof.
  intros H. destruct (find_spec uf x H) as (_ & _ & _ & _ & Heq).
  rewrite <- Heq. apply Rep_touch. exact H.
Qed.

(** Linking two distinct roots *)

Lemma link_parent uf a b : parent (link_roots uf a b) = dset (parent uf) b a.
Proof. unfold link_roots. destruct (Nat.eqb _ _); reflexivity. Qed.

Lemma link_rank_other uf a b z :
  z <> a -> rank_of (link_roots uf a b) z = rank_of uf z.
Proof.
  intros Hne. unfold link_roots. destruct (Nat.eqb _ _); auto.
  unfold rank_of, dget_or. simpl. rewrite dget_dset_other; auto.
Qed.

Lemma link_rank_self uf a b :
  rank_of (link_roots uf a b) a =
  if Nat.eqb (rank_of uf a) (rank_of uf b) then (rank_of uf a + 1)%nat
  else rank_of uf a.
Proof.
  unfold link_roots. rewrite !rank_of_set_parent.
  destruct (Nat.eqb (rank_of uf a) (rank_of uf b)); [|reflexivity].
  unfold rank_of, dget_or. simpl. rewrite dget_dset_same. reflexivity.
Qed.

Lemma link_rank_a uf a b :
  (rank_of uf b <= rank_of uf a)%nat ->
  (rank_of uf b < rank_of (link_roots uf a b) a)%nat /\
  (rank_of uf a <= rank_of (link_roots uf a b) a)%nat.
Proof.
  intros Hle. rewrite link_rank_self.
  destruct (Nat.eqb_spec (rank_of uf a) (rank_of uf b)); lia.
Qed.

Lemma link_inv uf a b :
  uf_inv uf -> dget (parent uf) a = Some a -> dget (parent uf) b = Some b ->
  a <> b -> (rank_of uf b <= rank_of uf a)%nat ->
  uf_inv (link_roots uf a b).
Proof.
  intros Hinv Ha Hb Hab Hle.
  destruct (link_rank_a uf a b Hle) as [Hlt Hge].
  constructor.
  - intros z q. rewrite link_parent, dmem_dset.
    destruct (Z.eq_dec z b) as [->|Hne].
    + rewrite dget_dset_same. intros [= <-].
      apply orb_true_iff. right. eapply dget_Some_mem; eauto.
    + rewrite dget_dset_other by auto. intros Hq.
      apply orb_true_iff. right. eapply inv_closed; eauto.
  - intros z q. rewrite link_parent.
    destruct (Z.eq_dec z b) as [->|Hne].
    + rewrite dget_dset_same. intros [= <-] _.
      rewrite (link_rank_other uf a b b) by auto. exact Hlt.
    + rewrite dget_dset_other by auto. intros Hq Hqz.
      assert (z <> a) by (intros ->; congruence).
      rewrite (link_rank_other uf a b z) by auto.
      pose proof (inv_rank uf Hinv z q Hq Hqz).
      destruct (Z.eq_dec q a) as [->|Hqa]; [lia|].
      rewrite (link_rank_other uf a b q) by auto. lia.
  - intros z. rewrite link_parent, dmem_dset. intros H.
    apply orb_false_iff in H as [_ H].
    assert (z <> a).
    { intros ->. apply dget_Some_mem in Ha. congruence. }
    pose proof (inv_fresh uf Hinv z H) as Hf.
    unfold link_roots. destruct (Nat.eqb _ _); simpl; auto.
    rewrite dget_dset_other; auto.
Qed.

Lemma link_Rep uf a b :
  dget (parent uf) a = Some a -> dget (parent uf) b = Some b -> a <> b ->
  forall z rz, Rep uf z rz -> Rep (link_roots uf a b) z (if rz =? b then a else rz).
Proof.
  intros Ha Hb Hab z rz H.
  assert (Ha' : Rep (link_roots uf a b) a a).
  { apply Rep_root. rewrite link_parent, dget_dset_other; auto. }
  induction H as [z Hz|z p rz Hz Hp H1 IH].
  - destruct (Z.eqb_spec z b) as [->|Hne].
    + eapply Rep_step; eauto. rewrite link_parent. apply dget_dset_same.
    + apply Rep_root. rewrite link_parent, dget_dset_other; auto.
  - eapply Rep_step; eauto. rewrite link_parent, dget_dset_other; auto.
    intros ->. congruence.
Qed.

Lemma link_dmem uf a b z :
  dmem (parent uf) b = true ->
  dmem (parent (link_roots uf a b)) z = dmem (parent uf) z.
Proof.
  intros Hb. rewrite link_parent. apply dmem_keys_eq.
  apply dkeys_dset_mem. exact Hb.
Qed.

Lemma union_unfold uf x y :
  union uf x y =
  let uf1 := fst (find uf x) in
  let rx := snd (find uf x) in
  let uf2 := fst (find uf1 y) in
  let ry := snd (find uf1 y) in
  if rx =? ry then uf2
  else if Nat.ltb (rank_of uf2 rx) (rank_of uf2 ry) then link_roots uf2 ry rx
       else link_roots uf2 rx ry.
Proof.
  unfold union. destruct (find uf x) as [uf1 rx]. simpl.
  destruct (find uf1 y) as [uf2 ry]. simpl.
  destruct (rx =? ry); auto.
  destruct (Nat.ltb _ _); reflexivity.
Qed.
End FindFacts.

Section UnionFacts.
Implicit Types (uf : UnionFind) (x y z r p : Z).

Lemma same_sym uf a b : same uf a b -> same uf b a.
Proof. intros [r [H1 H2]]. exists r. auto. Qed.

Lemma same_trans uf a b c : same uf a b -> same uf b c -> same uf a c.
Proof.
  intros [r [H1 H2]] [r' [H3 H4]].
  rewrite (Rep_det _ _ _ _ H3 H2) in H4. exists r. auto.
Qed.

Lemma same_refl uf a : uf_inv uf -> dmem (parent uf) a = true -> same uf a a.
Proof. intros Hinv Ha. destruct (Rep_exists uf a Hinv Ha) as [r Hr]. exists r; auto. Qed.

Lemma same_dom uf a b : same uf a b -> dmem (parent uf) a = true /\ dmem (parent uf) b = true.
Proof. intros [r [H1 H2]]. split; eapply Rep_dom; eauto. Qed.

Lemma found_inv uf x y : uf_inv uf -> uf_inv (found uf x y).
Proof. intros H. unfold found. apply find_inv, find_inv, H. Qed.

Lemma found_dmem uf x y z :
  uf_inv uf ->
  dmem (parent (found uf x y)) z
  = ((x =? z) || (y =? z) || dmem (parent uf) z)%bool.
Proof.
  intros H. unfold found. rewrite find_dmem by (apply find_inv; auto).
  rewrite find_dmem by auto.
  destruct (x =? z), (y =? z); reflexivity.
Qed.

Lemma found_Rep uf x y z r :
  uf_inv uf ->
  Rep (found uf x y) z r <->
  Rep uf z r \/ (dmem (parent uf) z = false /\ z = r /\ (z = x \/ z = y)).
Proof.
  intros H. unfold found. rewrite find_Rep by (apply find_inv; auto).
  rewrite find_Rep by auto. rewrite find_dmem by auto.
  split.
  - intros [[Hr|(Hx & -> & ->)]|(Hy & -> & ->)]; auto.
    apply orb_false_iff in Hy as [_ Hy]. auto.
  - intros [Hr|(Hz & <- & [->| ->])].
    + auto.
    + auto.
    + destruct (Z.eqb_spec x y) as [->|Hne]; auto.
Qed.

Lemma found_conn uf x y u v r :
  uf_inv uf -> Rep (found uf x y) u r -> Rep (found uf x y) v r -> conn uf u v.
Proof.
  intros H Hu Hv. apply found_Rep in Hu, Hv; auto.
  destruct Hu as [Hu|(Hu & <- & _)], Hv as [Hv|(Hv & Hv' & _)].
  - right. exists r. auto.
  - subst. apply Rep_is_root, dget_Some_mem in Hu. congruence.
  - apply Rep_is_root, dget_Some_mem in Hv. congruence.
  - left. congruence.
Qed.

Lemma found_roots uf x y :
  uf_inv uf ->
  let rx := snd (find uf x) in
  let ry := snd (find (fst (find uf x)) y) in
  Rep (found uf x y) x rx /\ Rep (found uf x y) y ry.
Proof.
  intros H rx ry. split.
  - unfold found. apply find_Rep; [apply find_inv; auto|].
    left. apply find_root; auto.
  - apply find_root. apply find_inv; auto.
Qed.

Lemma union_facts uf x y :
  uf_inv uf ->
  uf_inv (union uf x y)
  /\ (forall z, dmem (parent (union uf x y)) z
                = dmem (parent (found uf x y)) z)
  /\ (forall z r, Rep (found uf x y) z r ->
                  Rep (union uf x y) z (merged uf x y r)).
Proof.
  intros H. pose proof (found_inv uf x y H) as H2.
  destruct (found_roots uf x y H) as [Hrx Hry].
  pose proof (Rep_is_root _ _ _ Hrx) as Hx.
  pose proof (Rep_is_root _ _ _ Hry) as Hy.
  rewrite union_unfold. unfold merged. fold (found uf x y). cbv zeta.
  set (rx := snd (find uf x)) in *.
  set (ry := snd (find (fst (find uf x)) y)) in *.
  destruct (Z.eqb_spec rx ry) as [E|E]; [auto|].
  destruct (Nat.ltb_spec (rank_of (found uf x y) rx) (rank_of (found uf x y) ry)).
  - split; [|split].
    + apply link_inv; auto. lia.
    + intros z. apply link_dmem. eapply dget_Some_mem; eauto.
    + intros z r. apply link_Rep; auto.
  - split; [|split].
    + apply link_inv; auto.
    + intros z. apply link_dmem. eapply dget_Some_mem; eauto.
    + intros z r. apply link_Rep; auto.
Qed.

Lemma union_inv uf x y : uf_inv uf -> uf_inv (union uf x y).
Proof. intros H. apply (union_facts uf x y H). Qed.

Lemma union_dmem uf x y z :
  uf_inv uf ->
  dmem (parent (union uf x y)) z
  = ((x =? z) || (y =? z) || dmem (parent uf) z)%bool.
Proof.
  intros H. destruct (union_facts uf x y H) as (_ & Hd & _).
  rewrite Hd. apply found_dmem; auto.
Qed.

Lemma merged_roots uf x y :
  merged uf x y (snd (find uf x))
  = merged uf x y (snd (find (fst (find uf x)) y)).
Proof.
  unfold merged.
  set (rx := snd (find uf x)). set (ry := snd (find (fst (find uf x)) y)).
  destruct (Z.eqb_spec rx ry) as [E|E]; auto.
  destruct (Nat.ltb _ _).
  - rewrite Z.eqb_refl. destruct (Z.eqb_spec ry rx); congruence.
  - rewrite Z.eqb_refl. destruct (Z.eqb_spec rx ry); congruence.
Qed.

Lemma merged_inj uf x y r1 r2 :
  merged uf x y r1 = merged uf x y r2 ->
  let rx := snd (find uf x) in
  let ry := snd (find (fst (find uf x)) y) in
  r1 = r2 \/ (r1 = rx /\ r2 = ry) \/ (r1 = ry /\ r2 = rx).
Proof.
  unfold merged.
  set (rx := snd (find uf x)). set (ry := snd (find (fst (find uf x)) y)).
  cbv zeta.
  destruct (Z.eqb_spec rx ry) as [E|E]; auto.
  destruct (Nat.ltb _ _);
    destruct (Z.eqb_spec r1 rx), (Z.eqb_spec r1 ry),
             (Z.eqb_spec r2 rx), (Z.eqb_spec r2 ry);
    subst; intros; subst; auto; try congruence; tauto.
Qed.

Theorem union_same_xy uf x y : uf_inv uf -> same (union uf x y) x y.
Proof.
  intros H. destruct (union_facts uf x y H) as (_ & _ & Hr).
  destruct (found_roots uf x y H) as [Hrx Hry].
  exists (merged uf x y (snd (find uf x))). split.
  - apply Hr. exact Hrx.
  - rewrite merged_roots. apply Hr. exact Hry.
Qed.

Theorem union_same_mono uf x y a b :
  uf_inv uf -> same uf a b -> same (union uf x y) a b.
Proof.
  intros H [r [Ha Hb]]. destruct (union_facts uf x y H) as (_ & _ & Hr).
  exists (merged uf x y r). split; apply Hr; apply found_Rep; auto.
Qed.

Theorem union_same_inv uf x y a b :
  uf_inv uf -> same (union uf x y) a b ->
  conn uf a b \/ (conn uf a x /\ conn uf y b) \/ (conn uf a y /\ conn uf x b).
Proof.
  intros H [r [Ha Hb]].
  destruct (union_facts uf x y H) as (Hinv' & Hd & Hr).
  pose proof (found_inv uf x y H) as H2.
  destruct (found_roots uf x y H) as [Hrx Hry].
  assert (Hda : dmem (parent (found uf x y)) a = true).
  { rewrite <- Hd. eapply Rep_dom; eauto. }
  assert (Hdb : dmem (parent (found uf x y)) b = true).
  { rewrite <- Hd. eapply Rep_dom; eauto. }
  destruct (Rep_exists _ a H2 Hda) as [ra Hra].
  destruct (Rep_exists _ b H2 Hdb) as [rb Hrb].
  pose proof (Rep_det _ _ _ _ Ha (Hr _ _ Hra)) as Ea.
  pose proof (Rep_det _ _ _ _ Hb (Hr _ _ Hrb)) as Eb.
  assert (Em : merged uf x y ra = merged uf x y rb) by congruence.
  apply merged_inj in Em. cbv zeta in Em.
  destruct Em as [E|[[E1 E2]|[E1 E2]]]; subst.
  - left. eapply found_conn; eauto.
  - right. left. split; eapply found_conn; eauto.
  - right. right. split; eapply found_conn; eauto.
Qed.
End UnionFacts.

Section UnionsFacts.
Implicit Types (uf : UnionFind) (x y z r p : Z).

Lemma uf_new_inv : uf_inv uf_new.
Proof. constructor; simpl; intros; try discriminate; auto. Qed.

Lemma same_uf_new a b : ~ same uf_new a b.
Proof. intros [r [H _]]. apply Rep_dom in H. discriminate. Qed.

Lemma unions_cons uf ab l :
  unions uf (ab :: l) = unions (union uf (fst ab) (snd ab)) l.
Proof. reflexivity. Qed.

Lemma unions_app uf l1 l2 : unions uf (l1 ++ l2) = unions (unions uf l1) l2.
Proof. unfold unions. apply fold_left_app. Qed.

Lemma fold_union_filter (c : Z * Z -> bool) l uf :
  fold_left (fun u ab => if c ab then union u (fst ab) (snd ab) else u) l uf
  = unions uf (filter c l).
Proof.
  revert uf. induction l as [|ab l IH]; intros uf; simpl; auto.
  destruct (c ab); simpl; rewrite IH; reflexivity.
Qed.

Lemma unions_inv l : forall uf, uf_inv uf -> uf_inv (unions uf l).
Proof.
  induction l as [|ab l IH]; intros uf H; simpl; auto.
  apply IH. apply union_inv. exact H.
Qed.

Lemma unions_dmem l : forall uf z,
  uf_inv uf ->
  dmem (parent (unions uf l)) z = true <->
  dmem (parent uf) z = true \/ exists ab, In ab l /\ (z = fst ab \/ z = snd ab).
Proof.
  induction l as [|ab l IH]; intros uf z H.
  - simpl. split; auto. intros [?|[? [[] _]]]; auto.
  - rewrite unions_cons, IH by (apply union_inv; auto).
    rewrite union_dmem by auto. rewrite !orb_true_iff, !Z.eqb_eq.
    split.
    + intros [[[<-|<-]|Hd]|[ab' [Hin Hz]]]; auto.
      * right. exists ab. simpl. auto.
      * right. exists ab. simpl. auto.
      * right. exists ab'. simpl. auto.
    + intros [Hd|[ab' [[<-|Hin] [->| ->]]]]; auto.
      * right. exists ab'. auto.
      * right. exists ab'. auto.
Qed.

Lemma unions_mono l : forall uf a b,
  uf_inv uf -> same uf a b -> same (unions uf l) a b.
Proof.
  induction l as [|ab l IH]; intros uf a b H Hs; simpl; auto.
  apply IH; [apply union_inv; auto|]. apply union_same_mono; auto.
Qed.

Lemma unions_edge l : forall uf a b,
  uf_inv uf -> In (a, b) l -> same (unions uf l) a b.
Proof.
  induction l as [|ab l IH]; intros uf a b H Hin; [destruct Hin|].
  destruct Hin as [->|Hin]; simpl.
  - apply unions_mono; [apply union_inv; auto|].
    apply union_same_xy; auto.
  - apply IH; auto. apply union_inv; auto.
Qed.

Variable E : Z -> Z -> Prop.
Hypothesis E_refl : forall a, E a a.
Hypothesis E_sym : forall a b, E a b -> E b a.
Hypothesis E_trans : forall a b c, E a b -> E b c -> E a c.

Lemma conn_E uf a b :
  (forall a b, same uf a b -> E a b) -> conn uf a b -> E a b.
Proof. intros H [->|Hs]; auto. Qed.

Lemma union_sound uf x y :
  uf_inv uf -> (forall a b, same uf a b -> E a b) -> E x y ->
  forall a b, same (union uf x y) a b -> E a b.
Proof.
  intros H Hs Hxy a b Hab.
  destruct (union_same_inv uf x y a b H Hab) as [Hc|[[H1 H2]|[H1 H2]]].
  - eapply conn_E; eauto.
  - apply (E_trans a x); [eapply conn_E; eauto|].
    apply (E_trans x y); auto. eapply conn_E; eauto.
  - apply (E_trans a y); [eapply conn_E; eauto|].
    apply (E_trans y x); auto. eapply conn_E; eauto.
Qed.

Lemma unions_sound l : forall uf,
  uf_inv uf -> (forall a b, same uf a b -> E a b) ->
  (forall ab, In ab l -> E (fst ab) (snd ab)) ->
  forall a b, same (unions uf l) a b -> E a b.
Proof.
  induction l as [|ab l IH]; intros uf H Hs Hl a b Hab; simpl in Hab; auto.
  apply (IH (union uf (fst ab) (snd ab))); auto.
  - apply union_inv; auto.
  - apply union_sound; auto. apply Hl. left. reflexivity.
  - intros ab' Hin. apply Hl. right. exact Hin.
Qed.
End UnionsFacts.

Section GroupsFacts.
Implicit Types (uf : UnionFind) (x y z r p : Z) (g : dict Z (list Z)).

Lemma kmem_In (x : Z) s : kmem x s = true <-> In x s.
Proof.
  unfold kmem. rewrite existsb_exists. split.
  - intros [y [Hy E]]. apply Z.eqb_eq in E. subst. auto.
  - intros H. exists x. split; auto. apply Z.eqb_refl.
Qed.

Lemma kadd_In (x a : Z) s : In a (kadd x s) <-> a = x \/ In a s.
Proof.
  unfold kadd. destruct (kmem x s) eqn:E.
  - apply kmem_In in E. split; auto. intros [->|H]; auto.
  - rewrite in_app_iff. simpl. intuition.
Qed.

Lemma kadd_NoDup (x : Z) s : NoDup s -> NoDup (kadd x s).
Proof.
  intros H. unfold kadd. destruct (kmem x s) eqn:E; auto.
  apply NoDup_app. repeat split; auto.
  - constructor; [simpl; tauto|constructor].
  - intros a Ha [<-|[]]. apply kmem_In in Ha. congruence.
Qed.

Lemma dget_or_dset {V} (d : dict Z V) k v k' dflt :
  dget_or (dset d k v) k' dflt = if k =? k' then v else dget_or d k' dflt.
Proof.
  unfold dget_or. destruct (Z.eqb_spec k k') as [->|Hne].
  - rewrite dget_dset_same. reflexivity.
  - rewrite dget_dset_other; auto.
Qed.

Lemma find_known uf x :
  uf_inv uf -> dmem (parent uf) x = true ->
  uf_inv (fst (find uf x))
  /\ dkeys (parent (fst (find uf x))) = dkeys (parent uf)
  /\ (forall y ry, Rep uf y ry <-> Rep (fst (find uf x)) y ry)
  /\ Rep uf x (snd (find uf x)).
Proof.
  intros H Hx. destruct (find_spec uf x H) as (Hi & Hk & _ & Hr & Heq).
  rewrite (touch_mem uf x Hx) in *. auto.
Qed.

Lemma groups_step_eq uf g x :
  groups_step (uf, g) x = (fst (find uf x), block_add g (snd (find uf x)) x).
Proof. unfold groups_step. destruct (find uf x). reflexivity. Qed.

Lemma groups_fold l : forall uf g,
  uf_inv uf -> (forall x, In x l -> dmem (parent uf) x = true) ->
  group_post uf l g (fold_left groups_step l (uf, g)).
Proof.
  induction l as [|x l IH]; intros uf g H Hl.
  - simpl. unfold group_post. simpl.
    split; [exact H|].
    repeat split; auto; try tauto; try (intros [?|[? [[] _]]]; auto).
  - cbn [fold_left]. rewrite groups_step_eq.
    destruct (find_known uf x H (Hl x (or_introl eq_refl)))
      as (Hi & Hk & Heq & Hr).
    set (uf1 := fst (find uf x)) in *. set (rx := snd (find uf x)) in *.
    assert (Hl1 : forall y, In y l -> dmem (parent uf1) y = true).
    { intros y Hy. rewrite (dmem_keys_eq _ _ _ Hk). apply Hl. right. auto. }
    specialize (IH uf1 (block_add g rx x) Hi Hl1).
    destruct (fold_left groups_step l (uf1, block_add g rx x)) as [uf' g'].
    unfold group_post in *. simpl in *.
    destruct IH as (Hi' & Hk' & Heq' & Hm & Hd & Hn & Hnm).
    split; [exact Hi'|]. split; [congruence|].
    split; [intros; rewrite Heq; apply Heq'|].
    split; [|split; [|split]].
    + intros r a. rewrite Hm. unfold block_add. rewrite dget_or_dset.
      destruct (Z.eqb_spec rx r) as [->|Hne].
      * rewrite kadd_In, <- Heq. intuition (subst; auto).
      * rewrite <- Heq. split; [intuition|].
        intros [?|[[->|?] ?]]; auto.
        exfalso. apply Hne. eapply Rep_det; eauto.
    + intros r. rewrite Hd. unfold block_add.
      change (dmem (dset g rx (kadd x (dget_or g rx []))) r)
        with (dmem (dset g rx (kadd x (dget_or g rx []))) r).
      rewrite dmem_dset. rewrite orb_true_iff.
      change (keqb rx r) with (rx =? r). rewrite Z.eqb_eq.
      split.
      * intros [[<-|?]|[a [Ha Hra]]]; auto.
        -- right. exists x. auto.
        -- right. exists a. rewrite Heq. auto.
      * intros [?|[a [[<-|Ha] Hra]]]; auto.
        -- left. left. eapply Rep_det; eauto.
        -- right. exists a. rewrite <- Heq. auto.
    + intros Hg. apply Hn. apply dkeys_dset_NoDup. exact Hg.
    + intros Hg. apply Hnm. intros r. unfold block_add. rewrite dget_or_dset.
      destruct (rx =? r); auto. apply kadd_NoDup. apply Hg.
Qed.

Theorem groups_spec uf :
  uf_inv uf ->
  let res := groups uf in
  uf_inv (fst res)
  /\ dkeys (parent (fst res)) = dkeys (parent uf)
  /\ (forall y ry, Rep uf y ry <-> Rep (fst res) y ry)
  /\ NoDup (dkeys (snd res))
  /\ (forall r ms, In (r, ms) (snd res) ->
        NoDup ms /\ ms <> [] /\ forall a, In a ms <-> Rep uf a r)
  /\ (forall a r, Rep uf a r -> exists ms, In (r, ms) (snd res)).
Proof.
  intros H res.
  assert (Hl : forall x, In x (dkeys (parent uf)) -> dmem (parent uf) x = true).
  { intros x. apply dmem_In. }
  assert (G : group_post uf (dkeys (parent uf)) [] res)
    by (apply groups_fold; auto).
  clearbody res. unfold group_post in G.
  destruct G as (Hi & Hk & Heq & Hm & Hd & Hn & Hnm).
  assert (Hnd : NoDup (dkeys (snd res))) by (apply Hn; constructor).
  repeat (split; [assumption|]). split.
  - intros r ms Hin.
    pose proof (NoDup_keys_In_dget _ _ _ Hnd Hin) as Hg.
    assert (Ems : dget_or (snd res) r [] = ms).
    { unfold dget_or. rewrite Hg. reflexivity. }
    split; [|split].
    + rewrite <- Ems. apply Hnm. intros; simpl. constructor.
    + assert (Hdm : dmem (snd res) r = true) by (eapply dget_Some_mem; eauto).
      apply Hd in Hdm. destruct Hdm as [Hdm|[a [Ha Hra]]]; [discriminate|].
      intros Hnil. assert (Hin2 : In a ms) by (rewrite <- Ems; apply Hm; auto).
      rewrite Hnil in Hin2. destruct Hin2.
    + intros a. rewrite <- Ems, Hm. simpl. split.
      * intros [[]|[_ ?]]; auto.
      * intros Hr. right. split; auto. apply dmem_In. eapply Rep_dom; eauto.
  - intros a r Hr.
    assert (Hdm : dmem (snd res) r = true).
    { apply Hd. right. exists a. split; auto. apply dmem_In. eapply Rep_dom; eauto. }
    destruct (dmem_true_Some _ _ Hdm) as [ms Hms].
    exists ms. apply dget_Some_In. exact Hms.
Qed.
End GroupsFacts.

(** * Facts about the clusterer *)

Section Lists.
Lemma insert_Z_In x a l : In a (insert_Z x l) <-> a = x \/ In a l.
Proof.
  induction l as [|y l IH]; simpl; [intuition|].
  destruct (x <=? y); simpl; [intuition|]. rewrite IH. intuition.
Qed.

Lemma sorted_Z_In a l : In a (sorted_Z l) <-> In a l.
Proof.
  induction l as [|x l IH]; simpl; [tauto|].
  rewrite insert_Z_In, IH. intuition.
Qed.

Lemma pairs_from_In a b l :
  In (a, b) (pairs_from l) -> In a l /\ In b l.
Proof.
  induction l as [|x l IH]; simpl; [tauto|].
  rewrite in_app_iff, in_map_iff.
  intros [[y [E Hy]]|H].
  - injection E as <- <-. auto.
  - destruct (IH H). auto.
Qed.

Lemma pairs_from_total a b l :
  a <> b -> In a l -> In b l ->
  In (a, b) (pairs_from l) \/ In (b, a) (pairs_from l).
Proof.
  intros Hab. induction l as [|x l IH]; simpl; [tauto|].
  rewrite !in_app_iff, !in_map_iff.
  intros [->|Ha] [->|Hb]; try congruence.
  - left. left. exists b. auto.
  - right. left. exists a. auto.
  - destruct (IH Ha Hb); auto.
Qed.
End Lists.

Section Ok.
Variable P : Z -> Prop.
Variable E : Z -> Z -> Prop.
Hypothesis E_refl : forall a, E a a.
Hypothesis E_sym : forall a b, E a b -> E b a.
Hypothesis E_trans : forall a b c, E a b -> E b c -> E a c.

Lemma uf_new_ok : uf_ok P E uf_new.
Proof.
  split; [apply uf_new_inv|]. split.
  - intros z Hz. discriminate.
  - intros a b H. destruct (same_uf_new a b H).
Qed.

Lemma union_ok uf x y :
  uf_ok P E uf -> P x -> P y -> E x y -> uf_ok P E (union uf x y).
Proof.
  intros (Hi & Hp & He) Hx Hy Hxy. split; [apply union_inv; auto|]. split.
  - intros z. rewrite union_dmem by auto. rewrite !orb_true_iff, !Z.eqb_eq.
    intros [[<-|<-]|Hz]; auto.
  - apply union_sound; auto.
Qed.

Lemma fold_ok {A} (f : UnionFind -> A -> UnionFind) (l : list A) :
  (forall u x, In x l -> uf_ok P E u -> uf_ok P E (f u x)) ->
  forall u, uf_ok P E u -> uf_ok P E (fold_left f l u).
Proof.
  induction l as [|x l IH]; intros Hf u Hu; simpl; auto.
  apply IH.
  - intros u' x' Hin. apply Hf. right. exact Hin.
  - apply Hf; auto. left. reflexivity.
Qed.

Lemma star_ok uf l :
  uf_ok P E uf -> (forall a, In a l -> P a) ->
  (forall a b, In a l -> In b l -> E a b) ->
  uf_ok P E (star uf l).
Proof.
  intros Hu Hp He. destruct l as [|h tl]; simpl; auto.
  apply fold_ok; auto.
  intros u x Hin Hok. apply union_ok; auto.
  - apply Hp. left. reflexivity.
  - apply Hp. right. exact Hin.
  - apply He; [left; reflexivity|right; exact Hin].
Qed.
End Ok.

Section Edges.
Lemma star_unions uf ml : star uf ml = unions uf (star_edges ml).
Proof.
  destruct ml as [|h tl]; simpl; auto. unfold unions.
  revert uf. induction tl as [|x tl IH]; intros uf; simpl; auto.
Qed.

Lemma fold_unions_flat {A} (edges : A -> list (Z * Z)) (l : list A) :
  forall uf,
    fold_left (fun u g => unions u (edges g)) l uf
    = unions uf (flat_map edges l).
Proof.
  induction l as [|g l IH]; intros uf; simpl; auto.
  rewrite IH, unions_app. reflexivity.
Qed.

Lemma unions_ok P E l :
  (forall a, E a a) -> (forall a b, E a b -> E b a) ->
  (forall a b c, E a b -> E b c -> E a c) ->
  forall uf,
    uf_ok P E uf ->
    (forall ab, In ab l -> P (fst ab) /\ P (snd ab) /\ E (fst ab) (snd ab)) ->
    uf_ok P E (unions uf l).
Proof.
  intros Er Es Et uf Hu Hl. unfold unions. apply fold_ok; auto.
  intros u ab Hin Hok. destruct (Hl ab Hin) as (H1 & H2 & H3).
  apply union_ok; auto.
Qed.

Lemma star_edges_In a b ml :
  In (a, b) (star_edges ml) -> In a ml /\ In b ml.
Proof.
  destruct ml as [|h tl]; simpl; [tauto|].
  rewrite in_map_iff. intros [x [E Hx]]. injection E as <- <-. auto.
Qed.

Lemma star_same uf ml a b :
  uf_inv uf -> a <> b -> In a ml -> In b ml ->
  same (unions uf (star_edges ml)) a b.
Proof.
  intros Hi Hab Ha Hb. destruct ml as [|h tl]; [destruct Ha|].
  simpl star_edges.
  assert (He : forall x, In x tl -> same (unions uf (map (pair h) tl)) h x).
  { intros x Hx. apply unions_edge; auto. apply in_map. exact Hx. }
  destruct Ha as [<-|Ha], Hb as [<-|Hb]; try congruence.
  - apply He; auto.
  - apply same_sym. apply He; auto.
  - eapply same_trans; [apply same_sym; apply He; eauto|apply He; auto].
Qed.
End Edges.

Section JobFacts.
Context {fz : Fuzz} {ho : HashOrder}.

Lemma order_In {A} (x : A) (l : list A) : In x (order l) <-> In x l.
Proof.
  split; apply Permutation_in; [apply order_perm|].
  apply Permutation_sym, order_perm.
Qed.

Lemma eqb_empty_false (s : string) : String.eqb s "" = false <-> s <> "".
Proof. apply String.eqb_neq. Qed.

Lemma link_true na nb :
  link na nb = true -> na <> "" /\ nb <> "".
Proof.
  unfold link.
  destruct (String.eqb na "") eqn:Ea; [discriminate|].
  destruct (String.eqb nb "") eqn:Eb; [discriminate|].
  intros _. split; apply String.eqb_neq; auto.
Qed.

Lemma link_exact na : na <> "" -> link na na = true.
Proof.
  intros H. unfold link. apply String.eqb_neq in H. rewrite H. simpl.
  rewrite String.eqb_refl. reflexivity.
Qed.

Lemma strict_link_true na nb :
  strict_link na nb = true ->
  na <> "" /\ nb <> ""
  /\ (na = nb
      \/ ((TIGHT_THRESHOLD <= composite_score na nb)%Q
          /\ should_merge na nb (composite_score na nb) = true)).
Proof.
  unfold strict_link.
  destruct (String.eqb na "") eqn:Ea; [discriminate|].
  destruct (String.eqb nb "") eqn:Eb; [discriminate|]. simpl.
  apply String.eqb_neq in Ea, Eb.
  destruct (String.eqb na nb) eqn:E.
  - apply String.eqb_eq in E. auto.
  - intros H. apply andb_true_iff in H as [H1 H2].
    apply Qgeb_true in H1. auto.
Qed.

Lemma strict_link_exact na : na <> "" -> strict_link na na = true.
Proof.
  intros H. unfold strict_link. apply String.eqb_neq in H. rewrite H. simpl.
  rewrite String.eqb_refl. reflexivity.
Qed.

Variable norms : dict Z string.

Lemma cluster_unions pairs :
  cluster norms pairs = unions uf_new (filter (link_pair norms) (order pairs)).
Proof. unfold cluster. apply (fold_union_filter (link_pair norms)). Qed.

Lemma strict_unions l uf :
  fold_left (strict_step norms) l uf = unions uf (filter (strict_pair norms) l).
Proof. apply (fold_union_filter (strict_pair norms)). Qed.

Lemma strict_pair_policy p :
  (strict_pair norms) p = true -> meets_strict_policy norms (fst p) (snd p).
Proof.
  intros H. apply strict_link_true in H. unfold meets_strict_policy. tauto.
Qed.

Lemma cluster_ok pairs : uf_ok (named norms) (fun _ _ => True) (cluster norms pairs).
Proof.
  rewrite cluster_unions. apply unions_ok; auto.
  - apply uf_new_ok.
  - intros ab Hin. apply filter_In in Hin as [_ Hl].
    apply link_true in Hl. unfold named. tauto.
Qed.

Lemma cluster_exact pairs a b :
  In (a, b) pairs -> norm_of norms a = norm_of norms b ->
  norm_of norms a <> "" ->
  same (cluster norms pairs) a b.
Proof.
  intros Hin Hn Hne. rewrite cluster_unions.
  apply unions_edge; [apply uf_new_inv|].
  apply filter_In. split; [apply order_In; exact Hin|].
  unfold link_pair. simpl. rewrite <- Hn. apply link_exact. exact Hne.
Qed.
End JobFacts.

Section SplitFacts.
Context {fz : Fuzz} {ho : HashOrder}.
Variable norms : dict Z string.

Lemma fold_left_ext {A B} (f g : A -> B -> A) l :
  (forall u x, f u x = g u x) ->
  forall u, fold_left f l u = fold_left g l u.
Proof.
  intros H. induction l as [|x l IH]; intros u; simpl; auto.
  rewrite H. apply IH.
Qed.

Lemma rebuild_unions raw ov :
  rebuild norms raw ov = unions uf_new (rebuild_edges norms raw ov).
Proof.
  unfold rebuild, rebuild_edges. rewrite unions_app.
  rewrite <- !fold_unions_flat.
  rewrite (fold_left_ext
             (fun u g => fold_left (strict_step norms)
                                   (pairs_from (sorted_Z (snd g))) u)
             (fun u g => unions u (filter (strict_pair norms)
                                      (pairs_from (sorted_Z (snd g))))))
    by (intros; apply strict_unions).
  f_equal. apply fold_left_ext. intros u g.
  destruct (dmem ov (fst g)); [reflexivity|apply star_unions].
Qed.

Lemma split_unfold uf :
  split_oversized norms uf =
  let res := groups uf in
  let ov := filter is_oversized (snd res) in
  if is_empty ov then fst res
  else if Nat.ltb 0 (List.length
              (filter (fun g => Nat.ltb 1 (List.length (sub_groups norms (snd g))))
                      ov))
       then rebuild norms (snd res) ov
       else fst res.
Proof. unfold split_oversized. destruct (groups uf). reflexivity. Qed.

Lemma dmem_filter_In (f : Z * list Z -> bool) (d : dict Z (list Z)) r ms :
  NoDup (dkeys d) -> In (r, ms) d ->
  dmem (filter f d) r = f (r, ms).
Proof.
  intros Hnd Hin. destruct (f (r, ms)) eqn:E.
  - apply dmem_In. unfold dkeys. change r with (fst (r, ms)).
    apply in_map. apply filter_In. auto.
  - destruct (dmem (filter f d) r) eqn:Hm; auto.
    apply dmem_true_Some in Hm as [ms' Hms'].
    apply dget_Some_In in Hms'. apply filter_In in Hms' as [Hin' Hf].
    assert (ms' = ms).
    { pose proof (NoDup_keys_In_dget _ _ _ Hnd Hin).
      pose proof (NoDup_keys_In_dget _ _ _ Hnd Hin'). congruence. }
    subst. congruence.
Qed.

Section Raw.
Variable uf : UnionFind.
Hypothesis Hinv : uf_inv uf.

Lemma raw_nodup : NoDup (dkeys (raw_groups_of uf)).
Proof. apply (groups_spec uf Hinv). Qed.

Lemma raw_members r ms a : In (r, ms) (raw_groups_of uf) -> (In a ms <-> Rep uf a r).
Proof.
  intros Hin. destruct (groups_spec uf Hinv) as (_ & _ & _ & _ & Hg & _).
  apply (Hg r ms Hin).
Qed.

Lemma raw_same r ms a b : In (r, ms) (raw_groups_of uf) -> In a ms -> In b ms -> same uf a b.
Proof.
  intros Hin Ha Hb. exists r. split; apply (raw_members r ms); auto.
Qed.

Lemma raw_group_of a r : Rep uf a r -> exists ms, In (r, ms) (raw_groups_of uf) /\ In a ms.
Proof.
  intros Hr. destruct (groups_spec uf Hinv) as (_ & _ & _ & _ & _ & Hg).
  destruct (Hg a r Hr) as [ms Hms]. exists ms. split; auto.
  apply (raw_members r ms); auto.
Qed.

Lemma raw_unique r ms ms' : In (r, ms) (raw_groups_of uf) -> In (r, ms') (raw_groups_of uf) -> ms = ms'.
Proof.
  intros H1 H2.
  pose proof (NoDup_keys_In_dget _ _ _ raw_nodup H1).
  pose proof (NoDup_keys_In_dget _ _ _ raw_nodup H2). congruence.
Qed.

Lemma ov_dmem r ms : In (r, ms) (raw_groups_of uf) -> dmem (oversized_of uf) r = is_oversized (r, ms).
Proof. apply dmem_filter_In. apply raw_nodup. Qed.

(** Every union of the rebuild joins two members of one (raw_groups_of uf) group:
    of a small one, or of an oversized one under the strict policy. *)
Lemma rebuild_edges_In a b :
  In (a, b) (rebuild_edges norms (raw_groups_of uf) (oversized_of uf)) ->
  exists r ms, In (r, ms) (raw_groups_of uf) /\ In a ms /\ In b ms
               /\ (is_oversized (r, ms) = false
                   \/ strict_pair norms (a, b) = true).
Proof.
  unfold rebuild_edges. rewrite in_app_iff, !in_flat_map.
  intros [[[r ms] [Hin He]]|[[r ms] [Hin He]]]; simpl in He.
  - destruct (dmem (oversized_of uf) r) eqn:Ed; [destruct He|].
    apply star_edges_In in He. rewrite !sorted_Z_In in He.
    exists r, ms. rewrite <- (ov_dmem r ms Hin). tauto.
  - apply filter_In in He as [He Hs]. apply pairs_from_In in He.
    rewrite !sorted_Z_In in He. apply filter_In in Hin as [Hin _].
    exists r, ms. tauto.
Qed.

Lemma rebuild_inv : uf_inv (rebuild norms (raw_groups_of uf) (oversized_of uf)).
Proof. rewrite rebuild_unions. apply unions_inv, uf_new_inv. Qed.

Lemma rebuild_dmem z :
  dmem (parent (rebuild norms (raw_groups_of uf) (oversized_of uf))) z = true -> dmem (parent uf) z = true.
Proof.
  rewrite rebuild_unions, unions_dmem by apply uf_new_inv.
  intros [H|[[a b] [Hin Hz]]]; [discriminate|].
  destruct (rebuild_edges_In a b Hin) as (r & ms & Hr & Ha & Hb & _).
  simpl in Hz. destruct Hz as [->| ->];
    eapply Rep_dom; apply (raw_members r ms); eauto.
Qed.

(** Completeness for exact matches. *)
Lemma rebuild_exact a b :
  same uf a b -> a <> b ->
  norm_of norms a = norm_of norms b -> norm_of norms a <> "" ->
  same (rebuild norms (raw_groups_of uf) (oversized_of uf)) a b.
Proof.
  intros [r [Ha Hb]] Hab Hn Hne.
  destruct (raw_group_of a r Ha) as [ms [Hin Hams]].
  assert (Hbms : In b ms) by (apply (raw_members r ms); auto).
  rewrite rebuild_unions. unfold rebuild_edges. rewrite unions_app.
  destruct (is_oversized (r, ms)) eqn:Eo.
  - assert (Hov : In (r, ms) (oversized_of uf)) by (apply filter_In; auto).
    assert (Hs : forall x y, In (x, y) (pairs_from (sorted_Z ms)) ->
                   norm_of norms x = norm_of norms y ->
                   norm_of norms x <> "" ->
                   same (unions
                           (unions uf_new
                              (flat_map
                                 (fun g => if dmem (oversized_of uf) (fst g) then []
                                           else star_edges (sorted_Z (snd g)))
                                 (raw_groups_of uf)))
                           (flat_map
                              (fun g => filter (strict_pair norms)
                                          (pairs_from (sorted_Z (snd g))))
                              (oversized_of uf))) x y).
    { intros x y Hxy Hnxy Hnx. apply unions_edge.
      - apply unions_inv, uf_new_inv.
      - apply in_flat_map. exists (r, ms). split; auto.
        apply filter_In. split; auto.
        unfold strict_pair. simpl. rewrite <- Hnxy.
        apply strict_link_exact. exact Hnx. }
    destruct (pairs_from_total a b (sorted_Z ms) Hab) as [H|H];
      try (apply sorted_Z_In; assumption).
    + apply Hs; auto.
    + apply same_sym. apply Hs; auto; congruence.
  - apply unions_mono; [apply unions_inv, uf_new_inv|].
    assert (Hd : dmem (oversized_of uf) r = false) by (rewrite (ov_dmem r ms Hin); auto).
    apply in_split in Hin as [l1 [l2 El]]. rewrite El.
    rewrite flat_map_app, unions_app. simpl flat_map. rewrite Hd.
    rewrite unions_app. apply unions_mono.
    { apply unions_inv, unions_inv, uf_new_inv. }
    apply star_same; auto.
    + apply unions_inv, uf_new_inv.
    + apply sorted_Z_In; auto.
    + apply sorted_Z_In; auto.
Qed.
End Raw.

Lemma split_inv uf : uf_inv uf -> uf_inv (split_oversized norms uf).
Proof.
  intros H. rewrite split_unfold. cbv zeta.
  destruct (is_empty _); [apply (groups_spec uf H)|].
  destruct (Nat.ltb 0 _); [apply rebuild_inv|apply (groups_spec uf H)].
Qed.

Lemma groups_dmem uf z :
  uf_inv uf -> dmem (parent (fst (groups uf))) z = dmem (parent uf) z.
Proof.
  intros H. apply dmem_keys_eq. apply (groups_spec uf H).
Qed.

Lemma groups_same uf a b :
  uf_inv uf -> (same (fst (groups uf)) a b <-> same uf a b).
Proof.
  intros H. destruct (groups_spec uf H) as (_ & _ & Heq & _).
  unfold same. split; intros [r [Ha Hb]]; exists r; split; apply Heq; auto.
Qed.

Lemma split_dmem uf z :
  uf_inv uf ->
  dmem (parent (split_oversized norms uf)) z = true ->
  dmem (parent uf) z = true.
Proof.
  intros H. rewrite split_unfold. cbv zeta.
  destruct (is_empty _); [rewrite groups_dmem; auto|].
  destruct (Nat.ltb 0 _); [apply rebuild_dmem; auto|rewrite groups_dmem; auto].
Qed.

Lemma split_exact uf a b :
  uf_inv uf -> same uf a b -> a <> b ->
  norm_of norms a = norm_of norms b -> norm_of norms a <> "" ->
  same (split_oversized norms uf) a b.
Proof.
  intros H Hs Hab Hn Hne. rewrite split_unfold. cbv zeta.
  destruct (is_empty _); [apply groups_same; auto|].
  destruct (Nat.ltb 0 _); [apply rebuild_exact; auto|apply groups_same; auto].
Qed.
End SplitFacts.

Section SplitSound.
Context {fz : Fuzz} {ho : HashOrder}.
Variable norms : dict Z string.

Lemma chain_sym a b : strict_chain norms a b -> strict_chain norms b a.
Proof. apply rst_sym. Qed.
Lemma chain_trans a b c :
  strict_chain norms a b -> strict_chain norms b c -> strict_chain norms a c.
Proof. apply rst_trans. Qed.








Section Raw.
Variable uf : UnionFind.
Hypothesis Hinv : uf_inv uf.

Lemma small_same a b : same uf a b -> small uf a -> small uf b.
Proof.
  intros [r [Ha Hb]] (r' & ms & Hin & Hams & Ho).
  assert (H1 : Rep uf a r') by (apply (raw_members uf Hinv r' ms); auto).
  pose proof (Rep_det _ _ _ _ H1 Ha). subst. exists r, ms. split; [auto|]. split; [|auto].
  apply (raw_members uf Hinv r ms); auto.
Qed.

Lemma split_rel_refl a : split_rel norms uf a a.
Proof. left. reflexivity. Qed.

Lemma split_rel_sym a b : split_rel norms uf a b -> split_rel norms uf b a.
Proof.
  intros [->|[Hs [Hsm|Hc]]]; [left; auto|right|right].
  - split; [apply same_sym; auto|]. left. eapply small_same; eauto.
  - split; [apply same_sym; auto|]. right. apply chain_sym; auto.
Qed.

Lemma split_rel_trans a b c : split_rel norms uf a b -> split_rel norms uf b c -> split_rel norms uf a c.
Proof.
  intros [->|[Hs1 H1]] [->|[Hs2 H2]];
    try (left; reflexivity); try (right; split; assumption).
  right. split; [eapply same_trans; eauto|].
  destruct H1 as [H1|H1]; auto.
  destruct H2 as [H2|H2].
  - left. eapply small_same; [apply same_sym; eauto|auto].
  - right. eapply chain_trans; eauto.
Qed.

Lemma rebuild_sound a b : same (rebuild norms (raw_groups_of uf) (oversized_of uf)) a b -> split_rel norms uf a b.
Proof.
  rewrite rebuild_unions.
  apply (unions_sound (split_rel norms uf) split_rel_refl split_rel_sym split_rel_trans).
  - apply uf_new_inv.
  - intros x y H. destruct (same_uf_new x y H).
  - intros [x y] Hin. simpl.
    destruct (rebuild_edges_In norms uf Hinv x y Hin)
      as (r & ms & Hr & Hx & Hy & Hc).
    right. split; [eapply raw_same; eauto|].
    destruct Hc as [Hc|Hc].
    + left. exists r, ms. auto.
    + right. apply rst_step. apply (strict_pair_policy norms (x, y)). exact Hc.
Qed.


End Raw.
End SplitSound.

(** * Facts about primary selection *)

Section AssignFacts.
Context {ho : HashOrder}.
Variables cleaned types : dict Z string.

Lemma insert_scored_perm x l : Permutation (insert_scored x l) (x :: l).
Proof.
  induction l as [|y l IH]; simpl; auto.
  destruct (Qltb (snd x) (snd y)); auto.
  rewrite IH. apply perm_swap.
Qed.

Lemma sort_scored_perm l : Permutation (sort_scored l) l.
Proof.
  induction l as [|x l IH]; simpl; auto.
  rewrite insert_scored_perm. auto.
Qed.

Lemma scored_members_In ms x :
  In x (map fst (scored_members cleaned types ms)) <-> In x ms.
Proof.
  unfold scored_members.
  assert (Hp : Permutation (map fst (sort_scored (map (scored cleaned types) (order ms)))) ms).
  { rewrite sort_scored_perm, map_map. simpl. rewrite map_id. apply order_perm. }
  split; apply Permutation_in; auto. apply Permutation_sym. auto.
Qed.

Lemma best_In ms : ms <> [] -> In (best cleaned types ms) ms.
Proof.
  intros Hne. apply scored_members_In. unfold best.
  destruct (scored_members cleaned types ms) as [|m sm] eqn:E.
  - destruct ms as [|x ms]; [congruence|].
    assert (H : In x (map fst (scored_members cleaned types (x :: ms))))
      by (apply scored_members_In; left; auto).
    rewrite E in H. destruct H.
  - simpl. auto.
Qed.

Lemma assign_members_spec b sm : forall a x,
  let a' := fold_left (assign_member b) sm a in
  (In x (map fst sm) ->
     dget (to_group a') x = Some b /\ dget (to_primary a') x = Some (flag b x))
  /\ (~ In x (map fst sm) ->
     dget (to_group a') x = dget (to_group a) x
     /\ dget (to_primary a') x = dget (to_primary a) x).
Proof.
  induction sm as [|m sm IH]; intros a x; simpl; [tauto|].
  destruct (IH (assign_member b a m) x) as [IH1 IH2].
  destruct (in_dec Z.eq_dec x (map fst sm)) as [Hin|Hnin].
  - split; [intros _; auto|]. intros Hn. exfalso. apply Hn. auto.
  - destruct (IH2 Hnin) as [E1 E2]. rewrite E1, E2. unfold assign_member. simpl.
    split.
    + intros [->|?]; [|contradiction].
      rewrite !dget_dset_same. unfold flag. auto.
    + intros Hn. rewrite !dget_dset_other by (intros ->; apply Hn; auto). auto.
Qed.

Lemma assign_group_spec a g x :
  let a' := assign_group cleaned types a g in
  (In x (snd g) ->
     dget (to_group a') x = Some (best cleaned types (snd g))
     /\ dget (to_primary a') x = Some (flag (best cleaned types (snd g)) x))
  /\ (~ In x (snd g) ->
     dget (to_group a') x = dget (to_group a) x
     /\ dget (to_primary a') x = dget (to_primary a) x).
Proof.
  unfold assign_group. cbv zeta. rewrite <- scored_members_In.
  apply assign_members_spec.
Qed.

Lemma classic_in (grps : list (Z * list Z)) (x : Z) :
  (exists g, In g grps /\ In x (snd g))
  \/ (forall g, In g grps -> ~ In x (snd g)).
Proof.
  induction grps as [|g grps IH].
  - right. intros g [].
  - destruct (in_dec Z.eq_dec x (snd g)) as [Hin|Hnin].
    + left. exists g. simpl. auto.
    + destruct IH as [[g' [H1 H2]]|IH].
      * left. exists g'. simpl. auto.
      * right. intros g' [<-|H]; auto.
Qed.

Lemma assign_groups_spec grps : forall a x,
  disjoint_groups grps ->
  let a' := fold_left (assign_group cleaned types) grps a in
  (forall g, In g grps -> In x (snd g) ->
     dget (to_group a') x = Some (best cleaned types (snd g))
     /\ dget (to_primary a') x = Some (flag (best cleaned types (snd g)) x))
  /\ ((forall g, In g grps -> ~ In x (snd g)) ->
     dget (to_group a') x = dget (to_group a) x
     /\ dget (to_primary a') x = dget (to_primary a) x).
Proof.
  induction grps as [|g grps IH]; intros a x Hd; simpl.
  - split; [intros g []|auto].
  - assert (Hd' : disjoint_groups grps).
    { intros g1 g2 y H1 H2. apply Hd; right; auto. }
    destruct (IH (assign_group cleaned types a g) x Hd') as [IH1 IH2].
    destruct (assign_group_spec a g x) as [G1 G2].
    split.
    + intros g' [<-|Hin] Hx.
      * destruct (classic_in grps x) as [[g2 [Hg2 Hx2]]|Hno].
        -- assert (g = g2) by (apply (Hd g g2 x); simpl; auto). subst.
           apply IH1; auto.
        -- destruct (IH2 Hno) as [E1 E2]. rewrite E1, E2. apply G1. exact Hx.
      * apply IH1; auto.
    + intros Hno.
      destruct IH2 as [E1 E2].
      { intros g' Hg'. apply Hno. right. auto. }
      rewrite E1, E2. apply G2. apply Hno. left. auto.
Qed.
End AssignFacts.

Section SelectFacts.
Context {ho : HashOrder}.
Variables cleaned types : dict Z string.

Lemma assign_member_agree b a m :
  keys_agree a -> keys_agree (assign_member b a m).
Proof.
  intros H x. unfold assign_member. simpl. rewrite !dmem_dset, H. reflexivity.
Qed.

Lemma fold_agree {A} (f : assignment -> A -> assignment) l :
  (forall a x, keys_agree a -> keys_agree (f a x)) ->
  forall a, keys_agree a -> keys_agree (fold_left f l a).
Proof.
  intros Hf. induction l as [|x l IH]; intros a Ha; simpl; auto.
Qed.

Lemma assign_group_agree a g :
  keys_agree a -> keys_agree (assign_group cleaned types a g).
Proof.
  intros H. unfold assign_group. apply fold_agree; auto.
  intros; apply assign_member_agree; auto.
Qed.

Lemma assign_singleton_spec a rid x :
  keys_agree a ->
  keys_agree (assign_singleton a rid)
  /\ group_of (assign_singleton a rid) x = group_of a x
  /\ primary_of (assign_singleton a rid) x = primary_of a x.
Proof.
  intros H. unfold assign_singleton.
  destruct (dmem (to_group a) rid) eqn:E; [auto|].
  split; [|split].
  - intros y. simpl. rewrite !dmem_dset, H. reflexivity.
  - unfold group_of. simpl. rewrite dget_or_dset.
    destruct (Z.eqb_spec rid x) as [->|]; auto.
    unfold dget_or. apply dmem_false_None in E. rewrite E. reflexivity.
  - unfold primary_of. simpl. rewrite dget_or_dset.
    destruct (Z.eqb_spec rid x) as [->|]; auto.
    rewrite H in E. unfold dget_or. apply dmem_false_None in E.
    rewrite E. reflexivity.
Qed.

Lemma assign_singletons_spec l : forall a x,
  keys_agree a ->
  group_of (fold_left assign_singleton l a) x = group_of a x
  /\ primary_of (fold_left assign_singleton l a) x = primary_of a x.
Proof.
  induction l as [|rid l IH]; intros a x H; simpl; auto.
  destruct (assign_singleton_spec a rid x H) as (H1 & H2 & H3).
  destruct (IH (assign_singleton a rid) x H1) as [E1 E2].
  rewrite E1, E2. auto.
Qed.

Variable uf : UnionFind.
Hypothesis Hinv : uf_inv uf.

Lemma groups_disjoint : disjoint_groups (raw_groups_of uf).
Proof.
  intros [r1 ms1] [r2 ms2] x H1 H2 Hx1 Hx2. simpl in *.
  assert (R1 : Rep uf x r1) by (apply (raw_members uf Hinv r1 ms1); auto).
  assert (R2 : Rep uf x r2) by (apply (raw_members uf Hinv r2 ms2); auto).
  pose proof (Rep_det _ _ _ _ R1 R2). subst.
  rewrite (raw_unique uf Hinv r2 ms1 ms2 H1 H2). reflexivity.
Qed.

Lemma select_unfold :
  (select_primaries cleaned types (raw_groups_of uf)) = fold_left assign_singleton (dkeys cleaned)
        (fold_left (assign_group cleaned types) (raw_groups_of uf) empty_assignment).
Proof. reflexivity. Qed.

Lemma groups_agree :
  keys_agree (fold_left (assign_group cleaned types) (raw_groups_of uf) empty_assignment).
Proof.
  apply fold_agree.
  - intros; apply assign_group_agree; auto.
  - intros x. reflexivity.
Qed.

Theorem select_in_group r ms x :
  In (r, ms) (raw_groups_of uf) -> In x ms ->
  group_of (select_primaries cleaned types (raw_groups_of uf)) x = best cleaned types ms
  /\ primary_of (select_primaries cleaned types (raw_groups_of uf)) x = flag (best cleaned types ms) x.
Proof.
  intros Hin Hx. rewrite select_unfold.
  destruct (assign_singletons_spec (dkeys cleaned) _ x groups_agree) as [E1 E2].
  rewrite E1, E2.
  destruct (assign_groups_spec cleaned types (raw_groups_of uf) empty_assignment x
              groups_disjoint) as [H1 _].
  destruct (H1 (r, ms) Hin Hx) as [G1 G2]. simpl in G1, G2.
  unfold group_of, primary_of, dget_or. rewrite G1, G2. auto.
Qed.

Theorem select_outside x :
  dmem (parent uf) x = false -> group_of (select_primaries cleaned types (raw_groups_of uf)) x = x /\ primary_of (select_primaries cleaned types (raw_groups_of uf)) x = 1.
Proof.
  intros Hx. rewrite select_unfold.
  destruct (assign_singletons_spec (dkeys cleaned) _ x groups_agree) as [E1 E2].
  rewrite E1, E2.
  destruct (assign_groups_spec cleaned types (raw_groups_of uf) empty_assignment x
              groups_disjoint) as [_ H2].
  destruct H2 as [G1 G2].
  { intros [r ms] Hin Hxm. simpl in Hxm.
    apply (raw_members uf Hinv r ms) in Hxm; auto.
    apply Rep_dom in Hxm. congruence. }
  unfold group_of, primary_of, dget_or. rewrite G1, G2. auto.
Qed.

Lemma member_group x :
  dmem (parent uf) x = true ->
  exists r ms, In (r, ms) (raw_groups_of uf) /\ In x ms /\ ms <> [].
Proof.
  intros Hx. destruct (Rep_exists uf x Hinv Hx) as [r Hr].
  destruct (raw_group_of uf Hinv x r Hr) as [ms [Hin Hxm]].
  exists r, ms. split; [auto|]. split; [auto|].
  intros ->. destruct Hxm.
Qed.

Lemma dmem_cases x : dmem (parent uf) x = true \/ dmem (parent uf) x = false.
Proof. destruct (dmem (parent uf) x); auto. Qed.

(** The representative of a record is its own representative, and the
    primary flag marks exactly the representatives. *)
Theorem group_of_idem x : group_of (select_primaries cleaned types (raw_groups_of uf)) (group_of (select_primaries cleaned types (raw_groups_of uf)) x) = group_of (select_primaries cleaned types (raw_groups_of uf)) x.
Proof.
  destruct (dmem_cases x) as [Hx|Hx].
  - destruct (member_group x Hx) as (r & ms & Hin & Hxm & Hne).
    destruct (select_in_group r ms x Hin Hxm) as [E _]. rewrite E.
    apply (select_in_group r ms). auto. apply best_In. exact Hne.
  - destruct (select_outside x Hx) as [E _]. rewrite !E. reflexivity.
Qed.

Theorem primary_iff x : primary_of (select_primaries cleaned types (raw_groups_of uf)) x = 1 <-> group_of (select_primaries cleaned types (raw_groups_of uf)) x = x.
Proof.
  destruct (dmem_cases x) as [Hx|Hx].
  - destruct (member_group x Hx) as (r & ms & Hin & Hxm & Hne).
    destruct (select_in_group r ms x Hin Hxm) as [E1 E2]. rewrite E1, E2.
    unfold flag. destruct (Z.eqb_spec x (best cleaned types ms)); split;
      intros; try congruence; try discriminate.
  - destruct (select_outside x Hx) as [E1 E2]. rewrite E1, E2. tauto.
Qed.

Theorem group_of_member x :
  group_of (select_primaries cleaned types (raw_groups_of uf)) x = x \/ dmem (parent uf) (group_of (select_primaries cleaned types (raw_groups_of uf)) x) = true.
Proof.
  destruct (dmem_cases x) as [Hx|Hx].
  - right. destruct (member_group x Hx) as (r & ms & Hin & Hxm & Hne).
    destruct (select_in_group r ms x Hin Hxm) as [E _]. rewrite E.
    eapply Rep_dom. apply (raw_members uf Hinv r ms); auto.
    apply best_In. exact Hne.
  - left. apply select_outside. exact Hx.
Qed.

Theorem same_group_of a b : same uf a b -> group_of (select_primaries cleaned types (raw_groups_of uf)) a = group_of (select_primaries cleaned types (raw_groups_of uf)) b.
Proof.
  intros [r [Ha Hb]].
  destruct (raw_group_of uf Hinv a r Ha) as [ms [Hin Hams]].
  assert (Hbms : In b ms) by (apply (raw_members uf Hinv r ms); auto).
  destruct (select_in_group r ms a Hin Hams) as [E1 _].
  destruct (select_in_group r ms b Hin Hbms) as [E2 _]. congruence.
Qed.
End SelectFacts.

(** * Facts about the batch job *)

Section ListFacts.
Lemma dict_of_dmem_gen {V} (l : list (Z * V)) : forall d k,
  dmem (fold_left (fun d kv => dset d (fst kv) (snd kv)) l d) k = true
  <-> dmem d k = true \/ In k (map fst l).
Proof.
  induction l as [|[k0 v0] l IH]; intros d k; simpl; [tauto|].
  rewrite IH, dmem_dset, orb_true_iff.
  change (keqb k0 k) with (k0 =? k). rewrite Z.eqb_eq. tauto.
Qed.

Lemma dict_of_dmem {V} (l : list (Z * V)) k :
  dmem (dict_of l) k = true <-> In k (map fst l).
Proof.
  unfold dict_of. rewrite dict_of_dmem_gen. simpl.
  split; [intros [?|?]; [discriminate|auto]|auto].
Qed.

Lemma NoDup_map_eq {A} (f : A -> Z) l x y :
  NoDup (map f l) -> In x l -> In y l -> f x = f y -> x = y.
Proof.
  induction l as [|z l IH]; simpl; [tauto|].
  intros Hnd. inversion Hnd; subst. intros [->|Hx] [->|Hy] E; auto.
  - exfalso. apply H1. rewrite E. apply in_map. exact Hy.
  - exfalso. apply H1. rewrite <- E. apply in_map. exact Hx.
Qed.

Lemma filter_none {A} (p : A -> bool) l :
  (forall x, In x l -> p x = false) -> filter p l = [].
Proof.
  induction l as [|x l IH]; intros H; simpl; auto.
  rewrite (H x) by (left; auto). apply IH. intros y Hy. apply H. right. auto.
Qed.

Lemma filter_unique {A} (p : A -> bool) l x :
  NoDup l -> In x l -> (forall y, In y l -> (p y = true <-> y = x)) ->
  filter p l = [x].
Proof.
  induction l as [|z l IH]; simpl; [tauto|].
  intros Hnd Hin Hp. inversion Hnd; subst.
  destruct Hin as [->|Hin].
  - rewrite (proj2 (Hp x (or_introl eq_refl)) eq_refl).
    f_equal. apply filter_none. intros y Hy.
    destruct (p y) eqn:E; auto.
    assert (y = x) by (apply (Hp y (or_intror Hy)); exact E).
    subst. contradiction.
  - destruct (p z) eqn:E.
    + assert (z = x) by (apply (Hp z (or_introl eq_refl)); exact E).
      subst. contradiction.
    + apply IH; auto; intros y Hy; apply Hp; right; auto.
Qed.

Lemma NoDup_of_map {A B} (f : A -> B) l : NoDup (map f l) -> NoDup l.
Proof.
  induction l as [|x l IH]; simpl; intros H; constructor; inversion H; subst; auto.
  intros Hin. apply H2. apply in_map. exact Hin.
Qed.

Lemma filter_map_length {A B} (f : A -> B) (p : B -> bool) l :
  List.length (filter p (map f l))
  = List.length (filter (fun x => p (f x)) l).
Proof.
  induction l as [|x l IH]; simpl; auto.
  destruct (p (f x)); simpl; auto.
Qed.
End ListFacts.

Section MainFacts.
Context {fz : Fuzz} {ho : HashOrder}.
Variable rows : list input_row.

Lemma main_eq : main rows = map (emit (final_assignment (all_records rows))) (all_records rows).
Proof. reflexivity. Qed.

Lemma rec_ids : map rec_id (all_records rows) = map in_id rows.
Proof. unfold all_records. rewrite map_map. reflexivity. Qed.

Lemma out_ids : map master_id (main rows) = map in_id rows.
Proof. rewrite main_eq, map_map. simpl. apply rec_ids. Qed.

Lemma rec_valid_cases rec :
  In rec (all_records rows) -> rec_valid rec = 0 \/ rec_valid rec = 1.
Proof.
  unfold all_records. rewrite in_map_iff. intros [row [<- _]].
  unfold load_record. simpl. destruct (is_some _); auto.
Qed.

Lemma raw_inv : uf_inv (raw_clusters (all_records rows)).
Proof. apply (cluster_ok (id_to_norm (all_records rows))). Qed.

Lemma fin_inv : uf_inv (final_clusters (all_records rows)).
Proof. apply split_inv, raw_inv. Qed.

Lemma fin_named z : dmem (parent (final_clusters (all_records rows))) z = true -> named (id_to_norm (all_records rows)) z.
Proof.
  intros H. apply split_dmem in H; [|apply raw_inv].
  apply (cluster_ok (id_to_norm (all_records rows))) in H. exact H.
Qed.

Lemma named_valid z :
  named (id_to_norm (all_records rows)) z ->
  exists rec, In rec (all_records rows) /\ rec_id rec = z /\ rec_valid rec = 1.
Proof.
  unfold named, norm_of, dget_or. intros H.
  destruct (dget (id_to_norm (all_records rows)) z) as [v|] eqn:E; [|congruence].
  apply dget_Some_mem in E. unfold id_to_norm in E.
  apply dict_of_dmem in E. rewrite map_map in E. simpl in E.
  unfold valid_records in E. rewrite map_map in E. simpl in E.
  apply in_map_iff in E as [rec [Hid Hin]].
  apply filter_In in Hin as [Hin Hv].
  exists rec. split; [auto|]. split; [auto|].
  unfold is_valid_record in Hv. apply andb_true_iff in Hv as [Hv _].
  apply Z.eqb_eq in Hv. exact Hv.
Qed.

Hypothesis ids_distinct : NoDup (map in_id rows).

Lemma recs_nodup : NoDup (map rec_id (all_records rows)).
Proof. rewrite rec_ids. exact ids_distinct. Qed.

Lemma group_of_valid rec :
  In rec (all_records rows) -> rec_valid rec = 1 ->
  exists rec', In rec' (all_records rows) /\ rec_id rec' = group_of (final_assignment (all_records rows)) (rec_id rec)
               /\ rec_valid rec' = 1.
Proof.
  intros Hin Hv.
  destruct (group_of_member (id_to_cleaned (all_records rows)) (id_to_type (all_records rows)) (final_clusters (all_records rows)) fin_inv
              (rec_id rec)) as [E|Hd].
  - exists rec. split; [auto|]. split; [symmetry; exact E|auto].
  - apply fin_named in Hd. apply named_valid in Hd. exact Hd.
Qed.

Lemma count_eq g :
  primaries_of_group (main rows) g
  = List.length (filter (is_primary_of rows g) (all_records rows)).
Proof.
  unfold primaries_of_group. rewrite main_eq.
  exact (filter_map_length (emit (final_assignment (all_records rows)))
           (fun o => ((group_id o =? g) && (is_primary o =? 1))%bool) (all_records rows)).
Qed.

Lemma is_primary_of_true g rec :
  is_primary_of rows g rec = true ->
  rec_valid rec <> 0 /\ rec_id rec = g /\ group_of (final_assignment (all_records rows)) g = g.
Proof.
  unfold is_primary_of, emit. simpl.
  destruct (rec_valid rec =? 0) eqn:Ev; simpl.
  - rewrite andb_false_r. discriminate.
  - intros H. apply andb_true_iff in H as [H1 H2].
    apply Z.eqb_eq in H1, H2. apply Z.eqb_neq in Ev.
    fold (group_of (final_assignment (all_records rows)) (rec_id rec)) in H1.
    fold (primary_of (final_assignment (all_records rows)) (rec_id rec)) in H2.
    apply (primary_iff (id_to_cleaned (all_records rows)) (id_to_type (all_records rows)) (final_clusters (all_records rows)) fin_inv) in H2.
    change (group_of (final_assignment (all_records rows)) (rec_id rec) = rec_id rec) in H2.
    split; [auto|]. split; congruence.
Qed.

Lemma is_primary_of_intro g rec :
  rec_valid rec = 1 -> rec_id rec = g -> group_of (final_assignment (all_records rows)) g = g ->
  is_primary_of rows g rec = true.
Proof.
  intros Hv Hid Hg. unfold is_primary_of, emit. simpl. rewrite Hv. simpl.
  fold (group_of (final_assignment (all_records rows)) (rec_id rec)). fold (primary_of (final_assignment (all_records rows)) (rec_id rec)).
  rewrite Hid, Hg, Z.eqb_refl. simpl. apply Z.eqb_eq.
  apply (primary_iff (id_to_cleaned (all_records rows)) (id_to_type (all_records rows)) (final_clusters (all_records rows)) fin_inv).
  exact Hg.
Qed.

Lemma one_primary_valid rec :
  In rec (all_records rows) -> rec_valid rec = 1 ->
  primaries_of_group (main rows) (group_of (final_assignment (all_records rows)) (rec_id rec)) = 1%nat.
Proof.
  intros Hin Hv. rewrite count_eq.
  destruct (group_of_valid rec Hin Hv) as (rec' & Hin' & Hid' & Hv').
  set (g := group_of (final_assignment (all_records rows)) (rec_id rec)) in *.
  assert (Hg : group_of (final_assignment (all_records rows)) g = g).
  { apply (group_of_idem (id_to_cleaned (all_records rows)) (id_to_type (all_records rows)) (final_clusters (all_records rows)) fin_inv). }
  rewrite (filter_unique (is_primary_of rows g) (all_records rows) rec'); auto.
  - apply (NoDup_of_map rec_id). exact recs_nodup.
  - intros y Hy. split.
    + intros H. apply is_primary_of_true in H as (_ & Hid & _).
      apply (NoDup_map_eq rec_id (all_records rows)); auto. exact recs_nodup. congruence.
    + intros ->. apply is_primary_of_intro; auto.
Qed.

Lemma no_primary_invalid rec :
  In rec (all_records rows) -> rec_valid rec = 0 ->
  primaries_of_group (main rows) (rec_id rec) = 0%nat.
Proof.
  intros Hin Hv. rewrite count_eq. rewrite filter_none; auto.
  intros y Hy. destruct (is_primary_of rows (rec_id rec) y) eqn:E; auto.
  apply is_primary_of_true in E as (Hvy & Hid & _).
  assert (y = rec) by (apply (NoDup_map_eq rec_id (all_records rows)); auto; exact recs_nodup).
  subst. congruence.
Qed.
End MainFacts.

(** * The claims about the batch job *)

Section Claims.
Context {fz : Fuzz} {ho : HashOrder}.

Lemma emit_valid_group rows rec :
  rec_valid rec = 1 ->
  group_id (emit (final_assignment (all_records rows)) rec)
  = group_of (final_assignment (all_records rows)) (rec_id rec).
Proof. intros Hv. unfold emit. simpl. rewrite Hv. reflexivity. Qed.

Lemma emit_invalid rows rec :
  rec_valid rec = 0 ->
  is_primary (emit (final_assignment (all_records rows)) rec) = 0
  /\ group_id (emit (final_assignment (all_records rows)) rec) = rec_id rec
  /\ master_id (emit (final_assignment (all_records rows)) rec) = rec_id rec.
Proof. intros Hv. unfold emit. simpl. rewrite Hv. auto. Qed.

(** C1, one primary per cluster, for the clusters of valid records: when
    the source ids are distinct, the group of every valid row of the
    output holds exactly one row flagged primary.  An invalid row is
    written with its own id as group and without the flag, so its group
    holds no primary row at all. *)
Theorem one_primary_per_valid_cluster (rows : list input_row)
    (o : output_row) :
  NoDup (map in_id rows) -> In o (main rows) ->
  (is_valid o = 1 -> primaries_of_group (main rows) (group_id o) = 1%nat)
  /\ (is_valid o = 0 ->
      is_primary o = 0 /\ group_id o = master_id o
      /\ primaries_of_group (main rows) (group_id o) = 0%nat).
Proof.
  intros Hd Hin. rewrite main_eq in Hin.
  apply in_map_iff in Hin as [rec [<- Hin]].
  change (is_valid (emit (final_assignment (all_records rows)) rec))
    with (rec_valid rec).
  split; intros Hv.
  - rewrite emit_valid_group by exact Hv.
    apply (one_primary_valid rows Hd rec Hin Hv).
  - destruct (emit_invalid rows rec Hv) as (E1 & E2 & E3).
    rewrite E1, E2, E3. split; [auto|]. split; [auto|].
    apply (no_primary_invalid rows Hd rec Hin Hv).
Qed.

(** C2, row-count conservation: the output has as many rows as the input,
    invalid records included, and carries the source ids of the input in
    the same order; every id occurs in the output as often as in the
    input, hence exactly once when the source ids are distinct. *)
Theorem row_count_conservation (rows : list input_row) :
  List.length (main rows) = List.length rows
  /\ map master_id (main rows) = map in_id rows
  /\ (forall id, count_occ Z.eq_dec (map master_id (main rows)) id
                 = count_occ Z.eq_dec (map in_id rows) id)
  /\ (NoDup (map in_id rows) ->
      forall id, In id (map in_id rows) ->
                 count_occ Z.eq_dec (map master_id (main rows)) id = 1%nat).
Proof.
  split; [|split; [|split]].
  - rewrite <- (length_map master_id), out_ids, length_map. reflexivity.
  - apply out_ids.
  - intros id. rewrite out_ids. reflexivity.
  - intros Hd id Hin. rewrite out_ids.
    apply (proj1 (NoDup_count_occ' Z.eq_dec (map in_id rows)) Hd id Hin).
Qed.

Lemma should_merge_same n s : should_merge n n s = Qgeb s MERGE_THRESHOLD.
Proof.
  unfold should_merge, Qltb, Qgeb. rewrite String.eqb_refl.
  destruct (Qle_bool MERGE_THRESHOLD s); reflexivity.
Qed.

Lemma row_of_named rows z o :
  NoDup (map in_id rows) -> In o (main rows) -> master_id o = z ->
  named (id_to_norm (all_records rows)) z ->
  group_id o = group_of (final_assignment (all_records rows)) z.
Proof.
  intros Hd Hin Hid Hn. rewrite main_eq in Hin.
  apply in_map_iff in Hin as [rec [<- Hin]]. simpl in Hid.
  destruct (named_valid rows z Hn) as (rec' & Hin' & Hid' & Hv').
  assert (rec = rec').
  { apply (NoDup_map_eq rec_id (all_records rows)); auto.
    - apply recs_nodup; auto.
    - congruence. }
  subst rec'. rewrite emit_valid_group by auto. congruence.
Qed.

(** C3, exact normalised matches: two records with the same non-empty
    normalised name that are compared at all (they share a block, so the
    pair is a candidate) end in the same group, whatever their score.
    The decision [should_merge] itself accepts two equal names exactly
    when the score reaches the base threshold, which it checks first. *)
Theorem exact_matches_merge (rows : list input_row) (a b : Z) :
  NoDup (map in_id rows) ->
  let norms := id_to_norm (all_records rows) in
  In (a, b) (candidate_pairs (build_blocks norms)) ->
  norm_of norms a = norm_of norms b -> norm_of norms a <> "" ->
  (forall oa ob, In oa (main rows) -> In ob (main rows) ->
                 master_id oa = a -> master_id ob = b ->
                 group_id oa = group_id ob)
  /\ (forall n s, should_merge n n s = Qgeb s MERGE_THRESHOLD).
Proof.
  intros Hd norms Hin Hn Hne. split; [|apply should_merge_same].
  intros oa ob Hoa Hob Ha Hb.
  rewrite (row_of_named rows a oa Hd Hoa Ha) by exact Hne.
  rewrite (row_of_named rows b ob Hd Hob Hb)
    by (unfold named; fold norms; congruence).
  destruct (Z.eq_dec a b) as [->|Hab]; [reflexivity|].
  apply (same_group_of _ _ _ (fin_inv rows)).
  apply split_exact; auto.
  - apply raw_inv.
  - apply cluster_exact; auto.
Qed.

End Claims.

(** * Closed instances of the claims *)

(** C4, normalisation is idempotent: [normalize] is a total function of its
    text, but it is not idempotent.  [^the\s+] removes one leading article
    per call, so a name that starts with two of them loses the second one
    only when it is normalised again; the same happens when the removal of
    a legal suffix uncovers a leading article. *)
Theorem normalize_not_idempotent :
  normalize "the the foo" = "the foo"
  /\ normalize (normalize "the the foo") = "foo"
  /\ normalize "Inc The Foo" = "the foo"
  /\ normalize (normalize "Inc The Foo") = "foo"
  /\ exists x, normalize (normalize x) <> normalize x.
Proof.
  split; [vm_compute; reflexivity|].
  split; [vm_compute; reflexivity|].
  split; [vm_compute; reflexivity|].
  split; [vm_compute; reflexivity|].
  exists "the the foo". vm_compute. discriminate.
Qed.

(** A two-digit string is all digits and at most two characters long: the
    length check comes first, so it is [too_short] and not [numeric_only];
    the empty string is [empty] and not [too_short]. *)
Lemma two_digits_are_too_short :
  forallb is_digit (chars "12") = true
  /\ classify_garbage "12" = Some (too_short 2)
  /\ classify_garbage "12" <> Some numeric_only
  /\ (len "" <= 2)%nat
  /\ classify_garbage "" = Some empty.
Proof.
  split; [vm_compute; reflexivity|].
  split; [vm_compute; reflexivity|].
  split; [vm_compute; discriminate|].
  split; [simpl; lia|].
  vm_compute. reflexivity.
Qed.


(** The remaining instances evaluate the policy and the job under the
    reference scorers of [Rapidfuzz] and the iteration order of lists. *)
Section Reference.
#[local] Existing Instance Rapidfuzz.fuzz.
#[local] Existing Instance list_order.

Lemma sample_ids_distinct : NoDup (map in_id sample_rows).
Proof.
  vm_compute. repeat (constructor; [simpl; intuition discriminate|]).
  constructor.
Qed.

Lemma sample_primary_row_In : In sample_primary_row (main sample_rows).
Proof. vm_compute. left. reflexivity. Qed.

(** Record 3 of [sample_rows] is a placeholder: it is written with its own
    id as group and without the primary flag, so its group has no
    primary. *)
Lemma invalid_group_has_no_primary :
  In sample_placeholder_row (main sample_rows)
  /\ primaries_of_group (main sample_rows) (group_id sample_placeholder_row)
     = 0%nat.
Proof.
  split.
  - vm_compute. right. right. left. reflexivity.
  - vm_compute. reflexivity.
Qed.

Lemma sample_rows_primaries :
  NoDup (map in_id sample_rows)
  /\ In sample_primary_row (main sample_rows)
  /\ primaries_of_group (main sample_rows) (group_id sample_primary_row)
     = 1%nat.
Proof.
  refine (conj sample_ids_distinct (conj sample_primary_row_In _)).
  apply (one_primary_per_valid_cluster sample_rows sample_primary_row
           sample_ids_distinct sample_primary_row_In).
  reflexivity.
Defined.

Lemma sample_rows_conserved :
  NoDup (map in_id sample_rows)
  /\ List.length (main sample_rows) = List.length sample_rows
  /\ map master_id (main sample_rows) = map in_id sample_rows
  /\ count_occ Z.eq_dec (map master_id (main sample_rows)) 3 = 1%nat.
Proof.
  destruct (row_count_conservation sample_rows) as (H1 & H2 & _ & H4).
  refine (conj sample_ids_distinct (conj H1 (conj H2 _))).
  apply (H4 sample_ids_distinct).
  vm_compute. right. right. left. reflexivity.
Defined.

(** An exact match below the base threshold is refused, and two valid
    records with the same normalised name that share no block are never
    compared: they stay in two groups. *)
Lemma exact_match_left_unmerged :
  should_merge "tata motors" "tata motors" 0.5 = false
  /\ id_to_norm (all_records short_name_rows) = [(5, "ab"); (6, "ab")]
  /\ map is_valid (main short_name_rows) = [1; 1]
  /\ map group_id (main short_name_rows) = [5; 6].
Proof.
  split; [vm_compute; reflexivity|].
  split; [vm_compute; reflexivity|].
  split; vm_compute; reflexivity.
Qed.

Lemma sample_rows_exact_match :
  In (1, 2) (candidate_pairs (build_blocks
                                (id_to_norm (all_records sample_rows))))
  /\ norm_of (id_to_norm (all_records sample_rows)) 1 = "tata motors"
  /\ norm_of (id_to_norm (all_records sample_rows)) 2 = "tata motors"
  /\ forall oa ob,
       In oa (main sample_rows) -> In ob (main sample_rows) ->
       master_id oa = 1 -> master_id ob = 2 -> group_id oa = group_id ob.
Proof.
  assert (Hc : In (1, 2) (candidate_pairs
                            (build_blocks
                               (id_to_norm (all_records sample_rows)))))
    by (vm_compute; left; reflexivity).
  assert (H1 : norm_of (id_to_norm (all_records sample_rows)) 1
               = "tata motors") by (vm_compute; reflexivity).
  assert (H2 : norm_of (id_to_norm (all_records sample_rows)) 2
               = "tata motors") by (vm_compute; reflexivity).
  refine (conj Hc (conj H1 (conj H2 _))).
  apply (exact_matches_merge sample_rows 1 2 sample_ids_distinct Hc).
  - rewrite H1, H2. reflexivity.
  - rewrite H1. discriminate.
Defined.

Lemma bare_name_needs_high_score :
  "alpha" <> "alpha home finance"
  /\ should_merge "alpha" "alpha home finance" 0.95 = true
  /\ (0.95 <= 0.95)%Q.
Proof.
  assert (Hn : "alpha" <> "alpha home finance") by discriminate.
  assert (Hm : should_merge "alpha" "alpha home finance" 0.95 = true)
    by (vm_compute; reflexivity).
  refine (conj Hn (conj Hm _)).
  apply (short_name_bridge_prevention "alpha" "alpha home finance" 0.95
           Hn); [|exact Hm].
  vm_compute. lia.
Defined.

(** At its own scores the bare name is united with neither of the two
    longer names. *)
Lemma bare_name_is_no_bridge :
  should_merge "alpha" "alpha home finance"
    (composite_score "alpha" "alpha home finance") = false
  /\ should_merge "alpha" "alpha dbs finance"
       (composite_score "alpha" "alpha dbs finance") = false.
Proof. split; vm_compute; reflexivity. Qed.

(** Every token of the first name is a misspelling of a token of the
    second and the extra token [bank] is a strong differentiator, but
    no token is shared letter for letter: [has_business_conflict] returns
    early, and the pair is united at its score of 0.87. *)
Lemma misspelt_subset_merges :
  subset_with_strong_extra "hindustann aeronauticss"
                           "hindustan aeronautics bank" = true
  /\ (composite_score "hindustann aeronauticss"
                      "hindustan aeronautics bank" < 0.93)%Q
  /\ should_merge "hindustann aeronauticss" "hindustan aeronautics bank"
       (composite_score "hindustann aeronauticss"
                        "hindustan aeronautics bank") = true.
Proof.
  split; [|split].
  - vm_compute. reflexivity.
  - apply Qltb_true. vm_compute. reflexivity.
  - vm_compute. reflexivity.
Qed.

Lemma tata_motors_finance_blocked :
  In "tata" (significant_tokens "tata motors")
  /\ In "tata" (significant_tokens "tata motors finance")
  /\ conflict_real_only (set_of (significant_tokens "tata motors"))
                        (set_of (significant_tokens "tata motors finance"))
     = ([], ["finance"])
  /\ In "finance" STRONG_DIFFERENTIATORS
  /\ should_merge "tata motors" "tata motors finance"
       (composite_score "tata motors" "tata motors finance") = false.
Proof.
  assert (Ha : In "tata" (significant_tokens "tata motors"))
    by (vm_compute; left; reflexivity).
  assert (Hb : In "tata" (significant_tokens "tata motors finance"))
    by (vm_compute; left; reflexivity).
  assert (Hr : conflict_real_only
                 (set_of (significant_tokens "tata motors"))
                 (set_of (significant_tokens "tata motors finance"))
               = ([], ["finance"])) by (vm_compute; reflexivity).
  assert (Hs : In "finance" STRONG_DIFFERENTIATORS)
    by (apply mem_str_In; vm_compute; reflexivity).
  refine (conj Ha (conj Hb (conj Hr (conj Hs _)))).
  apply (strong_differentiator_blocks "tata motors" "tata motors finance"
           [] ["finance"]).
  - exists "tata". exact (conj Ha Hb).
  - exact Hr.
  - left. reflexivity.
  - exists "finance". split; [vm_compute; left; reflexivity | exact Hs].
  - apply Qltb_true. vm_compute. reflexivity.
Defined.

Lemma alpha_beta_consulting_refused :
  significant_tokens "alpha consulting" = ["alpha"; "consulting"]
  /\ significant_tokens "beta consulting" = ["beta"; "consulting"]
  /\ In "consulting" GENERIC_INDUSTRY_TERMS
  /\ forall s, should_merge "alpha consulting" "beta consulting" s = false.
Proof.
  assert (Ha : significant_tokens "alpha consulting"
               = ["alpha"; "consulting"]) by (vm_compute; reflexivity).
  assert (Hb : significant_tokens "beta consulting"
               = ["beta"; "consulting"]) by (vm_compute; reflexivity).
  assert (Hg : In "consulting" GENERIC_INDUSTRY_TERMS)
    by (apply mem_str_In; vm_compute; reflexivity).
  refine (conj Ha (conj Hb (conj Hg _))).
  intros s.
  apply (generic_terms_refused "alpha consulting" "beta consulting"
           ["alpha"] ["beta"] s).
  - exists "consulting". rewrite Ha, Hb. simpl. auto.
  - intros t. rewrite Ha, Hb. simpl.
    intros [H|[H|[]]] [H'|[H'|[]]]; subst; try discriminate; exact Hg.
  - vm_compute. reflexivity.
  - discriminate.
  - discriminate.
Defined.

(** Both tokens of the first name occur in the second, which has two more:
    all of the smaller set is matched, but only half of the larger one,
    and the pair is refused at its score of 0.904. *)
Lemma matched_smaller_set_is_refused :
  (MERGE_THRESHOLD <= composite_score "hindustan aeronautics"
                        "hindustan aeronautics sri ram")%Q
  /\ (composite_score "hindustan aeronautics"
        "hindustan aeronautics sri ram" < AUTO_MERGE_THRESHOLD)%Q
  /\ conflict_fired "hindustan aeronautics" "hindustan aeronautics sri ram"
       (composite_score "hindustan aeronautics"
                        "hindustan aeronautics sri ram") = false
  /\ smaller_set_overlap "hindustan aeronautics"
                         "hindustan aeronautics sri ram" = true
  /\ should_merge "hindustan aeronautics" "hindustan aeronautics sri ram"
       (composite_score "hindustan aeronautics"
                        "hindustan aeronautics sri ram") = false.
Proof.
  split; [|split; [|split; [|split]]].
  - apply Qgeb_true. vm_compute. reflexivity.
  - apply Qltb_true. vm_compute. reflexivity.
  - vm_compute. reflexivity.
  - vm_compute. reflexivity.
  - vm_compute. reflexivity.
Qed.

Lemma misspelt_token_in_medium_band :
  conflict_fired "tata sons group" "tata sons grup" 0.85 = false
  /\ fuzzy_matches (set_of (significant_tokens "tata sons group"))
                   (set_of (significant_tokens "tata sons grup")) = 3%nat
  /\ should_merge "tata sons group" "tata sons grup" 0.85 = true.
Proof.
  assert (Hc : conflict_fired "tata sons group" "tata sons grup" 0.85
               = false) by (vm_compute; reflexivity).
  assert (Hf : fuzzy_matches (set_of (significant_tokens "tata sons group"))
                             (set_of (significant_tokens "tata sons grup"))
               = 3%nat) by (vm_compute; reflexivity).
  refine (conj Hc (conj Hf _)).
  apply (medium_band_overlap "tata sons group" "tata sons grup" 0.85).
  - discriminate.
  - apply Qgeb_true. vm_compute. reflexivity.
  - apply Qltb_true. vm_compute. reflexivity.
  - exact Hc.
  - right. rewrite Hf. vm_compute. lia.
Defined.






End Reference.

(** * Further properties of the union-find *)

Section UnionFindContracts.
Implicit Types (uf : UnionFind) (x y z r : Z).

Lemma touch_known uf x : dmem (parent (touch uf x)) x = true.
Proof. rewrite touch_dmem, Z.eqb_refl. reflexivity. Qed.

Lemma find_rec_direct n uf x :
  dget (parent (fst (find_rec n uf x))) x = Some (snd (find_rec n uf x)).
Proof.
  rewrite find_rec_unfold. cbv zeta.
  destruct (dmem_true_Some _ _ (touch_known uf x)) as [p Hp].
  unfold parent_of, dget_or. rewrite Hp.
  destruct (p =? x); [exact Hp|].
  destruct n as [|n]; [exact Hp|].
  destruct (find_rec n (touch uf x) p) as [uf' r]. simpl.
  apply dget_dset_same.
Qed.

(** X1, [find]: the call keeps the invariant of the structure and returns
    the root of [x], which is the root [x] had before when [x] was known
    and [x] itself when it was not; afterwards [x] points directly at that
    root (path compression), the only new element is [x], and every
    element has the root it had before. *)
Theorem find_contract uf x :
  uf_inv uf ->
  uf_inv (fst (find uf x))
  /\ dget (parent (fst (find uf x))) (snd (find uf x)) = Some (snd (find uf x))
  /\ dget (parent (fst (find uf x))) x = Some (snd (find uf x))
  /\ (dmem (parent uf) x = true -> Rep uf x (snd (find uf x)))
  /\ (dmem (parent uf) x = false ->
      snd (find uf x) = x /\ rank_of (fst (find uf x)) x = 0%nat)
  /\ (forall z, dmem (parent (fst (find uf x))) z
                = ((x =? z) || dmem (parent uf) z)%bool)
  /\ (forall y ry, Rep uf y ry -> Rep (fst (find uf x)) y ry)
  /\ (forall y ry, Rep (fst (find uf x)) y ry -> y <> x -> Rep uf y ry).
Proof.
  intros Hinv.
  pose proof (find_root uf x Hinv) as Hroot.
  destruct (find_spec uf x Hinv) as (Hinv' & Hkeys & Hrank & Hrep & _).
  split; [exact Hinv'|].
  split; [exact (Rep_is_root _ _ _ Hroot)|].
  split; [apply find_rec_direct|].
  split.
  { intros Hx. rewrite (touch_mem uf x Hx) in Hrep. exact Hrep. }
  split.
  { intros Hx.
    assert (Hr : Rep (fst (find uf x)) x x).
    { apply (find_Rep uf x x x Hinv). right. auto. }
    split; [exact (Rep_det _ _ _ _ Hroot Hr)|].
    rewrite (rank_of_ext _ _ x Hrank).
    unfold touch. rewrite Hx. unfold rank_of, dget_or. simpl.
    rewrite dget_dset_same. reflexivity. }
  split; [intros z; apply find_dmem; exact Hinv|].
  split.
  - intros y ry H. apply (find_Rep uf x y ry Hinv). left. exact H.
  - intros y ry H Hne. apply (find_Rep uf x y ry Hinv) in H.
    destruct H as [H|(_ & H & _)]; [exact H|contradiction].
Qed.

Lemma find_rec_fuel n :
  forall uf x, uf_inv uf -> dmem (parent uf) x = true ->
               (max_rank uf - rank_of uf x <= n)%nat ->
               forall m, (n <= m)%nat -> find_rec m uf x = find_rec n uf x.
Proof.
  induction n as [|n IH]; intros uf x Hinv Hx Hn m Hm;
    rewrite (find_rec_unfold m), (find_rec_unfold _ uf x), (touch_mem uf x Hx);
    cbv zeta;
    destruct (dmem_true_Some _ _ Hx) as [p Hp];
    unfold parent_of, dget_or; rewrite Hp;
    destruct (Z.eqb_spec p x) as [->|Hne]; try reflexivity.
  - pose proof (inv_rank uf Hinv x p Hp Hne).
    pose proof (rank_le_max uf p). lia.
  - destruct m as [|m]; [lia|].
    assert (Hpd : dmem (parent uf) p = true) by (eapply inv_closed; eauto).
    assert (Hpn : (max_rank uf - rank_of uf p <= n)%nat).
    { pose proof (inv_rank uf Hinv x p Hp Hne). lia. }
    rewrite (IH uf p Hinv Hpd Hpn m) by lia. reflexivity.
Qed.

(** X2, depth of [find]: the recursion of [find] never goes deeper than the
    largest rank stored in the structure, so a larger bound on the depth
    gives the same structure and the same root. *)
Theorem find_depth_bounded uf x n :
  uf_inv uf -> (max_rank uf <= n)%nat -> find_rec n uf x = find uf x.
Proof.
  intros Hinv Hn. unfold find.
  rewrite (find_rec_touch n), (find_rec_touch (max_rank uf)).
  apply find_rec_fuel; auto.
  - apply touch_inv. exact Hinv.
  - apply touch_known.
  - rewrite max_rank_touch by exact Hinv. lia.
Qed.

Lemma conn_same uf a b :
  conn uf a b -> dmem (parent uf) a = true -> uf_inv uf -> same uf a b.
Proof.
  intros [->|H] Ha Hinv; [apply same_refl; auto|exact H].
Qed.

(** X3, [union]: the call keeps the invariant, puts [x] and [y] in one
    class, adds no element but [x] and [y], keeps together what was
    together, and joins nothing but the classes of [x] and [y]; when [x]
    and [y] were in one class already, the classes are unchanged. *)
Theorem union_contract uf x y :
  uf_inv uf ->
  uf_inv (union uf x y)
  /\ same (union uf x y) x y
  /\ (forall z, dmem (parent (union uf x y)) z
                = ((x =? z) || (y =? z) || dmem (parent uf) z)%bool)
  /\ (forall a b, same uf a b -> same (union uf x y) a b)
  /\ (forall a b, same (union uf x y) a b ->
        conn uf a b \/ (conn uf a x /\ conn uf y b)
        \/ (conn uf a y /\ conn uf x b))
  /\ (same uf x y -> forall a b, same (union uf x y) a b <-> same uf a b).
Proof.
  intros Hinv.
  split; [apply union_inv; exact Hinv|].
  split; [apply union_same_xy; exact Hinv|].
  split; [intros z; apply union_dmem; exact Hinv|].
  split; [intros a b; apply union_same_mono; exact Hinv|].
  split; [intros a b; apply union_same_inv; exact Hinv|].
  intros Hxy a b. split; [|apply union_same_mono; exact Hinv].
  intros H.
  destruct (same_dom _ _ _ Hxy) as [Hx Hy].
  assert (Hdom : forall z, dmem (parent (union uf x y)) z = true ->
                           dmem (parent uf) z = true).
  { intros z. rewrite (union_dmem uf x y z Hinv).
    destruct (Z.eqb_spec x z) as [<-|_]; [auto|].
    destruct (Z.eqb_spec y z) as [<-|_]; auto. }
  destruct (same_dom _ _ _ H) as [Ha Hb].
  apply Hdom in Ha, Hb.
  assert (Hc : forall u v, conn uf u v -> dmem (parent uf) u = true ->
                           same uf u v)
    by (intros u v Huv Hu; apply (conn_same uf u v Huv Hu Hinv)).
  destruct (union_same_inv uf x y a b Hinv H) as [C|[[C1 C2]|[C1 C2]]].
  - apply Hc; auto.
  - apply (same_trans uf a x b); [apply Hc; auto|].
    apply (same_trans uf x y b); [exact Hxy|apply Hc; auto].
  - apply (same_trans uf a y b); [apply Hc; auto|].
    apply (same_trans uf y x b); [apply same_sym; exact Hxy|apply Hc; auto].
Qed.

(** X4, [groups]: the result lists every known element in exactly one
    group; a group is filed under its root, which is one of its members,
    and holds, without repetition, exactly the elements of one class. *)
Theorem groups_partition uf :
  uf_inv uf ->
  NoDup (dkeys (snd (groups uf)))
  /\ (forall r ms, In (r, ms) (snd (groups uf)) ->
        NoDup ms /\ In r ms /\ forall a, In a ms <-> Rep uf a r)
  /\ (forall a, dmem (parent uf) a = true ->
        exists r ms, In (r, ms) (snd (groups uf)) /\ In a ms)
  /\ (forall r1 ms1 r2 ms2 a,
        In (r1, ms1) (snd (groups uf)) -> In (r2, ms2) (snd (groups uf)) ->
        In a ms1 -> In a ms2 -> r1 = r2 /\ ms1 = ms2)
  /\ (forall r ms a b, In (r, ms) (snd (groups uf)) -> In a ms ->
        (In b ms <-> same uf a b)).
Proof.
  intros Hinv.
  destruct (groups_spec uf Hinv) as (_ & _ & _ & Hnd & Hg & Hall).
  split; [exact Hnd|].
  split.
  { intros r ms Hin. destruct (Hg r ms Hin) as (Hn & Hne & Hm).
    split; [exact Hn|]. split; [|exact Hm].
    destruct ms as [|a ms']; [congruence|].
    apply Hm. apply (Rep_root_self uf a r). apply Hm. left. reflexivity. }
  split.
  { intros a Ha. destruct (Rep_exists uf a Hinv Ha) as [r Hr].
    destruct (Hall a r Hr) as [ms Hin].
    exists r, ms. split; [exact Hin|].
    apply (Hg r ms Hin). exact Hr. }
  split.
  { intros r1 ms1 r2 ms2 a H1 H2 Ha1 Ha2.
    apply (Hg r1 ms1 H1) in Ha1. apply (Hg r2 ms2 H2) in Ha2.
    assert (r1 = r2) by exact (Rep_det _ _ _ _ Ha1 Ha2). subst r2.
    split; [reflexivity|].
    apply (raw_unique uf Hinv r1 ms1 ms2 H1 H2). }
  intros r ms a b Hin Ha.
  apply (Hg r ms Hin) in Ha. split.
  - intros Hb. apply (Hg r ms Hin) in Hb. exists r. split; assumption.
  - intros [r' [Ha' Hb']].
    assert (r' = r) by exact (Rep_det _ _ _ _ Ha' Ha). subst r'.
    apply (Hg r ms Hin). exact Hb'.
Qed.
End UnionFindContracts.

(** * Further properties of the merge policy *)

Lemma Qltb_above (s c d : Q) : (c <= d)%Q -> (d <= s)%Q -> Qltb s c = false.
Proof.
  intros Hcd Hds. apply Qltb_false. apply (Qle_trans _ d); assumption.
Qed.

Lemma Qltb_mono (s s' c : Q) : (s <= s')%Q -> Qltb s c = false -> Qltb s' c = false.
Proof.
  intros Hs H. apply Qltb_false in H. apply Qltb_false.
  apply (Qle_trans _ s); assumption.
Qed.

Lemma Qgeb_mono (s s' c : Q) : (s <= s')%Q -> Qgeb s c = true -> Qgeb s' c = true.
Proof.
  intros Hs H. apply Qgeb_true in H. apply Qgeb_true.
  apply (Qle_trans _ s); assumption.
Qed.

Section PolicyShape.
Context {fz : Fuzz} {ho : HashOrder}.

Lemma conflict_high a b s : (0.95 <= s)%Q -> has_business_conflict a b s = false.
Proof.
  intros Hs. unfold has_business_conflict.
  destruct (is_empty _); [reflexivity|].
  destruct (_ && _)%bool; [reflexivity|].
  destruct (conflict_real_only _ _) as [ra rb].
  destruct (_ && _)%bool; [reflexivity|].
  destruct (_ || _)%bool.
  - destruct (negb _); [|reflexivity].
    apply (Qltb_above s 0.93 0.95); [discriminate|exact Hs].
  - destruct (_ || _)%bool.
    + apply (Qltb_above s 0.95 0.95); [discriminate|exact Hs].
    + apply (Qltb_above s 0.90 0.95); [discriminate|exact Hs].
Qed.

Lemma conflict_mono a b s s' :
  (s <= s')%Q -> has_business_conflict a b s = false ->
  has_business_conflict a b s' = false.
Proof.
  intros Hs. unfold has_business_conflict.
  destruct (is_empty _); [auto|].
  destruct (_ && _)%bool; [auto|].
  destruct (conflict_real_only _ _) as [ra rb].
  destruct (_ && _)%bool; [auto|].
  destruct (_ || _)%bool.
  - destruct (negb _); [|auto]. apply Qltb_mono; exact Hs.
  - destruct (_ || _)%bool; apply Qltb_mono; exact Hs.
Qed.

Lemma generic_mono ta tb s s' :
  (s <= s')%Q -> generic_protection ta tb s = false ->
  generic_protection ta tb s' = false.
Proof.
  intros Hs. unfold generic_protection.
  destruct (is_empty _); [auto|].
  destruct (negb _); [auto|].
  destruct (generic_real_only _ _) as [ra rb].
  destruct (_ && _)%bool; [auto|].
  destruct (_ && _)%bool; [auto|].
  destruct (existsb _ _); simpl; [|auto].
  apply Qltb_mono; exact Hs.
Qed.

(** X5, [has_business_conflict] never blocks a pair at a score of 0.95 or
    more, a pair without a shared significant token, or a pair whose
    significant-token sets are equal. *)
Theorem business_conflict_never (a b : string) (s : Q) :
  ((0.95 <= s)%Q -> has_business_conflict a b s = false)
  /\ ((forall t, In t (significant_tokens a) ->
                 ~ In t (significant_tokens b)) ->
      has_business_conflict a b s = false)
  /\ ((forall t, In t (significant_tokens a) <->
                 In t (significant_tokens b)) ->
      has_business_conflict a b s = false).
Proof.
  split; [apply conflict_high|]. split.
  - intros Hno. unfold has_business_conflict.
    replace (set_inter (set_of (significant_tokens a))
                       (set_of (significant_tokens b))) with (@nil string);
      [reflexivity|].
    symmetry. apply In_nil_eq. intros t Ht.
    apply set_inter_In in Ht as [Ha Hb].
    apply (proj1 (set_of_In _ _)) in Ha. apply (proj1 (set_of_In _ _)) in Hb.
    exact (Hno t Ha Hb).
  - intros Heq. unfold has_business_conflict.
    destruct (is_empty _); [reflexivity|].
    replace (set_diff (set_of (significant_tokens a))
                      (set_of (significant_tokens b))) with (@nil string).
    2:{ symmetry. apply In_nil_eq. intros t Ht.
        apply set_diff_In in Ht as [Ha Hb]. apply Hb.
        apply (proj2 (set_of_In _ _)). apply (proj1 (Heq t)).
        apply (proj1 (set_of_In _ _)). exact Ha. }
    replace (set_diff (set_of (significant_tokens b))
                      (set_of (significant_tokens a))) with (@nil string).
    2:{ symmetry. apply In_nil_eq. intros t Ht.
        apply set_diff_In in Ht as [Hb Ha]. apply Ha.
        apply (proj2 (set_of_In _ _)). apply (proj2 (Heq t)).
        apply (proj1 (set_of_In _ _)). exact Hb. }
    reflexivity.
Qed.

(** X6, the decision is monotone in the score: a pair that [should_merge]
    accepts at one score is accepted at every higher score. *)
Theorem should_merge_monotone (a b : string) (s s' : Q) :
  (s <= s')%Q -> should_merge a b s = true -> should_merge a b s' = true.
Proof.
  intros Hs. unfold should_merge.
  destruct (Qltb s MERGE_THRESHOLD) eqn:E1; [discriminate|].
  rewrite (Qltb_mono s s' _ Hs E1).
  destruct (String.eqb a b); [auto|].
  destruct (Nat.leb _ 1); simpl.
  - destruct (Qltb s 0.95) eqn:E2; [discriminate|].
    rewrite (Qltb_mono s s' _ Hs E2).
    destruct (generic_protection _ _ s) eqn:E3; [discriminate|].
    rewrite (generic_mono _ _ s s' Hs E3).
    destruct (has_business_conflict a b s) eqn:E4; [discriminate|].
    rewrite (conflict_mono a b s s' Hs E4).
    destruct (Qgeb s AUTO_MERGE_THRESHOLD) eqn:E5.
    + rewrite (Qgeb_mono s s' _ Hs E5). auto.
    + destruct (Qgeb s' AUTO_MERGE_THRESHOLD); auto.
  - destruct (generic_protection _ _ s) eqn:E3; [discriminate|].
    rewrite (generic_mono _ _ s s' Hs E3).
    destruct (has_business_conflict a b s) eqn:E4; [discriminate|].
    rewrite (conflict_mono a b s s' Hs E4).
    destruct (Qgeb s AUTO_MERGE_THRESHOLD) eqn:E5.
    + rewrite (Qgeb_mono s s' _ Hs E5). auto.
    + destruct (Qgeb s' AUTO_MERGE_THRESHOLD); auto.
Qed.

(** X7, the decision at a score of 0.95 or more: two different names are
    refused exactly when they share a significant token, every shared token
    is a generic industry term, and after typo-folding each side keeps a
    token the other lacks; no other check can refuse them. *)
Theorem high_score_refusal (a b : string) (s : Q) :
  a <> b -> (0.95 <= s)%Q ->
  (should_merge a b s = false <->
   set_inter (set_of (significant_tokens a)) (set_of (significant_tokens b))
   <> []
   /\ set_diff (set_inter (set_of (significant_tokens a))
                          (set_of (significant_tokens b)))
               GENERIC_INDUSTRY_TERMS = []
   /\ fst (generic_real_only (set_of (significant_tokens a))
                             (set_of (significant_tokens b))) <> []
   /\ snd (generic_real_only (set_of (significant_tokens a))
                             (set_of (significant_tokens b))) <> []).
Proof.
  intros Hab Hs.
  assert (G : generic_protection (significant_tokens a) (significant_tokens b) s
              = true <->
              set_inter (set_of (significant_tokens a))
                        (set_of (significant_tokens b)) <> []
              /\ set_diff (set_inter (set_of (significant_tokens a))
                                     (set_of (significant_tokens b)))
                          GENERIC_INDUSTRY_TERMS = []
              /\ fst (generic_real_only (set_of (significant_tokens a))
                                        (set_of (significant_tokens b))) <> []
              /\ snd (generic_real_only (set_of (significant_tokens a))
                                        (set_of (significant_tokens b))) <> []).
  { unfold generic_protection. cbv zeta.
    rewrite (Qltb_above s 0.95 0.95) by (discriminate || exact Hs).
    destruct (set_inter _ _) as [|t sh] eqn:Esh.
    { cbn [is_empty]. split; [intros [=]|]. intros [H _]. congruence. }
    cbn [is_empty]. rewrite <- Esh.
    destruct (set_diff (set_inter _ _) GENERIC_INDUSTRY_TERMS) as [|d ds] eqn:Ed.
    2:{ cbn [is_empty negb]. split; [intros [=]|].
        intros (_ & H & _). congruence. }
    cbn [is_empty negb].
    destruct (generic_real_only _ _) as [ra rb]. cbn [fst snd].
    assert (Hne : set_inter (set_of (significant_tokens a))
                            (set_of (significant_tokens b)) <> [])
      by (rewrite Esh; discriminate).
    destruct ra as [|x ra], rb as [|y rb]; cbn [is_empty negb andb];
      rewrite ?andb_false_r.
    - split; [intros [=]|]. intros (_ & _ & H & _). congruence.
    - split; [intros [=]|]. intros (_ & _ & H & _). congruence.
    - split; [intros [=]|]. intros (_ & _ & _ & H). congruence.
    - split; [intros _|reflexivity].
      repeat split; try assumption; discriminate. }
  unfold should_merge. cbv zeta.
  rewrite (Qltb_above s MERGE_THRESHOLD 0.95) by (discriminate || exact Hs).
  destruct (String.eqb a b) eqn:E; [apply String.eqb_eq in E; contradiction|].
  rewrite (Qltb_above s 0.95 0.95) by (discriminate || exact Hs).
  rewrite andb_false_r.
  rewrite conflict_high by exact Hs.
  assert (Hauto : Qgeb s AUTO_MERGE_THRESHOLD = true).
  { apply Qgeb_true. apply (Qle_trans _ 0.95); [discriminate|exact Hs]. }
  rewrite Hauto.
  destruct (generic_protection _ _ s).
  - split; [intros _; apply G; reflexivity|reflexivity].
  - split; [intros [=]|]. intros H. apply G in H. discriminate.
Qed.

End PolicyShape.

(** * Further properties of [primary_score] *)

Lemma q_min_unit (x : Q) : (0 <= x)%Q -> (0 <= q_min x 1 <= 1)%Q.
Proof.
  intros Hx. unfold q_min. destruct (Qle_bool x 1) eqn:E.
  - apply Qle_bool_iff in E. split; assumption.
  - split; discriminate.
Qed.

Lemma length_bonus_nonneg (n : nat) : (0 <= inject_Z (Z.of_nat n) / 30)%Q.
Proof.
  unfold Qdiv. apply Qmult_le_0_compat; [|discriminate].
  change 0%Q with (inject_Z 0). rewrite <- Zle_Qle. lia.
Qed.

Lemma type_bonus_other (t : string) :
  t <> "Company" -> (0 <= type_bonus t <= 90)%Q.
Proof.
  intros Ht. unfold type_bonus.
  destruct (String.eqb_spec t "Company") as [->|_]; [contradiction|].
  destruct (String.eqb t "Companny"); [split; discriminate|].
  destruct (String.eqb t "Group"); [split; discriminate|].
  destruct (String.eqb t "Archived"); split; discriminate.
Qed.

Lemma proper_label_nonempty (l : string) :
  (2 <= len (strip l))%nat -> String.eqb l "" = false.
Proof.
  intros H. destruct l; [simpl in H; lia|reflexivity].
Qed.

Lemma primary_score_bounds (l t : string) :
  (2 <= len (strip l))%nat ->
  (type_bonus t - 2 <= primary_score l t <= type_bonus t + 4)%Q.
Proof.
  intros H. unfold primary_score.
  rewrite (proper_label_nonempty l H).
  replace (Nat.ltb (len (strip l)) 2) with false
    by (symmetry; apply Nat.ltb_ge; exact H).
  cbn [orb]. cbv zeta.
  pose proof (q_min_unit _ (length_bonus_nonneg (len (strip l)))) as Hq.
  set (b := type_bonus t) in *. set (q := q_min _ 1) in *.
  clearbody b q.
  destruct (String.eqb l (upper l)), (String.eqb l (lower l)),
    (first_is_upper l), (re_search LEGAL_SIMPLE l), (Nat.leb 5 (len (strip l)));
    destruct (_ || _)%bool; split; lra.
Qed.

(** X9, ranking by [primary_score]: a label of fewer than two characters
    after stripping scores -10; any other label scores between the bonus of
    its source type minus 2 and that bonus plus 4.  Hence a record of type
    [Company] always scores higher than a record of another type, and a
    blank label scores lower than every proper one. *)
Theorem primary_score_ranking (l1 l2 l0 t t' : string) :
  (2 <= len (strip l1))%nat -> (2 <= len (strip l2))%nat ->
  (len (strip l0) < 2)%nat ->
  (type_bonus t - 2 <= primary_score l1 t <= type_bonus t + 4)%Q
  /\ (t <> "Company" ->
      (primary_score l2 t < primary_score l1 "Company")%Q)
  /\ (primary_score l0 t' == -10)%Q
  /\ (primary_score l0 t' < primary_score l1 t)%Q.
Proof.
  intros H1 H2 H0.
  pose proof (primary_score_bounds l1 t H1) as B1.
  assert (B0 : (primary_score l0 t' == -10)%Q).
  { unfold primary_score.
    replace (Nat.ltb (len (strip l0)) 2) with true
      by (symmetry; apply Nat.ltb_lt; exact H0).
    rewrite orb_true_r. reflexivity. }
  assert (Hb : (0 <= type_bonus t)%Q).
  { unfold type_bonus.
    destruct (String.eqb t "Company"); [discriminate|].
    destruct (String.eqb t "Companny"); [discriminate|].
    destruct (String.eqb t "Group"); [discriminate|].
    destruct (String.eqb t "Archived"); discriminate. }
  split; [exact B1|]. split; [|split; [exact B0|]].
  - intros Ht.
    pose proof (primary_score_bounds l2 t H2) as B2.
    pose proof (primary_score_bounds l1 "Company" H1) as B3.
    pose proof (type_bonus_other t Ht) as Bt.
    change (type_bonus "Company") with 100%Q in B3. lra.
  - rewrite B0. lra.
Qed.

(** * Further properties of [classify_garbage] *)

Section ClassRuns.
Context {A : Type}.
Variable p : ascii -> bool.
Variable f : text -> option A.

(** A greedy run over one character class fails exactly when the
    continuation fails after every prefix of the input that lies in the
    class. *)
Lemma star_class_none :
  forall n prev s, (List.length s <= n)%nat ->
    (star_loop (rx (Chr p)) (fun _ rest => f rest) n prev s = None <->
     forall run rest, s = (run ++ rest)%list -> forallb p run = true ->
                      f rest = None).
Proof.
  induction n as [|n IH]; intros prev s Hn.
  - destruct s; [|simpl in Hn; lia]. simpl. split.
    + intros H run rest E _. symmetry in E.
      apply app_eq_nil in E as [_ ->]. exact H.
    + intros H. apply (H [] []); reflexivity.
  - cbn [star_loop rx]. destruct s as [|c s'].
    + split.
      * intros H run rest E _. symmetry in E.
        apply app_eq_nil in E as [_ ->]. exact H.
      * intros H. apply (H [] []); reflexivity.
    + destruct (p c) eqn:Hc.
      * replace (List.length s' <? List.length (c :: s'))%nat with true
          by (symmetry; apply Nat.ltb_lt; simpl; lia).
        assert (Hn' : (List.length s' <= n)%nat) by (simpl in Hn; lia).
        specialize (IH (Some c) s' Hn'). cbn [rx] in IH.
        destruct (star_loop _ _ n (Some c) s') as [x|] eqn:E; cbv beta iota.
        -- split; [intros [=]|]. intros H.
           assert (E' : Some x = None).
           { apply IH. intros run rest Hs Hr.
             apply (H (c :: run) rest); [simpl; congruence|].
             simpl. rewrite Hc. exact Hr. }
           discriminate.
        -- split.
           ++ intros H run rest Hs Hr. destruct run as [|c' run].
              ** simpl in Hs. subst rest. exact H.
              ** simpl in Hs. injection Hs as <- Hs. simpl in Hr.
                 apply andb_true_iff in Hr as [_ Hr].
                 apply (proj1 IH eq_refl run rest Hs Hr).
           ++ intros H. apply (H [] (c :: s')); reflexivity.
      * split.
        -- intros H run rest Hs Hr. destruct run as [|c' run].
           ++ simpl in Hs. subst rest. exact H.
           ++ simpl in Hs. injection Hs as <- Hs. simpl in Hr.
              rewrite Hc in Hr. discriminate.
        -- intros H. apply (H [] (c :: s')); reflexivity.
Qed.

Lemma classic_run (t : text) :
  (forall run rest, t = (run ++ rest)%list -> forallb p run = true ->
                    f rest = None)
  \/ (exists run rest, t = (run ++ rest)%list /\ forallb p run = true
                       /\ f rest <> None).
Proof.
  induction t as [|c t IH].
  - destruct (f []) as [x|] eqn:E.
    + right. exists [], []. rewrite E. repeat split. discriminate.
    + left. intros run rest Hs _. symmetry in Hs.
      apply app_eq_nil in Hs as [_ ->]. exact E.
  - destruct (f (c :: t)) as [x|] eqn:E.
    { right. exists [], (c :: t). rewrite E. repeat split. discriminate. }
    destruct (p c) eqn:Hc.
    + destruct IH as [IH|(run & rest & Hs & Hr & Hf)].
      * left. intros run rest Hs Hr. destruct run as [|c' run].
        -- simpl in Hs. subst rest. exact E.
        -- simpl in Hs. injection Hs as <- Hs. simpl in Hr.
           apply andb_true_iff in Hr as [_ Hr]. exact (IH run rest Hs Hr).
      * right. exists (c :: run), rest. split; [simpl; congruence|].
        split; [simpl; rewrite Hc; exact Hr|exact Hf].
    + left. intros run rest Hs Hr. destruct run as [|c' run].
      * simpl in Hs. subst rest. exact E.
      * simpl in Hs. injection Hs as <- Hs. simpl in Hr.
        rewrite Hc in Hr. discriminate.
Qed.
End ClassRuns.

(** [^[class]+$] matches a text exactly when a non-empty run of the class
    is followed by the end of the text or by a final newline. *)
Lemma anchored_class_match (p : ascii -> bool) (s : string) :
  re_match (anchored (Plus (Chr p))) s = true <->
  exists run rest, chars s = (run ++ rest)%list /\ run <> []
                   /\ forallb p run = true /\ at_eol rest = true.
Proof.
  unfold re_match, match_here, anchored, Plus. cbn [seqs rx is_none].
  destruct (chars s) as [|c t] eqn:E.
  - simpl. split; [intros [=]|].
    intros (run & rest & Hs & Hne & _). destruct run; [congruence|discriminate].
  - destruct (p c) eqn:Hc.
    + change (fun (prev' : option ascii) (s' : text) =>
                if at_eol s' then Some s' else None)
        with (fun (_ : option ascii) (rest : text) => eol_rest rest).
      pose proof (star_class_none p eol_rest (List.length t) (Some c) t
                    (Nat.le_refl _)) as H. cbn [rx] in H.
      destruct (star_loop _ _ _ _ _) as [x|] eqn:Es; cbv beta iota.
      * split; [intros _|reflexivity].
        destruct (classic_run p eol_rest t) as [Hnone|Hsome].
        -- assert (Some x = None) by (apply H; exact Hnone). discriminate.
        -- destruct Hsome as (run & rest & Hs & Hr & He).
           exists (c :: run), rest. split; [simpl; congruence|].
           split; [intros [=]|]. split; [simpl; rewrite Hc; exact Hr|].
           unfold eol_rest in He. destruct (at_eol rest); congruence.
      * split; [intros [=]|].
        intros (run & rest & Hs & Hne & Hr & He).
        destruct run as [|c' run]; [congruence|].
        simpl in Hs. injection Hs as <- Hs. simpl in Hr.
        apply andb_true_iff in Hr as [_ Hr].
        pose proof (proj1 H eq_refl run rest Hs Hr) as Hf.
        unfold eol_rest in Hf. rewrite He in Hf. discriminate.
    + simpl. split; [intros [=]|].
      intros (run & rest & Hs & Hne & Hr & _).
      destruct run as [|c' run]; [congruence|].
      simpl in Hs. injection Hs as <- Hs. simpl in Hr.
      rewrite Hc in Hr. discriminate.
Qed.

Lemma at_eol_cases (rest : text) :
  at_eol rest = true <-> rest = [] \/ rest = [newline].
Proof.
  destruct rest as [|c [|c' rest]]; simpl.
  - split; auto.
  - split.
    + intros H. apply Ascii.eqb_eq in H. subst c. right. reflexivity.
    + intros [H|H]; [discriminate|]. injection H as ->. reflexivity.
  - split; [discriminate|]. intros [H|H]; discriminate.
Qed.

Lemma chars_nonempty (s : string) : chars s <> [] <-> s <> "".
Proof. destruct s; simpl; split; intros H; congruence. Qed.

Lemma special_only_match (s : string) :
  re_match SPECIAL_ONLY_RE s = true <->
  s <> "" /\ forallb is_special (chars s) = true.
Proof.
  change SPECIAL_ONLY_RE with (anchored (Plus (Chr is_special))).
  rewrite anchored_class_match. split.
  - intros (run & rest & Hs & Hne & Hr & He). split.
    + apply chars_nonempty. rewrite Hs. destruct run; [congruence|discriminate].
    + rewrite Hs, forallb_app, Hr.
      apply at_eol_cases in He as [->| ->]; reflexivity.
  - intros [Hne Hall]. exists (chars s), []. rewrite app_nil_r.
    split; [reflexivity|]. split; [apply chars_nonempty; exact Hne|].
    split; [exact Hall|reflexivity].
Qed.

Lemma numeric_only_match_iff (s : string) :
  re_match NUMERIC_ONLY_RE s = true <->
  exists ds, ds <> [] /\ forallb is_digit ds = true
             /\ (chars s = ds \/ chars s = (ds ++ [newline])%list).
Proof.
  change NUMERIC_ONLY_RE with (anchored (Plus (Chr is_digit))).
  rewrite anchored_class_match. split.
  - intros (run & rest & Hs & Hne & Hr & He). exists run.
    split; [exact Hne|]. split; [exact Hr|].
    apply at_eol_cases in He as [->| ->]; [left|right]; [|exact Hs].
    rewrite Hs, app_nil_r. reflexivity.
  - intros (ds & Hne & Hr & [Hs|Hs]).
    + exists ds, []. rewrite app_nil_r. auto.
    + exists ds, [newline]. auto.
Qed.

Lemma digits_not_special (ds rest : text) :
  ds <> [] -> forallb is_digit ds = true ->
  forallb is_special (ds ++ rest) = false.
Proof.
  intros Hne Hd. destruct ds as [|c ds]; [congruence|].
  simpl in *. apply andb_true_iff in Hd as [Hc _].
  unfold is_special at 1. rewrite Hc, orb_true_r. reflexivity.
Qed.

Ltac rest_of_chain :=
  repeat match goal with
         | |- context [if ?c then _ else _] => destruct c
         end.

(** C5, priority order of [classify_garbage]: the result is the first
    reason, in the order [empty], [too_short], [special_chars_only],
    [numeric_only], [placeholder], [job_title_not_company],
    [job_role_not_company], [independent_not_company], [non_company], whose
    check accepts the text.  So the length check comes before the digit
    check: a string of digits is [numeric_only] when it has at least three
    characters, and a string of one or two characters is [too_short]
    whatever it holds; the empty string is [empty]; a 7-bit string of three
    or more characters none of which is a letter or a digit is
    [special_chars_only]; the strings [test], [n/a] and [tbd] are
    [placeholder]. *)
Theorem classify_priority (s : string) :
  (forallb is_digit (chars s) = true -> (3 <= len s)%nat ->
     classify_garbage s = Some numeric_only)
  /\ ((1 <= len s <= 2)%nat -> classify_garbage s = Some (too_short (len s)))
  /\ classify_garbage "" = Some empty
  /\ classify_garbage "test" = Some placeholder
  /\ classify_garbage "n/a" = Some placeholder
  /\ classify_garbage "tbd" = Some placeholder
  /\ (seven_bit s = true -> (3 <= len s)%nat ->
      forallb is_special (chars s) = true ->
      classify_garbage s = Some special_chars_only)
  /\ classify_garbage s = first_reason s.
Proof.
  split; [|split; [|split; [|split; [|split; [|split; [|split]]]]]].
  - intros Hd Hl. destruct (len_le_2_eqb s Hl) as [E1 E2].
    unfold classify_garbage. rewrite E1, E2.
    destruct (chars s) as [|c t] eqn:E.
    { rewrite len_chars, E in Hl. simpl in Hl. lia. }
    assert (Hc : is_digit c = true).
    { simpl in Hd. apply andb_true_iff in Hd. tauto. }
    rewrite (special_only_no_match s c t E) by (rewrite Hc; apply orb_true_r).
    assert (Hd' : forallb is_digit (chars s) = true) by (rewrite E; exact Hd).
    assert (Hne : s <> "") by (intros ->; simpl in Hl; lia).
    rewrite (numeric_only_match s Hd' Hne). reflexivity.
  - intros [H1 H2]. unfold classify_garbage.
    destruct s; [simpl in H1; lia|]. simpl String.eqb.
    replace (Nat.leb (len (String a s)) 2) with true; auto.
    symmetry. apply Nat.leb_le. exact H2.
  - vm_compute. reflexivity.
  - vm_compute. reflexivity.
  - vm_compute. reflexivity.
  - vm_compute. reflexivity.
  - intros _ Hl Hall. destruct (len_le_2_eqb s Hl) as [E1 E2].
    unfold classify_garbage. rewrite E1, E2.
    assert (Hm : re_match SPECIAL_ONLY_RE s = true).
    { apply special_only_match. split; [|exact Hall].
      intros ->. simpl in Hl. lia. }
    rewrite Hm. reflexivity.
  - reflexivity.
Qed.

Lemma classify_priority_examples :
  classify_garbage "12345" = Some numeric_only
  /\ classify_garbage "ab" = Some (too_short 2)
  /\ classify_garbage "tbd" = Some placeholder
  /\ seven_bit "-/-" = true
  /\ classify_garbage "-/-" = Some special_chars_only.
Proof.
  split; [|split; [|split; [|split; [reflexivity|]]]].
  - apply (proj1 (classify_priority "12345")).
    + reflexivity.
    + simpl. lia.
  - apply (proj1 (proj2 (classify_priority "ab"))). simpl. lia.
  - exact (proj1 (proj2 (proj2 (proj2 (proj2 (proj2
             (classify_priority "tbd"))))))).
  - apply (proj1 (proj2 (proj2 (proj2 (proj2 (proj2 (proj2
             (classify_priority "-/-")))))))).
    + reflexivity.
    + simpl. lia.
    + reflexivity.
Defined.

(** X10, the structural reasons of [classify_garbage] are exact on 7-bit
    text: such a text is [empty] exactly when it has no character,
    [too_short] exactly when it has one or two, [special_chars_only]
    exactly when it has three or more and none is a letter or a digit, and
    [numeric_only] exactly when it has three or more and consists of
    digits, possibly followed by one final newline. *)
Theorem classify_structural_reasons (s : string) :
  seven_bit s = true ->
  (classify_garbage s = Some empty <-> s = "")
  /\ (forall n, classify_garbage s = Some (too_short n) <->
                (1 <= len s <= 2)%nat /\ n = len s)
  /\ (classify_garbage s = Some special_chars_only <->
      (3 <= len s)%nat /\ forallb is_special (chars s) = true)
  /\ (classify_garbage s = Some numeric_only <->
      (3 <= len s)%nat
      /\ exists ds, ds <> [] /\ forallb is_digit ds = true
                    /\ (chars s = ds \/ chars s = (ds ++ [newline])%list)).
Proof.
  intros _.
  assert (Hlen : s <> "" -> (1 <= len s)%nat).
  { destruct s; [congruence|simpl; lia]. }
  unfold classify_garbage.
  destruct (String.eqb_spec s "") as [->|Hne].
  { split; [tauto|]. split; [|split].
    - intros n. split; [intros [=]|]. simpl. lia.
    - split; [intros [=]|]. simpl. lia.
    - split; [intros [=]|]. simpl. lia. }
  specialize (Hlen Hne).
  destruct (Nat.leb_spec (len s) 2) as [Hle|Hgt].
  { split; [split; [intros [=]|congruence]|]. split; [|split].
    - intros n. split; [intros [= <-]; lia|].
      intros [_ ->]. reflexivity.
    - split; [intros [=]|]. lia.
    - split; [intros [=]|]. lia. }
  destruct (re_match SPECIAL_ONLY_RE s) eqn:Esp.
  { apply special_only_match in Esp as [_ Hall].
    split; [split; [intros [=]|congruence]|]. split; [|split].
    - intros n. split; [intros [=]|]. lia.
    - split; [intros _|reflexivity]. split; [lia|exact Hall].
    - split; [intros [=]|].
      intros (_ & ds & Hd & Hr & [Hs|Hs]).
      + rewrite Hs, <- (app_nil_r ds), (digits_not_special ds [] Hd Hr) in Hall.
        discriminate.
      + rewrite Hs, (digits_not_special ds _ Hd Hr) in Hall. discriminate. }
  assert (Hnsp : ~ forallb is_special (chars s) = true).
  { intros Hall.
    assert (re_match SPECIAL_ONLY_RE s = true)
      by (apply special_only_match; auto).
    congruence. }
  destruct (re_match NUMERIC_ONLY_RE s) eqn:Enum.
  { apply numeric_only_match_iff in Enum.
    split; [split; [intros [=]|congruence]|]. split; [|split].
    - intros n. split; [intros [=]|]. lia.
    - split; [intros [=]|]. intros [_ H]. contradiction.
    - split; [intros _|reflexivity]. split; [lia|exact Enum]. }
  assert (Hnnum : ~ exists ds, ds <> [] /\ forallb is_digit ds = true
                     /\ (chars s = ds \/ chars s = (ds ++ [newline])%list)).
  { intros H. apply numeric_only_match_iff in H. congruence. }
  split; [split; [rest_of_chain; intros [=]|congruence]|]. split; [|split].
  - intros n. split; [rest_of_chain; intros [=]|]. lia.
  - split; [rest_of_chain; intros [=]|]. intros [_ H]. contradiction.
  - split; [rest_of_chain; intros [=]|]. intros [_ H]. contradiction.
Qed.

(** X11, the names [classify_garbage] accepts: a 7-bit text that gets no
    reason has at least three characters, at least one of them a letter or
    a digit, and at least one of them not a digit. *)
Theorem accepted_name_shape (s : string) :
  seven_bit s = true -> classify_garbage s = None ->
  (3 <= len s)%nat
  /\ existsb (fun c => (is_alpha c || is_digit c)%bool) (chars s) = true
  /\ existsb (fun c => negb (is_digit c)) (chars s) = true.
Proof.
  intros _. unfold classify_garbage.
  destruct (String.eqb_spec s "") as [->|Hne]; [intros [=]|].
  destruct (Nat.leb_spec (len s) 2) as [Hle|Hgt]; [intros [=]|].
  destruct (re_match SPECIAL_ONLY_RE s) eqn:Esp; [intros [=]|].
  destruct (re_match NUMERIC_ONLY_RE s) eqn:Enum; [intros [=]|].
  intros _. split; [lia|]. split.
  - destruct (existsb _ (chars s)) eqn:E; [reflexivity|].
    assert (re_match SPECIAL_ONLY_RE s = true); [|congruence].
    apply special_only_match. split; [exact Hne|].
    apply forallb_forall. intros c Hc. unfold is_special.
    destruct (is_alpha c || is_digit c)%bool eqn:Ec; [|reflexivity].
    assert (existsb (fun c => (is_alpha c || is_digit c)%bool) (chars s) = true)
      by (apply existsb_exists; exists c; auto).
    congruence.
  - destruct (existsb _ (chars s)) eqn:E; [reflexivity|].
    assert (re_match NUMERIC_ONLY_RE s = true); [|congruence].
    apply numeric_only_match_iff. exists (chars s).
    split; [apply chars_nonempty; exact Hne|]. split; [|left; reflexivity].
    apply forallb_forall. intros c Hc.
    destruct (is_digit c) eqn:Ec; [reflexivity|].
    assert (existsb (fun c => negb (is_digit c)) (chars s) = true)
      by (apply existsb_exists; exists c; rewrite Ec; auto).
    congruence.
Qed.

(** * Further properties of the batch job *)

Section JobShape.
Context {fz : Fuzz} {ho : HashOrder}.

Lemma emit_valid_primary rows rec :
  rec_valid rec = 1 ->
  is_primary (emit (final_assignment (all_records rows)) rec)
  = primary_of (final_assignment (all_records rows)) (rec_id rec).
Proof. intros Hv. unfold emit. simpl. rewrite Hv. reflexivity. Qed.

Lemma primary_of_cases rows x :
  primary_of (final_assignment (all_records rows)) x = 0
  \/ primary_of (final_assignment (all_records rows)) x = 1.
Proof.
  pose proof (fin_inv rows) as Hinv.
  destruct (dmem (parent (final_clusters (all_records rows))) x) eqn:Hx.
  - destruct (member_group _ Hinv x Hx) as (r & ms & Hin & Hxm & _).
    destruct (select_in_group (id_to_cleaned (all_records rows))
                (id_to_type (all_records rows)) _ Hinv r ms x Hin Hxm)
      as [_ E].
    unfold final_assignment. fold (raw_groups_of (final_clusters (all_records rows))).
    rewrite E. unfold flag. destruct (_ =? _); auto.
  - right.
    apply (select_outside (id_to_cleaned (all_records rows))
             (id_to_type (all_records rows)) _ Hinv x Hx).
Qed.

Lemma primary_row_exists (rows : list input_row) (o : output_row) :
  NoDup (map in_id rows) -> In o (main rows) -> is_valid o = 1 ->
  exists p, In p (main rows) /\ master_id p = group_id o /\ is_valid p = 1
            /\ is_primary p = 1 /\ group_id p = group_id o.
Proof.
  intros Hd Hin Hv. rewrite main_eq in Hin.
  apply in_map_iff in Hin as [rec [<- Hin]].
  change (is_valid (emit (final_assignment (all_records rows)) rec))
    with (rec_valid rec) in Hv.
  rewrite (emit_valid_group rows rec Hv).
  pose proof (fin_inv rows) as Hinv.
  destruct (group_of_valid rows rec Hin Hv) as (rec' & Hin' & Hid' & Hv').
  exists (emit (final_assignment (all_records rows)) rec').
  assert (Hg : group_of (final_assignment (all_records rows)) (rec_id rec')
               = rec_id rec').
  { rewrite Hid'.
    apply (group_of_idem (id_to_cleaned (all_records rows))
             (id_to_type (all_records rows)) _ Hinv). }
  split; [rewrite main_eq; apply in_map; exact Hin'|].
  split; [exact Hid'|]. split; [exact Hv'|].
  rewrite (emit_valid_group rows rec' Hv'), (emit_valid_primary rows rec' Hv').
  split; [|congruence].
  apply (primary_iff (id_to_cleaned (all_records rows))
           (id_to_type (all_records rows)) _ Hinv). exact Hg.
Qed.

Lemma primary_flag_iff (rows : list input_row) (o : output_row) :
  In o (main rows) -> is_valid o = 1 ->
  (is_primary o = 1 <-> group_id o = master_id o).
Proof.
  intros Hin Hv. rewrite main_eq in Hin.
  apply in_map_iff in Hin as [rec [<- Hin]].
  change (is_valid (emit (final_assignment (all_records rows)) rec))
    with (rec_valid rec) in Hv.
  rewrite (emit_valid_group rows rec Hv), (emit_valid_primary rows rec Hv).
  apply (primary_iff (id_to_cleaned (all_records rows))
           (id_to_type (all_records rows)) _ (fin_inv rows)).
Qed.

Lemma primary_flag_cases (rows : list input_row) (o : output_row) :
  In o (main rows) -> is_primary o = 0 \/ is_primary o = 1.
Proof.
  intros Hin. rewrite main_eq in Hin.
  apply in_map_iff in Hin as [rec [<- Hin]].
  destruct (rec_valid_cases rows rec Hin) as [Hv|Hv].
  - left. apply (emit_invalid rows rec Hv).
  - rewrite (emit_valid_primary rows rec Hv). apply primary_of_cases.
Qed.

(** X12, [group_id] names the primary: when the source ids are distinct,
    the [group_id] of a valid row is the [master_id] of a valid row of the
    output that is flagged primary and belongs to the same group; a valid
    row is flagged primary exactly when its [group_id] is its own
    [master_id], and the flag of every row is 0 or 1. *)
Theorem group_id_names_primary (rows : list input_row) (o : output_row) :
  NoDup (map in_id rows) -> In o (main rows) -> is_valid o = 1 ->
  (exists p, In p (main rows) /\ master_id p = group_id o /\ is_valid p = 1
             /\ is_primary p = 1 /\ group_id p = group_id o)
  /\ (is_primary o = 1 <-> group_id o = master_id o)
  /\ (forall o', In o' (main rows) -> is_primary o' = 0 \/ is_primary o' = 1).
Proof.
  intros Hd Hin Hv. split; [|split].
  - apply primary_row_exists; assumption.
  - apply (primary_flag_iff rows); assumption.
  - intros o'. apply (primary_flag_cases rows).
Qed.

Lemma raw_known rows z :
  dmem (parent (raw_clusters (all_records rows))) z = true ->
  exists ab, In ab (candidate_pairs
                      (build_blocks (id_to_norm (all_records rows))))
             /\ (z = fst ab \/ z = snd ab).
Proof.
  unfold raw_clusters. cbv zeta. rewrite cluster_unions.
  rewrite unions_dmem by apply uf_new_inv.
  intros [H|[ab [Hin Hz]]]; [discriminate|].
  exists ab. split; [|exact Hz].
  apply filter_In in Hin as [Hin _]. apply (proj1 (order_In _ _)) in Hin.
  exact Hin.
Qed.

Lemma outside_is_alone (rows : list input_row) (o : output_row) :
  NoDup (map in_id rows) -> In o (main rows) -> is_valid o = 1 ->
  dmem (parent (final_clusters (all_records rows))) (master_id o) = false ->
  group_id o = master_id o /\ is_primary o = 1
  /\ forall o', In o' (main rows) -> group_id o' = master_id o -> o' = o.
Proof.
  intros Hd Hin Hv Hout.
  pose proof (fin_inv rows) as Hinv.
  destruct (select_outside (id_to_cleaned (all_records rows))
              (id_to_type (all_records rows)) _ Hinv _ Hout) as [Eg Ep].
  rewrite main_eq in Hin. apply in_map_iff in Hin as [rec [<- Hin]].
  change (is_valid (emit (final_assignment (all_records rows)) rec))
    with (rec_valid rec) in Hv.
  change (master_id (emit (final_assignment (all_records rows)) rec))
    with (rec_id rec) in *.
  rewrite (emit_valid_group rows rec Hv), (emit_valid_primary rows rec Hv).
  split; [exact Eg|]. split; [exact Ep|].
  intros o' Hin' Hg'. rewrite main_eq in Hin'.
  apply in_map_iff in Hin' as [rec' [<- Hin']]. f_equal.
  apply (NoDup_map_eq rec_id (all_records rows)); auto.
  { apply recs_nodup. exact Hd. }
  destruct (rec_valid_cases rows rec' Hin') as [Hv'|Hv'].
  - destruct (emit_invalid rows rec' Hv') as (_ & E & _). congruence.
  - rewrite (emit_valid_group rows rec' Hv') in Hg'.
    destruct (group_of_member (id_to_cleaned (all_records rows))
                (id_to_type (all_records rows)) _ Hinv (rec_id rec'))
      as [E|E].
    + unfold final_assignment in Hg'.
      fold (raw_groups_of (final_clusters (all_records rows))) in Hg'.
      congruence.
    + unfold final_assignment in Hg'.
      fold (raw_groups_of (final_clusters (all_records rows))) in Hg'.
      rewrite Hg' in E. congruence.
Qed.

Lemma clustered_is_paired rows z :
  dmem (parent (final_clusters (all_records rows))) z = true ->
  exists a b, In (a, b) (candidate_pairs
                           (build_blocks (id_to_norm (all_records rows))))
              /\ (z = a \/ z = b).
Proof.
  intros E. apply split_dmem in E; [|apply raw_inv].
  apply raw_known in E as ([a b] & Hab & Hz). exists a, b. auto.
Qed.

(** X13, records outside every candidate pair: when the source ids are
    distinct, a valid row whose id occurs in no candidate pair is written
    as a group of its own, flagged primary, and no other row carries its
    id as [group_id]. *)
Theorem uncompared_record_is_alone (rows : list input_row) (o : output_row) :
  NoDup (map in_id rows) -> In o (main rows) -> is_valid o = 1 ->
  (forall a b, In (a, b) (candidate_pairs
                            (build_blocks (id_to_norm (all_records rows)))) ->
               a <> master_id o /\ b <> master_id o) ->
  group_id o = master_id o /\ is_primary o = 1
  /\ forall o', In o' (main rows) -> group_id o' = master_id o -> o' = o.
Proof.
  intros Hd Hin Hv Hno.
  apply outside_is_alone; try assumption.
  destruct (dmem _ (master_id o)) eqn:E; [|reflexivity].
  apply clustered_is_paired in E as (a & b & Hab & Hz).
  destruct (Hno a b Hab) as [Ha Hb]. destruct Hz; congruence.
Qed.
End JobShape.

Section ClusterShape.
Context {fz : Fuzz} {ho : HashOrder}.

Lemma raw_clusters_inv recs : uf_inv (raw_clusters recs).
Proof. apply (cluster_ok (id_to_norm recs)). Qed.

Lemma accepted_link_sym norms a b :
  clos_trans Z (accepted_link norms) a b ->
  clos_trans Z (accepted_link norms) b a.
Proof.
  induction 1 as [x y H|x y z _ IH1 _ IH2].
  - apply t_step. destruct H; [right|left]; assumption.
  - apply (t_trans _ _ _ y); assumption.
Qed.

Lemma raw_edges recs a b :
  In (a, b) (filter (link_pair (id_to_norm recs))
               (order (candidate_pairs (build_blocks (id_to_norm recs)))))
  <-> accepted_pair (id_to_norm recs) a b.
Proof.
  rewrite filter_In, order_In. unfold accepted_pair, link_pair. simpl.
  reflexivity.
Qed.

Lemma raw_same_chain recs a b :
  same (raw_clusters recs) a b ->
  clos_trans Z (accepted_link (id_to_norm recs)) a b.
Proof.
  unfold raw_clusters. cbv zeta. rewrite cluster_unions. intros Hs.
  assert (He : a = b \/ clos_trans Z (accepted_link (id_to_norm recs)) a b).
  { revert a b Hs.
    apply (unions_sound
             (fun x y => x = y
                         \/ clos_trans Z (accepted_link (id_to_norm recs)) x y)).
    - intros x. left. reflexivity.
    - intros x y [->|H]; [left; reflexivity|right].
      apply accepted_link_sym. exact H.
    - intros x y z [->|H1] [->|H2]; auto.
      right. apply (t_trans _ _ _ y); assumption.
    - apply uf_new_inv.
    - intros x y H. destruct (same_uf_new x y H).
    - intros [x y] Hin. simpl. right. apply t_step. left.
      apply raw_edges. exact Hin. }
  destruct He as [<-|He]; [|exact He].
  destruct (same_dom _ _ _ Hs) as [Ha _].
  apply unions_dmem in Ha; [|apply uf_new_inv].
  destruct Ha as [Ha|[[x y] [Hin Hz]]]; [discriminate|].
  apply raw_edges in Hin. simpl in Hz. destruct Hz as [->| ->].
  - apply (t_trans _ _ _ y); apply t_step; [left|right]; exact Hin.
  - apply (t_trans _ _ _ x); apply t_step; [right|left]; exact Hin.
Qed.

(** X14, the clusters of step 6 are the connected components of the
    accepted candidate pairs: two records are in one raw cluster exactly
    when a chain of candidate pairs, each accepted by the merge decision,
    leads from one to the other. *)
Theorem raw_clusters_are_components (recs : list record) (a b : Z) :
  same (raw_clusters recs) a b <->
  clos_trans Z (accepted_link (id_to_norm recs)) a b.
Proof.
  split; [apply raw_same_chain|].
  unfold raw_clusters. cbv zeta. rewrite cluster_unions.
  induction 1 as [x y H|x y z _ IH1 _ IH2].
  - destruct H as [H|H]; apply raw_edges in H.
    + apply unions_edge; [apply uf_new_inv|exact H].
    + apply same_sym. apply unions_edge; [apply uf_new_inv|exact H].
  - apply (same_trans _ x y z); assumption.
Qed.

Lemma rebuild_small norms uf a b :
  uf_inv uf -> same uf a b -> a <> b -> small uf a ->
  same (rebuild norms (raw_groups_of uf) (oversized_of uf)) a b.
Proof.
  intros Hinv [r [Ha Hb]] Hab (r' & ms & Hin & Hams & Ho).
  assert (Ha' : Rep uf a r') by (apply (raw_members uf Hinv r' ms); auto).
  pose proof (Rep_det _ _ _ _ Ha' Ha). subst r'.
  assert (Hbms : In b ms) by (apply (raw_members uf Hinv r ms); auto).
  rewrite rebuild_unions. unfold rebuild_edges. rewrite unions_app.
  apply unions_mono; [apply unions_inv, uf_new_inv|].
  assert (Hd : dmem (oversized_of uf) r = false)
    by (rewrite (ov_dmem uf Hinv r ms Hin); exact Ho).
  apply in_split in Hin as [l1 [l2 El]]. rewrite El.
  rewrite flat_map_app, unions_app. simpl flat_map. rewrite Hd.
  rewrite unions_app. apply unions_mono.
  { apply unions_inv, unions_inv, uf_new_inv. }
  apply star_same; auto.
  - apply unions_inv, uf_new_inv.
  - apply sorted_Z_In; auto.
  - apply sorted_Z_In; auto.
Qed.

Lemma split_refines norms uf a b :
  uf_inv uf -> same (split_oversized norms uf) a b -> same uf a b.
Proof.
  intros Hinv. rewrite split_unfold. cbv zeta.
  destruct (is_empty _); [apply groups_same; exact Hinv|].
  destruct (Nat.ltb 0 _); [|apply groups_same; exact Hinv].
  intros Hs. fold (raw_groups_of uf) in Hs. fold (oversized_of uf) in Hs.
  destruct (rebuild_sound norms uf Hinv a b Hs) as [->|[H _]]; [|exact H].
  destruct (same_dom _ _ _ Hs) as [Hb _].
  apply (rebuild_dmem norms uf Hinv) in Hb.
  apply same_refl; assumption.
Qed.

(** X15, step 6b only splits: two records in one final cluster were in one
    raw cluster; two different records of a raw cluster of at most
    [MAX_GROUP_SIZE] members stay in one cluster; and without an oversized
    raw cluster the clusters are unchanged. *)
Theorem splitter_only_splits (recs : list record) (a b : Z) :
  (same (final_clusters recs) a b -> same (raw_clusters recs) a b)
  /\ (same (raw_clusters recs) a b -> a <> b ->
      small (raw_clusters recs) a -> same (final_clusters recs) a b)
  /\ (oversized_of (raw_clusters recs) = [] ->
      (same (final_clusters recs) a b <-> same (raw_clusters recs) a b)).
Proof.
  pose proof (raw_clusters_inv recs) as Hinv.
  split; [|split].
  - apply split_refines. exact Hinv.
  - intros Hs Hab Hsm. unfold final_clusters.
    rewrite split_unfold. cbv zeta.
    destruct (is_empty _); [apply groups_same; assumption|].
    destruct (Nat.ltb 0 _); [|apply groups_same; assumption].
    apply rebuild_small; assumption.
  - intros Hov. unfold final_clusters. rewrite split_unfold. cbv zeta.
    fold (raw_groups_of (raw_clusters recs)).
    fold (oversized_of (raw_clusters recs)). rewrite Hov. simpl.
    apply groups_same. exact Hinv.
Qed.
End ClusterShape.

(** * Further properties of primary selection *)

Section BestScore.
Context {ho : HashOrder}.
Variables cleaned types : dict Z string.

Lemma insert_scored_head (x : Z * Q) (l : list (Z * Q)) :
  (forall h t, l = h :: t -> forall y, In y l -> (snd y <= snd h)%Q) ->
  forall h t, insert_scored x l = h :: t ->
              forall y, In y (insert_scored x l) -> (snd y <= snd h)%Q.
Proof.
  intros Hl. destruct l as [|z l]; simpl.
  - intros h t [= <- <-] y [<-|[]]. apply Qle_refl.
  - specialize (Hl z l eq_refl).
    destruct (Qltb (snd x) (snd z)) eqn:E.
    + intros h t [= <- <-] y [<-|Hy]; [apply Qle_refl|].
      apply (Permutation_in _ (insert_scored_perm x l)) in Hy.
      destruct Hy as [<-|Hy].
      * apply Qlt_le_weak. apply Qltb_true. exact E.
      * apply Hl. right. exact Hy.
    + intros h t [= <- <-] y [<-|Hy]; [apply Qle_refl|].
      apply Qltb_false in E.
      apply (Qle_trans _ (snd z)); [apply Hl; exact Hy|exact E].
Qed.

Lemma sort_scored_head (l : list (Z * Q)) :
  forall h t, sort_scored l = h :: t ->
              forall y, In y (sort_scored l) -> (snd y <= snd h)%Q.
Proof.
  induction l as [|x l IH]; simpl; [discriminate|].
  apply insert_scored_head. exact IH.
Qed.

Lemma best_is_max (ms : list Z) (x : Z) :
  In x ms ->
  (snd (scored cleaned types x)
   <= snd (scored cleaned types (best cleaned types ms)))%Q.
Proof.
  intros Hx. unfold best, scored_members.
  remember (sort_scored (map (scored cleaned types) (order ms))) as L eqn:EL.
  assert (Hp : Permutation L (map (scored cleaned types) (order ms)))
    by (rewrite EL; apply sort_scored_perm).
  assert (HxL : In (scored cleaned types x) L).
  { apply (Permutation_in _ (Permutation_sym Hp)). apply in_map.
    apply (Permutation_in _ (Permutation_sym (order_perm _ ms))). exact Hx. }
  destruct L as [|h t]; [destruct HxL|].
  assert (Hh : In h (map (scored cleaned types) (order ms))).
  { apply (Permutation_in _ Hp). left. reflexivity. }
  apply in_map_iff in Hh as [m [Hm _]].
  symmetry in EL.
  pose proof (sort_scored_head _ h t EL (scored cleaned types x)) as H.
  rewrite EL in H. specialize (H HxL).
  simpl best_id. rewrite <- Hm in H |- *. exact H.
Qed.
End BestScore.

(** [strip] leaves nothing to strip. *)

Lemma lstrip_t_head (t : text) :
  match lstrip_t t with [] => True | c :: _ => is_space c = false end.
Proof.
  induction t as [|c t IH]; simpl; [exact I|].
  destruct (is_space c) eqn:E; [exact IH|exact E].
Qed.

Lemma lstrip_t_fix (t : text) :
  match t with [] => True | c :: _ => is_space c = false end ->
  lstrip_t t = t.
Proof. destruct t as [|c t]; simpl; [reflexivity|intros ->; reflexivity]. Qed.

Lemma lstrip_t_idem (t : text) : lstrip_t (lstrip_t t) = lstrip_t t.
Proof. apply lstrip_t_fix, lstrip_t_head. Qed.

Lemma lstrip_t_snoc (l : text) (c : ascii) :
  is_space c = false -> exists l', lstrip_t (l ++ [c])%list = (l' ++ [c])%list.
Proof.
  intros Hc. induction l as [|d l IH]; simpl.
  - rewrite Hc. exists []. reflexivity.
  - destruct (is_space d); [exact IH|]. exists (d :: l). reflexivity.
Qed.

Lemma rstrip_t_head (t : text) :
  match t with [] => True | c :: _ => is_space c = false end ->
  match rstrip_t t with [] => t = [] | c :: _ => is_space c = false end.
Proof.
  destruct t as [|c t]; [intros _; reflexivity|]. intros Hc.
  unfold rstrip_t. simpl rev.
  destruct (lstrip_t_snoc (rev t) c Hc) as [l' ->].
  rewrite rev_app_distr. simpl. exact Hc.
Qed.

Lemma rstrip_t_idem (t : text) : rstrip_t (rstrip_t t) = rstrip_t t.
Proof. unfold rstrip_t. rewrite rev_involutive, lstrip_t_idem. reflexivity. Qed.

Lemma strip_idem (s : string) : strip (strip s) = strip s.
Proof.
  unfold strip. rewrite chars_str. f_equal.
  pose proof (rstrip_t_head (lstrip_t (chars s)) (lstrip_t_head (chars s))) as H.
  rewrite lstrip_t_fix.
  - apply rstrip_t_idem.
  - destruct (rstrip_t (lstrip_t (chars s))); [exact I|exact H].
Qed.

Lemma clean_name_stripped (label : string) :
  strip (clean_name label) = clean_name label.
Proof.
  unfold clean_name. destruct (String.eqb label ""); [reflexivity|].
  cbv zeta. apply strip_idem.
Qed.

Lemma accepted_len (s : string) :
  classify_garbage s = None -> (3 <= len s)%nat.
Proof.
  unfold classify_garbage.
  destruct (String.eqb s ""); [discriminate|].
  destruct (Nat.leb_spec (len s) 2); [discriminate|]. intros _. lia.
Qed.

(** Lookups in a dictionary built from a list without repeated keys. *)

Lemma dict_of_acc {V} (l : list (Z * V)) :
  forall d, NoDup (map fst (d ++ l)) ->
            fold_left (fun d kv => dset d (fst kv) (snd kv)) l d = (d ++ l)%list.
Proof.
  induction l as [|[k v] l IH]; intros d Hnd; simpl.
  - rewrite app_nil_r. reflexivity.
  - assert (Hk : dget d k = None).
    { apply dmem_false_None. destruct (dmem d k) eqn:E; [|reflexivity].
      apply dmem_In in E. rewrite map_app in Hnd. simpl in Hnd.
      apply NoDup_remove_2 in Hnd. exfalso. apply Hnd.
      apply in_or_app. left. exact E. }
    rewrite (dset_new d k v Hk), IH.
    + rewrite <- app_assoc. reflexivity.
    + rewrite <- app_assoc. exact Hnd.
Qed.

Lemma dict_of_get {V} (l : list (Z * V)) (k : Z) (v : V) :
  NoDup (map fst l) -> In (k, v) l -> dget (dict_of l) k = Some v.
Proof.
  intros Hnd Hin. unfold dict_of. rewrite (dict_of_acc l []) by exact Hnd.
  simpl. apply NoDup_keys_In_dget; assumption.
Qed.

Lemma distinct_after_filter {R K : Type} (keep : R -> bool) (key : R -> K) :
  forall rs, NoDup (map key rs) -> NoDup (map key (filter keep rs)).
Proof.
  intros rs. induction rs as [|x l IH]; simpl; intros H; [constructor|].
  inversion H as [|? ? Hx Hl]; subst.
  destruct (keep x); simpl; [|apply IH; exact Hl].
  constructor; [|apply IH; exact Hl].
  intros Hin. apply Hx. apply in_map_iff in Hin as [y [E Hy]].
  apply filter_In in Hy as [Hy _]. rewrite <- E. apply in_map. exact Hy.
Qed.

Section Lookups.
Variable rows : list input_row.
Hypothesis ids_distinct : NoDup (map in_id rows).

Lemma valid_reason rec :
  In rec (all_records rows) -> rec_valid rec = 1 ->
  classify_garbage (rec_cleaned rec) = None /\ rec_reason rec = None.
Proof.
  unfold all_records. rewrite in_map_iff. intros [row [<- _]].
  unfold load_record. simpl.
  destruct (classify_garbage _); simpl; [discriminate|auto].
Qed.

Lemma valid_is_valid_record rec :
  In rec (all_records rows) -> rec_valid rec = 1 -> is_valid_record rec = true.
Proof.
  intros Hin Hv. unfold is_valid_record. rewrite Hv. simpl.
  destruct (valid_reason rec Hin Hv) as [Hc _].
  apply accepted_len in Hc.
  destruct (rec_cleaned rec); [simpl in Hc; lia|reflexivity].
Qed.

Lemma cleaned_lookup rec :
  In rec (all_records rows) -> rec_valid rec = 1 ->
  dget_or (id_to_cleaned (all_records rows)) (rec_id rec) "" = rec_cleaned rec.
Proof.
  intros Hin Hv. unfold dget_or, id_to_cleaned, valid_records.
  rewrite (dict_of_get _ (rec_id rec) (rec_cleaned rec)); [reflexivity| |].
  - rewrite map_map. simpl. apply distinct_after_filter.
    rewrite rec_ids. exact ids_distinct.
  - apply in_map_iff. exists rec. split; [reflexivity|].
    apply filter_In. split; [exact Hin|].
    apply valid_is_valid_record; assumption.
Qed.

Lemma norm_lookup rec :
  In rec (all_records rows) -> rec_valid rec = 1 ->
  dget (id_to_norm (all_records rows)) (rec_id rec)
  = Some (normalize (rec_cleaned rec)).
Proof.
  intros Hin Hv. unfold id_to_norm, valid_records.
  apply dict_of_get.
  - rewrite !map_map. simpl. apply distinct_after_filter.
    rewrite rec_ids. exact ids_distinct.
  - rewrite map_map. simpl. apply in_map_iff. exists rec.
    split; [reflexivity|].
    apply filter_In. split; [exact Hin|].
    apply valid_is_valid_record; assumption.
Qed.

Lemma type_lookup rec :
  In rec (all_records rows) ->
  dget_or (id_to_type (all_records rows)) (rec_id rec) "Company" = rec_type rec.
Proof.
  intros Hin. unfold dget_or, id_to_type.
  rewrite (dict_of_get _ (rec_id rec) (rec_type rec)); [reflexivity| |].
  - rewrite map_map. simpl. rewrite rec_ids. exact ids_distinct.
  - apply in_map_iff. exists rec. split; [reflexivity|exact Hin].
Qed.

Lemma scored_lookup rec :
  In rec (all_records rows) -> rec_valid rec = 1 ->
  snd (scored (id_to_cleaned (all_records rows))
              (id_to_type (all_records rows)) (rec_id rec))
  = primary_score (rec_cleaned rec) (rec_type rec).
Proof.
  intros Hin Hv. unfold scored. simpl.
  rewrite (cleaned_lookup rec Hin Hv), (type_lookup rec Hin). reflexivity.
Qed.
End Lookups.

Section PrimaryChoice.
Context {fz : Fuzz} {ho : HashOrder}.

Lemma valid_cleaned_proper rows rec :
  In rec (all_records rows) -> rec_valid rec = 1 ->
  (2 <= len (strip (rec_cleaned rec)))%nat.
Proof.
  intros Hin Hv. destruct (valid_reason rows rec Hin Hv) as [Hc _].
  apply accepted_len in Hc.
  assert (E : strip (rec_cleaned rec) = rec_cleaned rec).
  { unfold all_records in Hin. apply in_map_iff in Hin as [row [<- _]].
    apply clean_name_stripped. }
  rewrite E. lia.
Qed.

Lemma primary_scores_best rows rec recp :
  NoDup (map in_id rows) ->
  In rec (all_records rows) -> In recp (all_records rows) ->
  rec_valid rec = 1 -> rec_valid recp = 1 ->
  group_of (final_assignment (all_records rows)) (rec_id rec) = rec_id recp ->
  (primary_score (rec_cleaned rec) (rec_type rec)
   <= primary_score (rec_cleaned recp) (rec_type recp))%Q.
Proof.
  intros Hd Hin Hinp Hv Hvp Hg.
  pose proof (fin_inv rows) as Hinv.
  rewrite <- (scored_lookup rows Hd rec Hin Hv).
  rewrite <- (scored_lookup rows Hd recp Hinp Hvp).
  destruct (dmem (parent (final_clusters (all_records rows))) (rec_id rec))
    eqn:Hx.
  - destruct (member_group _ Hinv _ Hx) as (r & ms & Hg' & Hxm & _).
    destruct (select_in_group (id_to_cleaned (all_records rows))
                (id_to_type (all_records rows)) _ Hinv r ms _ Hg' Hxm)
      as [E _].
    unfold final_assignment in Hg.
    fold (raw_groups_of (final_clusters (all_records rows))) in Hg.
    rewrite E in Hg. rewrite <- Hg. apply best_is_max. exact Hxm.
  - destruct (select_outside (id_to_cleaned (all_records rows))
                (id_to_type (all_records rows)) _ Hinv _ Hx) as [E _].
    unfold final_assignment in Hg.
    fold (raw_groups_of (final_clusters (all_records rows))) in Hg.
    rewrite E in Hg. rewrite Hg. apply Qle_refl.
Qed.

(** X16, the primary of a group is its best-scored member: when the source
    ids are distinct, no valid row of a group has a higher [primary_score]
    than the row flagged primary; in particular, when a group holds a row of
    source type [Company], its primary is of type [Company]. *)
Theorem primary_is_best_scored (rows : list input_row) (o p : output_row) :
  NoDup (map in_id rows) -> In o (main rows) -> In p (main rows) ->
  is_valid o = 1 -> is_valid p = 1 ->
  group_id o = group_id p -> is_primary p = 1 ->
  (primary_score (company_name o) (source_type o)
   <= primary_score (company_name p) (source_type p))%Q
  /\ (source_type o = "Company" -> source_type p = "Company").
Proof.
  intros Hd Ho Hp Hvo Hvp Hg Hpri.
  pose proof (fin_inv rows) as Hinv.
  rewrite main_eq in Ho, Hp.
  apply in_map_iff in Ho as [rec [<- Hin]].
  apply in_map_iff in Hp as [recp [<- Hinp]].
  change (is_valid (emit (final_assignment (all_records rows)) rec))
    with (rec_valid rec) in Hvo.
  change (is_valid (emit (final_assignment (all_records rows)) recp))
    with (rec_valid recp) in Hvp.
  rewrite (emit_valid_group rows rec Hvo), (emit_valid_group rows recp Hvp)
    in Hg.
  rewrite (emit_valid_primary rows recp Hvp) in Hpri.
  apply (primary_iff (id_to_cleaned (all_records rows))
           (id_to_type (all_records rows)) _ Hinv) in Hpri.
  change (group_of (final_assignment (all_records rows)) (rec_id recp)
          = rec_id recp) in Hpri.
  rewrite Hpri in Hg.
  pose proof (primary_scores_best rows rec recp Hd Hin Hinp Hvo Hvp Hg) as Hle.
  change (company_name (emit (final_assignment (all_records rows)) rec))
    with (rec_cleaned rec).
  change (company_name (emit (final_assignment (all_records rows)) recp))
    with (rec_cleaned recp).
  change (source_type (emit (final_assignment (all_records rows)) rec))
    with (rec_type rec).
  change (source_type (emit (final_assignment (all_records rows)) recp))
    with (rec_type recp).
  split; [exact Hle|].
  intros Ht. destruct (String.eqb_spec (rec_type recp) "Company") as [E|E];
    [exact E|exfalso].
  pose proof (valid_cleaned_proper rows rec Hin Hvo) as L1.
  pose proof (valid_cleaned_proper rows recp Hinp Hvp) as L2.
  pose proof (primary_score_bounds (rec_cleaned recp) (rec_type recp) L2) as B2.
  pose proof (primary_score_bounds (rec_cleaned rec) "Company" L1) as B1.
  pose proof (type_bonus_other (rec_type recp) E) as Bt.
  rewrite Ht in Hle. change (type_bonus "Company") with 100%Q in B1. lra.
Qed.
End PrimaryChoice.

(** * Further properties of blocking *)

Section SortedIds.
Lemma insert_Z_sorted (x : Z) (l : list Z) :
  StronglySorted Z.le l -> StronglySorted Z.le (insert_Z x l).
Proof.
  induction l as [|y l IH]; simpl; intros Hs.
  - constructor; constructor.
  - inversion Hs as [|? ? Hl Hy]; subst.
    destruct (Z.leb_spec x y) as [Hxy|Hxy].
    + constructor; [exact Hs|]. constructor; [exact Hxy|].
      apply Forall_forall. intros z Hz.
      rewrite Forall_forall in Hy. specialize (Hy z Hz). lia.
    + constructor; [apply IH; exact Hl|].
      apply Forall_forall. intros z Hz. apply insert_Z_In in Hz.
      destruct Hz as [->|Hz]; [lia|].
      rewrite Forall_forall in Hy. apply Hy. exact Hz.
Qed.

Lemma sorted_Z_sorted (l : list Z) : StronglySorted Z.le (sorted_Z l).
Proof.
  induction l as [|x l IH]; simpl; [constructor|].
  apply insert_Z_sorted. exact IH.
Qed.

Lemma insert_Z_NoDup (x : Z) (l : list Z) :
  NoDup l -> ~ In x l -> NoDup (insert_Z x l).
Proof.
  induction l as [|y l IH]; simpl; intros Hn Hx.
  - constructor; [intros []|constructor].
  - destruct (x <=? y).
    + constructor; [exact Hx|exact Hn].
    + inversion Hn as [|? ? Hy Hl]; subst. constructor.
      * rewrite insert_Z_In. intros [->|H]; [apply Hx; left; reflexivity|].
        contradiction.
      * apply IH; [exact Hl|]. intros H. apply Hx. right. exact H.
Qed.

Lemma sorted_Z_NoDup (l : list Z) : NoDup l -> NoDup (sorted_Z l).
Proof.
  induction l as [|x l IH]; simpl; intros Hn; [constructor|].
  inversion Hn as [|? ? Hx Hl]; subst.
  apply insert_Z_NoDup; [apply IH; exact Hl|].
  rewrite sorted_Z_In. exact Hx.
Qed.

Lemma pairs_from_lt (l : list Z) (a b : Z) :
  StronglySorted Z.le l -> NoDup l -> In (a, b) (pairs_from l) -> a < b.
Proof.
  induction l as [|x l IH]; simpl; [intros _ _ []|].
  intros Hs Hn Hin. inversion Hs as [|? ? Hl Hx]; subst.
  inversion Hn as [|? ? Hnx Hnl]; subst.
  apply in_app_or in Hin as [Hin|Hin].
  - apply in_map_iff in Hin as [y [[= Ea Eb] Hy]]. subst x y.
    rewrite Forall_forall in Hx. specialize (Hx b Hy).
    assert (a <> b) by (intros ->; contradiction). lia.
  - apply IH; assumption.
Qed.
End SortedIds.

Section BlockInvariant.
Variable P : Z -> Prop.

Lemma In_dset {V} (d : dict string V) k v k' v' :
  In (k', v') (dset d k v) -> (k', v') = (k, v) \/ In (k', v') d.
Proof.
  induction d as [|[k0 v0] d IH]; simpl.
  - intros [H|[]]. left. symmetry. exact H.
  - destruct (String.eqb k0 k).
    + intros [H|H]; [left; symmetry; exact H|right; right; exact H].
    + intros [H|H]; [right; left; exact H|].
      destruct (IH H) as [E|E]; [left; exact E|right; right; exact E].
Qed.

Lemma block_add_ok d k x : dict_ok P d -> P x -> dict_ok P (block_add d k x).
Proof.
  intros Hd Hx k' ms Hin. unfold block_add in Hin.
  apply In_dset in Hin as [[= -> ->]|Hin]; [|apply (Hd k' ms Hin)].
  assert (Hold : NoDup (dget_or d k []) /\ forall y, In y (dget_or d k []) -> P y).
  { unfold dget_or. destruct (dget d k) as [ms|] eqn:E.
    - apply dget_Some_In in E. apply (Hd k ms E).
    - split; [constructor|intros y []]. }
  destruct Hold as [Hn Hp]. split.
  - apply kadd_NoDup. exact Hn.
  - intros y Hy. apply kadd_In in Hy as [->|Hy]; [exact Hx|apply Hp; exact Hy].
Qed.

Lemma add_when_ok c d k x : dict_ok P d -> P x -> dict_ok P (add_when c d k x).
Proof.
  intros Hd Hx. unfold add_when. destruct c; [apply block_add_ok|]; assumption.
Qed.

Lemma word_prefix_ok rid words :
  P rid -> forall d, dict_ok P d ->
  dict_ok P (fold_left (fun d w => add_when (Nat.ltb 4 (len w)) d (prefix_n 5 w) rid)
                     words d).
Proof.
  intros Hx. induction words as [|w words IH]; intros d Hd; simpl; [exact Hd|].
  apply IH. apply add_when_ok; assumption.
Qed.

Lemma block_record_ok b entry :
  blocks_ok P b -> P (fst entry) -> blocks_ok P (block_record b entry).
Proof.
  intros Hb Hx. destruct entry as [rid norm]. simpl in Hx.
  assert (H3 : dict_ok P (block_prefix3 b)) by (apply Hb; simpl; auto).
  assert (H4 : dict_ok P (block_prefix4 b)) by (apply Hb; simpl; auto).
  assert (Ht : dict_ok P (block_token b)) by (apply Hb; simpl; auto).
  assert (Hf : dict_ok P (block_first_word b)) by (apply Hb; simpl; auto 6).
  assert (Hw : dict_ok P (block_word_prefix b)) by (apply Hb; simpl; auto 7).
  assert (Hc : dict_ok P (block_compound b)) by (apply Hb; simpl; auto 8).
  intros d Hd. unfold block_record, block_dicts in Hd. simpl in Hd.
  destruct Hd as [<-|[<-|[<-|[<-|[<-|[<-|[]]]]]]].
  - apply add_when_ok; assumption.
  - apply add_when_ok; assumption.
  - apply add_when_ok; assumption.
  - destruct (block_words norm); [exact Hf|apply block_add_ok; assumption].
  - apply word_prefix_ok; assumption.
  - destruct (block_words norm) as [|w0 [|w1 ws]]; try exact Hc.
    apply block_add_ok; assumption.
Qed.

Lemma fold_blocks_ok (l : list (Z * string)) :
  (forall e, In e l -> P (fst e)) ->
  forall b, blocks_ok P b -> blocks_ok P (fold_left block_record l b).
Proof.
  induction l as [|e l IH]; intros Hl b Hb; simpl; [exact Hb|].
  apply IH.
  - intros e' He'. apply Hl. right. exact He'.
  - apply block_record_ok; [exact Hb|]. apply Hl. left. reflexivity.
Qed.

Lemma fold_blocks_ok_or (l : list (Z * string)) :
  (forall e, In e l -> P (fst e) \/ forall b, block_record b e = b) ->
  forall b, blocks_ok P b -> blocks_ok P (fold_left block_record l b).
Proof.
  induction l as [|e l IH]; intros Hl b Hb; simpl; [exact Hb|].
  apply IH.
  - intros e' He'. apply Hl. right. exact He'.
  - destruct (Hl e (or_introl eq_refl)) as [He|He].
    + apply block_record_ok; assumption.
    + rewrite He. exact Hb.
Qed.

Lemma pairs_members_ok (b : blocks) (x y : Z) :
  blocks_ok P b -> In (x, y) (emitted_pairs b) -> P x /\ P y.
Proof.
  intros Hok Hin. unfold emitted_pairs in Hin.
  apply in_flat_map in Hin as [d [Hd Hin]].
  apply in_flat_map in Hin as [[k ms] [Hk Hin]]. simpl in Hin.
  destruct (Hok d Hd k ms Hk) as [Hn Hp].
  unfold block_pairs in Hin. destruct (_ || _)%bool; [destruct Hin|].
  apply pairs_from_In in Hin as [Ha Hb].
  rewrite sorted_Z_In in Ha, Hb. split; apply Hp; assumption.
Qed.

Lemma no_blocks_ok : blocks_ok P no_blocks.
Proof.
  intros d Hd. simpl in Hd.
  destruct Hd as [<-|[<-|[<-|[<-|[<-|[<-|[]]]]]]]; intros k ms [].
Qed.
End BlockInvariant.

Lemma pair_eqb_eq (p q : Z * Z) : pair_eqb p q = true <-> p = q.
Proof.
  destruct p as [a b], q as [c d]. unfold pair_eqb. simpl.
  rewrite andb_true_iff, !Z.eqb_eq. split.
  - intros [-> ->]. reflexivity.
  - intros [= -> ->]. auto.
Qed.

Lemma pair_add_In (p q : Z * Z) (s : list (Z * Z)) :
  In q (pair_add p s) <-> q = p \/ In q s.
Proof.
  unfold pair_add. destruct (existsb (pair_eqb p) s) eqn:E.
  - split; [auto|]. intros [->|H]; [|exact H].
    apply existsb_exists in E as [x [Hx Hpx]].
    apply pair_eqb_eq in Hpx. subst. exact Hx.
  - rewrite in_app_iff. simpl. split.
    + intros [H|[H|[]]]; auto.
    + intros [->|H]; auto.
Qed.

Lemma pair_add_NoDup (p : Z * Z) (s : list (Z * Z)) :
  NoDup s -> NoDup (pair_add p s).
Proof.
  intros Hn. unfold pair_add. destruct (existsb (pair_eqb p) s) eqn:E.
  - exact Hn.
  - apply NoDup_app; [exact Hn|constructor; [intros []|constructor]|].
    intros x Hx [E'|[]]. subst x.
    assert (existsb (pair_eqb p) s = true); [|congruence].
    apply existsb_exists. exists p. split; [exact Hx|].
    apply pair_eqb_eq. reflexivity.
Qed.

Lemma pairs_set_spec (l : list (Z * Z)) :
  forall s, NoDup s ->
    NoDup (fold_left (fun s p => pair_add p s) l s)
    /\ forall q, In q (fold_left (fun s p => pair_add p s) l s)
                 <-> In q s \/ In q l.
Proof.
  induction l as [|p l IH]; intros s Hs; simpl.
  - split; [exact Hs|]. intros q. tauto.
  - destruct (IH (pair_add p s) (pair_add_NoDup p s Hs)) as [Hn Hi].
    split; [exact Hn|]. intros q. rewrite Hi, pair_add_In. intuition.
Qed.

Lemma candidate_pairs_In (b : blocks) (q : Z * Z) :
  In q (candidate_pairs b) <-> In q (emitted_pairs b).
Proof.
  unfold candidate_pairs.
  destruct (pairs_set_spec (emitted_pairs b) [] (NoDup_nil _)) as [_ H].
  rewrite H. simpl. tauto.
Qed.

(** X17, the candidate pairs: every candidate pair [(a, b)] names two
    records of the dictionary of normalised names with [a < b], so no
    record is compared with itself and no two records are paired in both
    orders; the set holds no pair twice. *)
Theorem candidate_pairs_ordered (norms : dict Z string) :
  NoDup (candidate_pairs (build_blocks norms))
  /\ forall a b, In (a, b) (candidate_pairs (build_blocks norms)) ->
                 a < b /\ dmem norms a = true /\ dmem norms b = true.
Proof.
  split.
  { unfold candidate_pairs.
    apply (pairs_set_spec (emitted_pairs (build_blocks norms)) []).
    constructor. }
  intros a b Hin. apply candidate_pairs_In in Hin.
  assert (Hok : blocks_ok (fun x => dmem norms x = true) (build_blocks norms)).
  { unfold build_blocks. apply fold_blocks_ok.
    - intros [k v] He. simpl. apply dmem_In. unfold dkeys.
      change k with (fst (k, v)). apply in_map. exact He.
    - intros d Hd. simpl in Hd.
      destruct Hd as [<-|[<-|[<-|[<-|[<-|[<-|[]]]]]]]; intros k ms []. }
  unfold emitted_pairs in Hin.
  apply in_flat_map in Hin as [d [Hd Hin]].
  apply in_flat_map in Hin as [[k ms] [Hk Hin]]. simpl in Hin.
  destruct (Hok d Hd k ms Hk) as [Hn Hp].
  unfold block_pairs in Hin. destruct (_ || _)%bool; [destruct Hin|].
  split.
  - apply (pairs_from_lt (sorted_Z ms)); [apply sorted_Z_sorted| |exact Hin].
    apply sorted_Z_NoDup. exact Hn.
  - apply pairs_from_In in Hin as [Ha Hb].
    rewrite sorted_Z_In in Ha, Hb. split; apply Hp; assumption.
Qed.

(** * Further properties of the summary *)

Lemma filter_split_length {A} (p q : A -> bool) (l : list A) :
  (forall x, In x l -> p x = negb (q x)) ->
  (List.length (filter p l) + List.length (filter q l) = List.length l)%nat.
Proof.
  induction l as [|x l IH]; intros H; simpl; [reflexivity|].
  rewrite (H x (or_introl eq_refl)).
  assert (IH' := IH (fun y Hy => H y (or_intror Hy))).
  destruct (q x); simpl; lia.
Qed.

Lemma filter_le_length {A} (p q : A -> bool) (l : list A) :
  (forall x, p x = true -> q x = true) ->
  (List.length (filter p l) <= List.length (filter q l))%nat.
Proof.
  intros H. induction l as [|x l IH]; simpl; [lia|].
  destruct (p x) eqn:E.
  - rewrite (H x E). simpl. lia.
  - destruct (q x); simpl; lia.
Qed.

Section Summary.
Context {fz : Fuzz} {ho : HashOrder}.

Lemma row_valid_cases rows o :
  In o (main rows) -> is_valid o = 0 \/ is_valid o = 1.
Proof.
  intros Hin. rewrite main_eq in Hin.
  apply in_map_iff in Hin as [rec [<- Hin]].
  apply (rec_valid_cases rows rec Hin).
Qed.

Lemma primaries_are_groups rows :
  NoDup (map in_id rows) ->
  Permutation (map group_id (filter row_is_valid_primary (main rows)))
              (nodup Z.eq_dec (map group_id (filter row_is_valid (main rows)))).
Proof.
  intros Hd. apply NoDup_Permutation.
  - assert (E : map group_id (filter row_is_valid_primary (main rows))
                = map master_id (filter row_is_valid_primary (main rows))).
    { apply map_ext_in. intros o Ho. apply filter_In in Ho as [Ho Hp].
      unfold row_is_valid_primary in Hp.
      apply andb_true_iff in Hp as [Hp Hv].
      apply Z.eqb_eq in Hp, Hv.
      apply (primary_flag_iff rows o Ho Hv). exact Hp. }
    rewrite E. apply distinct_after_filter. rewrite out_ids. exact Hd.
  - apply NoDup_nodup.
  - intros g. rewrite nodup_In, !in_map_iff. split.
    + intros [o [Hg Ho]]. exists o. split; [exact Hg|].
      apply filter_In in Ho as [Ho Hp]. apply filter_In. split; [exact Ho|].
      unfold row_is_valid_primary in Hp. apply andb_true_iff in Hp as [_ Hv].
      exact Hv.
    + intros [o [Hg Ho]]. apply filter_In in Ho as [Ho Hv].
      apply Z.eqb_eq in Hv.
      destruct (primary_row_exists rows o Hd Ho Hv)
        as (p & Hp & _ & Hvp & Hpp & Hgp).
      exists p. split; [congruence|].
      apply filter_In. split; [exact Hp|].
      unfold row_is_valid_primary. rewrite Hvp, Hpp. reflexivity.
Qed.

(** X18, the summary of a run: the table has as many rows as [masters]
    (the line [Row match] says YES), every row counts as valid or as
    garbage, and, when the source ids are distinct, the number of valid
    primaries is the number of distinct groups of valid rows, at most the
    number of valid rows, and the deduplication rate lies between 0 and
    100, 100 excluded. *)
Theorem summary_consistent (rows : list input_row) :
  row_match (summarize rows (main rows)) = true
  /\ (valid (summarize rows (main rows))
      + invalid (summarize rows (main rows))
      = total (summarize rows (main rows)))%nat
  /\ (NoDup (map in_id rows) ->
      primaries (summarize rows (main rows))
      = unique_groups (summarize rows (main rows))
      /\ (primaries (summarize rows (main rows))
          <= valid (summarize rows (main rows)))%nat
      /\ (0 <= dedup_pct (summarize rows (main rows)) < 100)%Q).
Proof.
  split; [|split].
  - unfold row_match, summarize. simpl. apply Nat.eqb_eq.
    rewrite main_eq. unfold all_records. rewrite !length_map. reflexivity.
  - unfold summarize, count_rows. simpl. apply filter_split_length.
    intros o Ho. unfold row_is_valid, row_is_garbage.
    destruct (row_valid_cases rows o Ho) as [-> | ->]; reflexivity.
  - intros Hd.
    assert (Hpu : primaries (summarize rows (main rows))
                  = unique_groups (summarize rows (main rows))).
    { unfold summarize, count_rows. simpl.
      rewrite <- (Permutation_length (primaries_are_groups rows Hd)).
      rewrite length_map. reflexivity. }
    assert (Hle : (primaries (summarize rows (main rows))
                   <= valid (summarize rows (main rows)))%nat).
    { unfold summarize, count_rows. simpl. apply filter_le_length.
      intros o H. unfold row_is_valid_primary in H.
      apply andb_true_iff in H as [_ H]. exact H. }
    split; [exact Hpu|]. split; [exact Hle|].
    unfold dedup_pct.
    destruct (Nat.eqb_spec (valid (summarize rows (main rows))) 0) as [E|E];
      [split; [apply Qle_refl|reflexivity]|].
    assert (Hpos : (1 <= primaries (summarize rows (main rows)))%nat).
    { unfold summarize, count_rows in E |- *. simpl in E |- *.
      destruct (filter row_is_valid (main rows)) as [|o l] eqn:Ef;
        [simpl in E; congruence|].
      assert (Ho : In o (filter row_is_valid (main rows)))
        by (rewrite Ef; left; reflexivity).
      apply filter_In in Ho as [Ho Hv]. apply Z.eqb_eq in Hv.
      destruct (primary_row_exists rows o Hd Ho Hv)
        as (p & Hp & _ & Hvp & Hpp & _).
      assert (Hin : In p (filter row_is_valid_primary (main rows))).
      { apply filter_In. split; [exact Hp|].
        unfold row_is_valid_primary. rewrite Hvp, Hpp. reflexivity. }
      destruct (filter row_is_valid_primary (main rows));
        [destruct Hin|simpl; lia]. }
    set (v := valid (summarize rows (main rows))) in *.
    set (p := primaries (summarize rows (main rows))) in *.
    clearbody v p.
    assert (Hv : (0 < inject_Z (Z.of_nat v))%Q).
    { change 0%Q with (inject_Z 0). rewrite <- Zlt_Qlt. lia. }
    assert (H0 : (0 <= inject_Z (Z.of_nat v - Z.of_nat p))%Q).
    { change 0%Q with (inject_Z 0). rewrite <- Zle_Qle. lia. }
    assert (H1 : (inject_Z (Z.of_nat v - Z.of_nat p) < inject_Z (Z.of_nat v))%Q).
    { rewrite <- Zlt_Qlt. lia. }
    assert (Hq0 : (0 <= inject_Z (Z.of_nat v - Z.of_nat p)
                        / inject_Z (Z.of_nat v))%Q).
    { apply Qle_shift_div_l; [exact Hv|]. rewrite Qmult_0_l. exact H0. }
    assert (Hq1 : (inject_Z (Z.of_nat v - Z.of_nat p)
                   / inject_Z (Z.of_nat v) < 1)%Q).
    { apply Qlt_shift_div_r; [exact Hv|]. rewrite Qmult_1_l. exact H1. }
    set (z := (inject_Z (Z.of_nat v - Z.of_nat p) / inject_Z (Z.of_nat v))%Q)
      in *.
    clearbody z. split; lra.
Qed.
End Summary.


(** * Further properties of [token_signature] *)

Section StringOrder.
Lemma ascii_compare_lt_trans (a b c : ascii) :
  Ascii.compare a b = Lt -> Ascii.compare b c = Lt -> Ascii.compare a c = Lt.
Proof.
  unfold Ascii.compare. rewrite !N.compare_lt_iff. apply N.lt_trans.
Qed.

Lemma string_compare_lt_trans (s1 : string) :
  forall s2 s3, String.compare s1 s2 = Lt -> String.compare s2 s3 = Lt ->
                String.compare s1 s3 = Lt.
Proof.
  induction s1 as [|a s1 IH]; intros [|b s2] [|c s3]; simpl;
    try discriminate; try reflexivity.
  destruct (Ascii.compare a b) eqn:Eab; try discriminate;
    destruct (Ascii.compare b c) eqn:Ebc; try discriminate; intros H1 H2.
  - apply Ascii.compare_eq_iff in Eab, Ebc. subst.
    rewrite (proj2 (N.compare_eq_iff _ _) eq_refl : Ascii.compare c c = Eq).
    apply (IH s2 s3); assumption.
  - apply Ascii.compare_eq_iff in Eab. subst. rewrite Ebc. reflexivity.
  - apply Ascii.compare_eq_iff in Ebc. subst. rewrite Eab. reflexivity.
  - rewrite (ascii_compare_lt_trans a b c Eab Ebc). reflexivity.
Qed.

Lemma string_leb_cases (s1 s2 : string) :
  String.leb s1 s2 = true <-> s1 = s2 \/ String.compare s1 s2 = Lt.
Proof.
  unfold String.leb. destruct (String.compare s1 s2) eqn:E.
  - apply String.compare_eq_iff in E. tauto.
  - tauto.
  - split; [discriminate|]. intros [->|H]; [|discriminate].
    assert (String.compare s2 s2 = CompOpp (String.compare s2 s2))
      by apply String.compare_antisym.
    rewrite E in H. discriminate.
Qed.

Lemma string_leb_trans (s1 s2 s3 : string) :
  String.leb s1 s2 = true -> String.leb s2 s3 = true ->
  String.leb s1 s3 = true.
Proof.
  rewrite !string_leb_cases. intros [->|H1] [->|H2]; auto.
  right. apply (string_compare_lt_trans s1 s2 s3); assumption.
Qed.

Lemma insert_str_In (x a : string) (l : list string) :
  In a (insert_str x l) <-> a = x \/ In a l.
Proof.
  induction l as [|y l IH]; simpl; [intuition|].
  destruct (String.leb x y); simpl; [intuition|]. rewrite IH. intuition.
Qed.

Lemma insert_str_perm (x : string) (l : list string) :
  Permutation (insert_str x l) (x :: l).
Proof.
  induction l as [|y l IH]; simpl; [reflexivity|].
  destruct (String.leb x y); [reflexivity|].
  rewrite IH. apply perm_swap.
Qed.

Lemma sorted_str_perm (l : list string) : Permutation (sorted_str l) l.
Proof.
  induction l as [|x l IH]; simpl; [reflexivity|].
  rewrite insert_str_perm, IH. reflexivity.
Qed.

Lemma insert_str_sorted (x : string) (l : list string) :
  StronglySorted (fun a b => String.leb a b = true) l ->
  StronglySorted (fun a b => String.leb a b = true) (insert_str x l).
Proof.
  induction l as [|y l IH]; simpl; intros Hs.
  - constructor; constructor.
  - inversion Hs as [|? ? Hl Hy]; subst.
    destruct (String.leb x y) eqn:E.
    + constructor; [exact Hs|]. constructor; [exact E|].
      apply Forall_forall. intros z Hz.
      rewrite Forall_forall in Hy.
      apply (string_leb_trans x y z E). apply Hy. exact Hz.
    + assert (Eyx : String.leb y x = true)
        by (destruct (String.leb_total x y); congruence).
      constructor; [apply IH; exact Hl|].
      apply Forall_forall. intros z Hz. apply insert_str_In in Hz.
      destruct Hz as [->|Hz]; [exact Eyx|].
      rewrite Forall_forall in Hy. apply Hy. exact Hz.
Qed.

Lemma sorted_str_sorted (l : list string) :
  StronglySorted (fun a b => String.leb a b = true) (sorted_str l).
Proof.
  induction l as [|x l IH]; simpl; [constructor|].
  apply insert_str_sorted. exact IH.
Qed.

Lemma sorted_unique (l1 : list string) :
  forall l2,
    StronglySorted (fun a b => String.leb a b = true) l1 ->
    StronglySorted (fun a b => String.leb a b = true) l2 ->
    Permutation l1 l2 -> l1 = l2.
Proof.
  induction l1 as [|x l1 IH]; intros l2 H1 H2 Hp.
  - apply Permutation_nil in Hp. congruence.
  - destruct l2 as [|y l2].
    { apply Permutation_sym, Permutation_nil in Hp. discriminate. }
    inversion H1 as [|? ? Hl1 Hx]; subst.
    inversion H2 as [|? ? Hl2 Hy]; subst.
    rewrite Forall_forall in Hx, Hy.
    assert (Exy : x = y).
    { assert (Hy1 : In y (x :: l1))
        by (apply (Permutation_in _ (Permutation_sym Hp)); left; reflexivity).
      assert (Hx2 : In x (y :: l2))
        by (apply (Permutation_in _ Hp); left; reflexivity).
      destruct Hy1 as [E|Hy1]; [exact E|].
      destruct Hx2 as [E|Hx2]; [symmetry; exact E|].
      apply String.leb_antisym; [apply Hx; exact Hy1|apply Hy; exact Hx2]. }
    subst y. f_equal. apply IH; try assumption.
    apply (Permutation_cons_inv Hp).
Qed.

Lemma filter_perm {A} (p : A -> bool) (l l' : list A) :
  Permutation l l' -> Permutation (filter p l) (filter p l').
Proof.
  induction 1 as [|x l l' _ IH|x y l|l l' l'' _ IH1 _ IH2]; simpl.
  - constructor.
  - destruct (p x); [constructor|]; exact IH.
  - destruct (p x), (p y); try reflexivity. apply perm_swap.
  - rewrite IH1. exact IH2.
Qed.
End StringOrder.

(** X20, [token_signature] does not depend on the order of the words: two
    names that consist of the same words in any order have the same
    signature, so they land in the same token block. *)
Theorem token_signature_order_free (a b : string) :
  Permutation (split a) (split b) -> token_signature a = token_signature b.
Proof.
  intros Hp. unfold token_signature, significant_tokens. f_equal.
  apply sorted_unique; try apply sorted_str_sorted.
  rewrite !sorted_str_perm. apply filter_perm. exact Hp.
Qed.

(** * Further properties of [normalize] *)

Section Suffixes.
Lemma suffix_refl (s : text) : suffix_of s s.
Proof. exists []. reflexivity. Qed.

Lemma suffix_trans (a b c : text) :
  suffix_of a b -> suffix_of b c -> suffix_of a c.
Proof.
  intros [p1 ->] [p2 ->]. exists (p2 ++ p1)%list. rewrite app_assoc. reflexivity.
Qed.

Lemma suffix_cons (c : ascii) (s : text) : suffix_of s (c :: s).
Proof. exists [c]. reflexivity. Qed.

Lemma suffix_In (a b : text) (c : ascii) : suffix_of a b -> In c a -> In c b.
Proof. intros [p ->] H. apply in_or_app. right. exact H. Qed.

Lemma suffix_length (a b : text) :
  suffix_of a b -> (List.length a <= List.length b)%nat.
Proof. intros [p ->]. rewrite length_app. lia. Qed.

Lemma suffix_firstn (a b : text) :
  suffix_of a b ->
  b = (firstn (List.length b - List.length a) b ++ a)%list.
Proof.
  intros [p ->]. rewrite length_app.
  replace (List.length p + List.length a - List.length a)%nat
    with (List.length p + 0)%nat by lia.
  rewrite firstn_app_2. simpl. rewrite app_nil_r. reflexivity.
Qed.
End Suffixes.

Section MatcherSuffix.
Context {A : Type}.

Lemma star_loop_suffix
    (step : option ascii -> text ->
            (option ascii -> text -> option A) -> option A) :
  (forall prev s k x, step prev s k = Some x ->
     exists prev' s', suffix_of s' s /\ k prev' s' = Some x) ->
  forall n prev s k x, star_loop step k n prev s = Some x ->
    exists prev' s', suffix_of s' s /\ k prev' s' = Some x.
Proof.
  intros Hstep. induction n as [|n IH]; intros prev s k x; simpl.
  - intros H. exists prev, s. split; [apply suffix_refl|exact H].
  - destruct (step prev s _) as [y|] eqn:E.
    + intros [= ->].
      destruct (Hstep _ _ _ _ E) as (p1 & s1 & Hs1 & H1).
      destruct (Nat.ltb _ _); [|discriminate].
      destruct (IH _ _ _ _ H1) as (p2 & s2 & Hs2 & H2).
      exists p2, s2. split; [|exact H2].
      apply (suffix_trans _ s1); assumption.
    + intros H. exists prev, s. split; [apply suffix_refl|exact H].
Qed.

(** The continuation of a match only ever sees what is left of the
    input. *)
Lemma rx_suffix (r : regex) :
  forall prev s (k : option ascii -> text -> option A) x,
    rx r prev s k = Some x ->
    exists prev' s', suffix_of s' s /\ k prev' s' = Some x.
Proof.
  induction r as [|p|a IHa b IHb|a IHa b IHb|a IHa| | |];
    intros prev s k x; cbn [rx].
  - intros H. exists prev, s. split; [apply suffix_refl|exact H].
  - destruct s as [|c s']; [discriminate|].
    destruct (p c); [|discriminate].
    intros H. exists (Some c), s'. split; [apply suffix_cons|exact H].
  - intros H. destruct (IHa _ _ _ _ H) as (p1 & s1 & Hs1 & H1).
    destruct (IHb _ _ _ _ H1) as (p2 & s2 & Hs2 & H2).
    exists p2, s2. split; [|exact H2]. apply (suffix_trans _ s1); assumption.
  - destruct (rx a prev s k) as [y|] eqn:E.
    + intros [= ->]. apply (IHa _ _ _ _ E).
    + apply IHb.
  - apply star_loop_suffix. exact IHa.
  - destruct (is_none prev); [|discriminate].
    intros H. exists prev, s. split; [apply suffix_refl|exact H].
  - destruct (at_eol s); [|discriminate].
    intros H. exists prev, s. split; [apply suffix_refl|exact H].
  - destruct (at_boundary prev s); [|discriminate].
    intros H. exists prev, s. split; [apply suffix_refl|exact H].
Qed.
End MatcherSuffix.

Lemma match_here_suffix (r : regex) prev s rest :
  match_here r prev s = Some rest -> suffix_of rest s.
Proof.
  unfold match_here. intros H.
  destruct (rx_suffix r prev s _ rest H) as (p' & s' & Hs & [= ->]).
  exact Hs.
Qed.

Lemma firstn_In {A} (n : nat) (l : list A) (x : A) :
  In x (firstn n l) -> In x l.
Proof.
  intros H. rewrite <- (firstn_skipn n l). apply in_or_app. left. exact H.
Qed.

Section SubChars.
Variable S : ascii -> Prop.

(** A substitution yields characters of the input and of the
    replacements only. *)
Lemma sub_from_chars (r : regex) (repl : text -> text) :
  (forall m, (forall c, In c m -> S c) -> forall c, In c (repl m) -> S c) ->
  forall fuel prev s,
    (forall c, In c s -> S c) ->
    forall c, In c (sub_from fuel r repl prev s) -> S c.
Proof.
  intros Hrepl. induction fuel as [|fuel IH]; intros prev s Hs c; simpl.
  - apply Hs.
  - assert (Hstep : In c match s with
                         | [] => []
                         | c0 :: s' => c0 :: sub_from fuel r repl (Some c0) s'
                         end -> S c).
    { destruct s as [|c0 s']; [intros []|]. intros [<-|H].
      - apply Hs. left. reflexivity.
      - apply (IH (Some c0) s'); [|exact H].
        intros d Hd. apply Hs. right. exact Hd. }
    destruct (match_here r prev s) as [rest|] eqn:E; [|exact Hstep].
    apply match_here_suffix in E.
    destruct (List.length s - List.length rest)%nat as [|n] eqn:En;
      [exact Hstep|].
    intros H. apply in_app_or in H as [H|H].
    + apply (Hrepl (firstn (Datatypes.S n) s)); [|exact H].
      intros d Hd. apply Hs. apply (firstn_In _ _ _ Hd).
    + apply (IH _ rest (fun d Hd => Hs d (suffix_In _ _ _ E Hd)) c H).
Qed.
End SubChars.

Lemma re_sub_chars (S : ascii -> Prop) (r : regex) (repl : text -> text)
    (s : string) :
  (forall m, (forall c, In c m -> S c) -> forall c, In c (repl m) -> S c) ->
  (forall c, In c (chars s) -> S c) ->
  forall c, In c (chars (re_sub r repl s)) -> S c.
Proof.
  intros Hrepl Hs c. unfold re_sub. rewrite chars_str.
  apply sub_from_chars; assumption.
Qed.

Lemma re_sub_const_chars (S : ascii -> Prop) (r : regex) (by_ s : string) :
  (forall c, In c (chars by_) -> S c) ->
  (forall c, In c (chars s) -> S c) ->
  forall c, In c (chars (re_sub_const r by_ s)) -> S c.
Proof.
  intros Hby. apply re_sub_chars. intros m _. exact Hby.
Qed.

Lemma lstrip_t_suffix (t : text) : suffix_of (lstrip_t t) t.
Proof.
  induction t as [|c t IH]; simpl; [apply suffix_refl|].
  destruct (is_space c); [|apply suffix_refl].
  apply (suffix_trans _ t); [exact IH|apply suffix_cons].
Qed.

Lemma rstrip_t_prefix (t : text) : exists sp, t = (rstrip_t t ++ sp)%list.
Proof.
  unfold rstrip_t. destruct (lstrip_t_suffix (rev t)) as [pre E].
  exists (rev pre). rewrite <- rev_app_distr, <- E, rev_involutive.
  reflexivity.
Qed.

Lemma strip_chars (S : ascii -> Prop) (s : string) :
  (forall c, In c (chars s) -> S c) ->
  forall c, In c (chars (strip s)) -> S c.
Proof.
  intros Hs c. unfold strip. rewrite chars_str. intros H.
  apply Hs. apply (suffix_In _ _ _ (lstrip_t_suffix (chars s))).
  destruct (rstrip_t_prefix (lstrip_t (chars s))) as [sp E].
  rewrite E. apply in_or_app. left. exact H.
Qed.

Lemma lower_char_not_upper (c : ascii) : is_upper (lower_char c) = false.
Proof.
  destruct c as [[] [] [] [] [] [] [] []]; reflexivity.
Qed.

(** Substituting one character class. *)
Lemma sub_class_chars (p : ascii -> bool) (by_ : text) :
  forall fuel prev s, (List.length s < fuel)%nat ->
    forall c, In c (sub_from fuel (Chr p) (fun _ => by_) prev s) ->
              In c by_ \/ (In c s /\ p c = false).
Proof.
  induction fuel as [|fuel IH]; intros prev s Hf c; [lia|].
  simpl. unfold match_here. cbn [rx].
  destruct s as [|c0 s']; [intros []|].
  simpl in Hf.
  destruct (p c0) eqn:Ep.
  - replace (List.length (c0 :: s') - List.length s')%nat with 1%nat
      by (cbn [List.length]; lia).
    intros H. apply in_app_or in H as [H|H]; [left; exact H|].
    destruct (IH _ s' ltac:(lia) c H) as [H'|[H' Hp]]; [left; exact H'|].
    right. split; [right; exact H'|exact Hp].
  - intros [<-|H]; [right; split; [left; reflexivity|exact Ep]|].
    destruct (IH _ s' ltac:(lia) c H) as [H'|[H' Hp]]; [left; exact H'|].
    right. split; [right; exact H'|exact Hp].
Qed.

(** Collapsing runs of white space. *)

Lemma star_greedy (p : ascii -> bool) :
  forall n prev s, (List.length s <= n)%nat ->
    exists rest,
      star_loop (rx (Chr p)) (fun _ r => Some r) n prev s = Some rest
      /\ suffix_of rest s
      /\ match rest with d :: _ => p d = false | [] => True end.
Proof.
  induction n as [|n IH]; intros prev s Hn.
  - destruct s; [|simpl in Hn; lia]. exists []. simpl.
    split; [reflexivity|]. split; [apply suffix_refl|exact I].
  - cbn [star_loop rx]. destruct s as [|c s'].
    + exists []. split; [reflexivity|]. split; [apply suffix_refl|exact I].
    + destruct (p c) eqn:Ep.
      * replace (List.length s' <? List.length (c :: s'))%nat with true
          by (symmetry; apply Nat.ltb_lt; simpl; lia).
        destruct (IH (Some c) s' ltac:(simpl in Hn; lia))
          as (rest & E & Hs & Hh).
        cbn [rx] in E. rewrite E. exists rest.
        split; [reflexivity|]. split; [|exact Hh].
        apply (suffix_trans _ s'); [exact Hs|apply suffix_cons].
      * exists (c :: s'). split; [reflexivity|].
        split; [apply suffix_refl|exact Ep].
Qed.

Lemma loose_tail (c : ascii) (t : text) : loose (c :: t) = true -> loose t = true.
Proof. simpl. intros H. apply andb_true_iff in H as [_ H]. exact H. Qed.

Lemma loose_suffix (a b : text) : suffix_of a b -> loose b = true -> loose a = true.
Proof.
  intros [p ->]. induction p as [|c p IH]; simpl app; [auto|].
  intros H. apply IH. apply (loose_tail c). exact H.
Qed.

Lemma loose_prefix (a b : text) :
  loose (a ++ b)%list = true -> loose a = true.
Proof.
  induction a as [|c a IH]; [reflexivity|]. simpl.
  intros H. apply andb_true_iff in H as [H1 H2].
  rewrite (IH H2), andb_true_r.
  destruct (is_space c); [|reflexivity].
  apply andb_true_iff in H1 as [H1 H3]. rewrite H1. simpl.
  destruct a as [|d a]; [reflexivity|exact H3].
Qed.

Lemma ws_match_blank prev c s' :
  is_space c = true ->
  exists rest, match_here WS_RUN_RE prev (c :: s') = Some rest
               /\ suffix_of rest s'
               /\ match rest with d :: _ => is_space d = false | [] => True end.
Proof.
  intros Ec. unfold match_here, WS_RUN_RE, ws_plus, Plus, ws. cbn [rx].
  rewrite Ec.
  destruct (star_greedy is_space (List.length s') (Some c) s' (Nat.le_refl _))
    as (rest & E & Hs & Hh).
  cbn [rx] in E. exists rest. auto.
Qed.

Lemma ws_match_other prev s :
  match s with c :: _ => is_space c = false | [] => True end ->
  match_here WS_RUN_RE prev s = None.
Proof.
  unfold match_here, WS_RUN_RE, ws_plus, Plus, ws. cbn [rx].
  destruct s as [|c s']; [reflexivity|]. intros ->. reflexivity.
Qed.

Lemma ws_run_loose :
  forall fuel prev s, (List.length s < fuel)%nat ->
    loose (sub_from fuel WS_RUN_RE (fun _ => chars " ") prev s) = true
    /\ match s with
       | c :: _ =>
           is_space c = false ->
           exists t, sub_from fuel WS_RUN_RE (fun _ => chars " ") prev s
                     = c :: t
       | [] => sub_from fuel WS_RUN_RE (fun _ => chars " ") prev s = []
       end.
Proof.
  induction fuel as [|fuel IH]; intros prev s Hf; [lia|].
  cbn [sub_from]. destruct s as [|c s'].
  - rewrite ws_match_other by exact I. split; reflexivity.
  - cbn [List.length] in Hf. destruct (is_space c) eqn:Ec.
    + destruct (ws_match_blank prev c s' Ec) as (rest & E & Hs & Hh).
      rewrite E.
      pose proof (suffix_length _ _ Hs) as Hl.
      destruct (List.length (c :: s') - List.length rest)%nat eqn:En;
        [cbn [List.length] in En; lia|].
      destruct (IH (Some (last (firstn (Datatypes.S n) (c :: s')) " "%char))
                  rest ltac:(lia)) as [Hloose Hhead].
      split; [|intros H; discriminate].
      change (chars " ") with [" "%char] in Hloose, Hhead |- *.
      cbn [app loose].
      rewrite Hloose, andb_true_r.
      change (is_space " ") with true. cbv iota.
      change (Ascii.eqb " " " ") with true. cbn [andb].
      destruct rest as [|d rest'].
      * rewrite Hhead. reflexivity.
      * destruct (Hhead Hh) as [t ->]. rewrite Hh. reflexivity.
    + rewrite ws_match_other by exact Ec.
      destruct (IH (Some c) s' ltac:(lia)) as [Hloose _].
      split.
      * cbn [loose]. rewrite Ec, Hloose. reflexivity.
      * intros _. eexists. reflexivity.
Qed.

Lemma loose_no_double_blank (t : text) :
  loose t = true -> contains_t (chars "  ") t = false.
Proof.
  induction t as [|c t IH]; [reflexivity|].
  intros H. pose proof (loose_tail _ _ H) as Ht.
  change (contains_t (chars "  ") (c :: t))
    with ((Ascii.eqb " " c
           && match t with
              | d :: _ => Ascii.eqb " " d && true
              | [] => false
              end)
          || contains_t (chars "  ") t)%bool.
  rewrite (IH Ht), orb_false_r.
  destruct (Ascii.eqb_spec " "%char c) as [<-|]; [|reflexivity].
  destruct t as [|d t']; [reflexivity|].
  destruct (Ascii.eqb_spec " "%char d) as [<-|]; [|reflexivity].
  cbn [loose] in H. change (is_space " ") with true in H.
  cbn [negb andb] in H. rewrite andb_false_r in H. discriminate.
Qed.

Lemma loose_blank (t : text) (c : ascii) :
  loose t = true -> In c t -> is_space c = true -> c = " "%char.
Proof.
  induction t as [|d t IH]; [intros _ []|].
  intros H [<-|Hin] Hc.
  - simpl in H. rewrite Hc in H. apply andb_true_iff in H as [H _].
    apply andb_true_iff in H as [H _]. apply Ascii.eqb_eq in H. exact H.
  - apply IH; [apply (loose_tail d); exact H|exact Hin|exact Hc].
Qed.

Lemma squeeze_loose (s : string) :
  loose (chars (strip (re_sub_const WS_RUN_RE " " s))) = true.
Proof.
  unfold strip, re_sub_const, re_sub. rewrite !chars_str.
  destruct (ws_run_loose (Datatypes.S (List.length (chars s))) None (chars s)
              ltac:(lia)) as [H _].
  set (out := sub_from _ _ _ _ _) in *.
  destruct (rstrip_t_prefix (lstrip_t out)) as [sp E].
  apply (loose_prefix _ sp). rewrite <- E.
  apply (loose_suffix _ out); [apply lstrip_t_suffix|exact H].
Qed.

Lemma lower_chars (s : string) :
  forall c, In c (chars (lower s)) -> is_upper c = false.
Proof.
  intros c. unfold lower. rewrite chars_str, in_map_iff.
  intros [d [<- _]]. apply lower_char_not_upper.
Qed.

Lemma replace_amp_chars (S : ascii -> Prop) (s : string) :
  (forall c, In c (chars " and ") -> S c) ->
  (forall c, In c (chars s) -> S c) ->
  forall c, In c (chars (replace_amp s)) -> S c.
Proof.
  intros Hand Hs c. unfold replace_amp. rewrite chars_str, in_flat_map.
  intros [d [Hd Hc]]. destruct (Ascii.eqb d "&"); [apply Hand; exact Hc|].
  destruct Hc as [<-|[]]. apply Hs. exact Hd.
Qed.

Lemma punct_chars (s : string) :
  forall c, In c (chars (re_sub_const PUNCT_RE " " s)) ->
            (is_word c || is_space c)%bool = true.
Proof.
  intros c. unfold re_sub_const, re_sub, PUNCT_RE. rewrite chars_str.
  intros H. apply sub_class_chars in H; [|lia].
  destruct H as [[<-|[]]|[_ H]]; [reflexivity|].
  apply negb_false_iff in H. exact H.
Qed.

(** X21, the shape of normalised text: the result of [normalize] has no
    white space at either end and no two blanks in a row, and each of its
    characters is a blank, a digit, an underscore or a letter that is not a
    capital; white space other than the blank does not occur. *)
Theorem normalize_shape (label : string) :
  strip (normalize label) = normalize label
  /\ contains_t (chars "  ") (chars (normalize label)) = false
  /\ forall c, In c (chars (normalize label)) -> is_norm_char c = true.
Proof.
  unfold normalize. destruct (String.eqb label "").
  { split; [reflexivity|]. split; [reflexivity|]. intros c []. }
  cbv zeta.
  set (s1 := strip (lower label)).
  set (s2 := re_sub AMPERSAND_ACRONYM_RE acronym_repl s1).
  set (s3 := replace_amp s2).
  set (s4 := re_sub_const PUNCT_RE " " s3).
  set (s5 := strip (re_sub_const WS_RUN_RE " " s4)).
  set (s6 := re_sub_const LEGAL_SUFFIX_RE "" s5).
  set (s7 := re_sub_const LEADING_THE_RE "" s6).
  set (s8 := re_sub_const TRAILING_THE_RE "" s7).
  pose proof (squeeze_loose s8) as Hloose.
  split; [apply strip_idem|].
  split; [apply loose_no_double_blank; exact Hloose|].
  assert (Hup : forall c, In c (chars (strip (re_sub_const WS_RUN_RE " " s8)))
                          -> is_upper c = false).
  { apply strip_chars.
    apply re_sub_const_chars; [intros c [<-|[]]; reflexivity|].
    apply re_sub_const_chars; [intros c []|].
    apply re_sub_const_chars; [intros c []|].
    apply re_sub_const_chars; [intros c []|].
    apply strip_chars.
    apply re_sub_const_chars; [intros c [<-|[]]; reflexivity|].
    apply re_sub_const_chars; [intros c [<-|[]]; reflexivity|].
    apply replace_amp_chars.
    { intros c [<-|[<-|[<-|[<-|[<-|[]]]]]]; reflexivity. }
    apply re_sub_chars.
    { intros m Hm c Hc. unfold acronym_repl in Hc.
      apply filter_In in Hc as [Hc _]. apply Hm. exact Hc. }
    apply strip_chars. apply lower_chars. }
  assert (Hws : forall c, In c (chars (strip (re_sub_const WS_RUN_RE " " s8)))
                          -> (is_word c || is_space c)%bool = true).
  { apply strip_chars.
    apply re_sub_const_chars; [intros c [<-|[]]; reflexivity|].
    apply re_sub_const_chars; [intros c []|].
    apply re_sub_const_chars; [intros c []|].
    apply re_sub_const_chars; [intros c []|].
    apply strip_chars.
    apply re_sub_const_chars; [intros c [<-|[]]; reflexivity|].
    apply punct_chars. }
  intros c Hc. unfold is_norm_char.
  rewrite (Hup c Hc). simpl.
  pose proof (Hws c Hc) as H.
  destruct (is_word c); [reflexivity|]. simpl in H |- *.
  rewrite (loose_blank _ c Hloose Hc H). reflexivity.
Qed.

(** * Names that are too short for every block *)

Lemma short_words (norm : string) :
  (len norm < 3)%nat -> block_words norm = [].
Proof.
  intros H. unfold block_words, split.
  destruct norm as [|c1 [|c2 [|c3 r]]]; simpl in H; try lia; cbn [chars list_ascii_of_string split_t map filter].
  - reflexivity.
  - destruct (is_space c1); cbn [split_t rev app map filter]; [reflexivity|].
    change (Nat.ltb 2 (len (str [c1]))) with false.
    rewrite andb_false_r. reflexivity.
  - destruct (is_space c1), (is_space c2);
      cbn [split_t rev app map filter]; try reflexivity.
    + change (Nat.ltb 2 (len (str [c2]))) with false.
      rewrite andb_false_r. reflexivity.
    + change (Nat.ltb 2 (len (str [c1]))) with false.
      rewrite andb_false_r. reflexivity.
    + change (Nat.ltb 2 (len (str [c1; c2]))) with false.
      rewrite andb_false_r. reflexivity.
Qed.

Lemma short_tokens (norm : string) :
  (len norm < 3)%nat ->
  significant_tokens norm = []
  \/ (significant_tokens norm = [norm] /\ split norm = [norm]).
Proof.
  intros H. unfold significant_tokens, split.
  destruct norm as [|c1 [|c2 [|c3 r]]]; simpl in H; try lia;
    cbn [chars list_ascii_of_string split_t map filter].
  - left. reflexivity.
  - left. destruct (is_space c1); cbn [split_t rev app map filter];
      [reflexivity|].
    change (Nat.ltb 1 (len (str [c1]))) with false.
    rewrite andb_false_r. reflexivity.
  - destruct (is_space c1), (is_space c2);
      cbn [split_t rev app map filter]; try (left; reflexivity).
    + left. change (Nat.ltb 1 (len (str [c2]))) with false.
      rewrite andb_false_r. reflexivity.
    + left. change (Nat.ltb 1 (len (str [c1]))) with false.
      rewrite andb_false_r. reflexivity.
    + change (Nat.ltb 1 (len (str [c1; c2]))) with true.
      rewrite andb_true_r.
      destruct (mem_str (str [c1; c2]) STOPWORDS); cbn [negb];
        [left; reflexivity|right; split; reflexivity].
Qed.

Lemma short_signature (norm : string) :
  (len norm < 3)%nat ->
  (negb (String.eqb (token_signature norm) "")
   && Nat.ltb 1 (List.length (split (token_signature norm))))%bool = false.
Proof.
  intros H. unfold token_signature.
  destruct (short_tokens norm H) as [E|[E Es]]; rewrite E.
  - reflexivity.
  - cbn [sorted_str fold_right insert_str join]. rewrite Es.
    apply andb_false_r.
Qed.

Lemma short_norm_unblocked (b : blocks) (rid : Z) (norm : string) :
  (len norm < 3)%nat -> block_record b (rid, norm) = b.
Proof.
  intros H. unfold block_record.
  rewrite (short_words norm H), (short_signature norm H).
  assert (H3 : Nat.leb 3 (len norm) = false) by (apply Nat.leb_gt; lia).
  assert (H4 : Nat.leb 4 (len norm) = false) by (apply Nat.leb_gt; lia).
  rewrite H3, H4. destruct b. reflexivity.
Qed.

Lemma dict_of_keys_gen {V} (l : list (Z * V)) :
  forall d, NoDup (dkeys d) ->
  NoDup (dkeys (fold_left (fun d kv => dset d (fst kv) (snd kv)) l d)).
Proof.
  induction l as [|kv l IH]; intros d Hd; simpl; [exact Hd|].
  apply IH. apply dkeys_dset_NoDup. exact Hd.
Qed.

Lemma short_never_paired (norms : dict Z string) (a b : Z) :
  NoDup (dkeys norms) ->
  In (a, b) (candidate_pairs (build_blocks norms)) ->
  (3 <= len (dget_or norms a ""))%nat /\ (3 <= len (dget_or norms b ""))%nat.
Proof.
  intros Hnd Hin. apply candidate_pairs_In in Hin.
  apply (pairs_members_ok (fun x => (3 <= len (dget_or norms x ""))%nat)
           (build_blocks norms)); [|exact Hin].
  unfold build_blocks. apply fold_blocks_ok_or; [|apply no_blocks_ok].
  intros [k v] He.
  destruct (Nat.lt_ge_cases (len v) 3) as [Hs|Hs].
  - right. intros b0. apply short_norm_unblocked. exact Hs.
  - left. simpl. unfold dget_or.
    rewrite (NoDup_keys_In_dget norms k v Hnd He). exact Hs.
Qed.

Section ShortNames.
Context {fz : Fuzz} {ho : HashOrder}.

(** X22, names too short for blocking: when the source ids are distinct, a
    valid row whose normalised name has fewer than three characters gets
    no blocking key, so it is compared with no other record: it is written
    as a group of its own, flagged primary, and no other row carries its
    id as [group_id], whatever the other names are. *)
Theorem short_names_stay_alone (rows : list input_row) (o : output_row) :
  NoDup (map in_id rows) -> In o (main rows) -> is_valid o = 1 ->
  (len (normalize (company_name o)) < 3)%nat ->
  group_id o = master_id o /\ is_primary o = 1
  /\ forall o', In o' (main rows) -> group_id o' = master_id o -> o' = o.
Proof.
  intros Hd Hin Hv Hs.
  apply outside_is_alone; try assumption.
  destruct (dmem _ (master_id o)) eqn:E; [|reflexivity].
  apply clustered_is_paired in E as (a & b & Hab & Hz).
  apply short_never_paired in Hab;
    [|unfold id_to_norm, dict_of; apply dict_of_keys_gen; constructor].
  rewrite main_eq in Hin. apply in_map_iff in Hin as [rec [<- Hin]].
  change (is_valid (emit (final_assignment (all_records rows)) rec))
    with (rec_valid rec) in Hv.
  change (master_id (emit (final_assignment (all_records rows)) rec))
    with (rec_id rec) in Hz.
  change (company_name (emit (final_assignment (all_records rows)) rec))
    with (rec_cleaned rec) in Hs.
  pose proof (norm_lookup rows Hd rec Hin Hv) as Hl.
  unfold dget_or in Hab.
  destruct Hz as [Hz|Hz]; subst; rewrite Hl in Hab; lia.
Qed.
End ShortNames.

(** * The three-character block *)

Lemma prefix3_fold (l : list (Z * string)) :
  forall b, block_prefix3 (fold_left block_record l b)
            = fold_left add_prefix3 l (block_prefix3 b).
Proof.
  induction l as [|[rid norm] l IH]; intros b; simpl; [reflexivity|].
  rewrite IH. reflexivity.
Qed.

Lemma add_prefix3_inv seen d e :
  prefix3_inv seen d -> prefix3_inv (seen ++ [e]) (add_prefix3 d e).
Proof.
  intros [H1 H2]. destruct e as [rid norm].
  unfold add_prefix3, add_when. cbn [fst snd].
  destruct (Nat.leb_spec 3 (len norm)) as [Hl|Hl].
  - unfold block_add. split.
    + intros k ms Hk.
      destruct (String.eqb_spec (prefix_n 3 norm) k) as [E|E].
      * subst k. rewrite dget_dset_same in Hk. injection Hk as <-.
        assert (Hold : NoDup (dget_or d (prefix_n 3 norm) [])
                       /\ forall x, In x (dget_or d (prefix_n 3 norm) []) ->
                            exists v, In (x, v) seen
                                      /\ prefix_n 3 v = prefix_n 3 norm).
        { unfold dget_or. destruct (dget d (prefix_n 3 norm)) as [ms|] eqn:Eo.
          - apply (H1 _ _ Eo).
          - split; [constructor|intros x []]. }
        destruct Hold as [Hn Hm]. split; [apply kadd_NoDup; exact Hn|].
        intros x Hx. apply kadd_In in Hx as [Hx|Hx].
        -- subst x. exists norm. split; [|reflexivity].
           apply in_or_app. right. left. reflexivity.
        -- destruct (Hm x Hx) as [v [Hv Ev]]. exists v.
           split; [apply in_or_app; left; exact Hv|exact Ev].
      * rewrite dget_dset_other in Hk by (intros E'; apply E; symmetry; exact E').
        destruct (H1 k ms Hk) as [Hn Hm]. split; [exact Hn|].
        intros x Hx. destruct (Hm x Hx) as [v [Hv Ev]]. exists v.
        split; [apply in_or_app; left; exact Hv|exact Ev].
    + intros x v Hin Hv. apply in_app_or in Hin as [Hin|[Hin|[]]].
      * destruct (H2 x v Hin Hv) as [ms [Hk Hx]].
        destruct (String.eqb_spec (prefix_n 3 norm) (prefix_n 3 v)) as [E|E].
        -- rewrite <- E. rewrite dget_dset_same. eexists. split; [reflexivity|].
           apply kadd_In. right. unfold dget_or. rewrite E, Hk. exact Hx.
        -- rewrite dget_dset_other
             by (intros E'; apply E; symmetry; exact E').
           exists ms. split; assumption.
      * injection Hin as <- <-. rewrite dget_dset_same.
        eexists. split; [reflexivity|]. apply kadd_In. left. reflexivity.
  - split.
    + intros k ms Hk. destruct (H1 k ms Hk) as [Hn Hm]. split; [exact Hn|].
      intros x Hx. destruct (Hm x Hx) as [v [Hv Ev]]. exists v.
      split; [apply in_or_app; left; exact Hv|exact Ev].
    + intros x v Hin Hv. apply in_app_or in Hin as [Hin|[Hin|[]]].
      * apply (H2 x v Hin Hv).
      * injection Hin as <- <-. lia.
Qed.

Lemma fold_prefix3_inv (l : list (Z * string)) :
  forall seen d, prefix3_inv seen d ->
                 prefix3_inv (seen ++ l) (fold_left add_prefix3 l d).
Proof.
  induction l as [|e l IH]; intros seen d H; simpl.
  - rewrite app_nil_r. exact H.
  - replace (seen ++ e :: l)%list with ((seen ++ [e]) ++ l)%list
      by (rewrite <- app_assoc; reflexivity).
    apply IH. apply add_prefix3_inv. exact H.
Qed.

Lemma prefix3_block (norms : dict Z string) :
  prefix3_inv norms (block_prefix3 (build_blocks norms)).
Proof.
  unfold build_blocks. rewrite prefix3_fold.
  apply (fold_prefix3_inv norms [] []). split.
  - intros k ms [=].
  - intros x v [].
Qed.

Lemma two_members_length {A} (l : list A) (a b : A) :
  In a l -> In b l -> a <> b -> (2 <= List.length l)%nat.
Proof.
  destruct l as [|x [|y l]]; simpl.
  - intros [].
  - intros [<-|[]] [<-|[]] H. congruence.
  - intros _ _ _. lia.
Qed.

Lemma small_block_pairs (b : blocks) (k : string) (ms : list Z) (x y : Z) :
  dget (block_prefix3 b) k = Some ms -> In x ms -> In y ms -> x <> y ->
  (List.length ms <= MAX_BLOCK)%nat ->
  In (x, y) (candidate_pairs b) \/ In (y, x) (candidate_pairs b).
Proof.
  intros Hk Hx Hy Hxy Hlen.
  assert (Hp : forall p, In p (block_pairs ms) -> In p (candidate_pairs b)).
  { intros p Hp. apply candidate_pairs_In. unfold emitted_pairs.
    apply in_flat_map. exists (block_prefix3 b). split; [left; reflexivity|].
    apply in_flat_map. exists (k, ms). split; [|exact Hp].
    apply dget_Some_In. exact Hk. }
  assert (Hb : block_pairs ms = pairs_from (sorted_Z ms)).
  { unfold block_pairs.
    pose proof (two_members_length ms x y Hx Hy Hxy) as H2.
    destruct (Nat.ltb_spec (List.length ms) 2); [lia|].
    destruct (Nat.ltb_spec MAX_BLOCK (List.length ms)); [lia|]. reflexivity. }
  destruct (pairs_from_total x y (sorted_Z ms) Hxy) as [H|H];
    try (apply sorted_Z_In; assumption).
  - left. apply Hp. rewrite Hb. exact H.
  - right. apply Hp. rewrite Hb. exact H.
Qed.

Section DuplicateRows.
Context {fz : Fuzz} {ho : HashOrder}.

Lemma norm_entry_record (rows : list input_row) (x : Z) (v : string) :
  NoDup (map in_id rows) ->
  In (x, v) (id_to_norm (all_records rows)) ->
  exists rec, In rec (all_records rows) /\ rec_valid rec = 1
              /\ rec_id rec = x /\ v = normalize (rec_cleaned rec).
Proof.
  intros Hd Hin. unfold id_to_norm, valid_records, dict_of in Hin.
  rewrite (dict_of_acc _ []) in Hin.
  - simpl in Hin. rewrite map_map in Hin. simpl in Hin.
    apply in_map_iff in Hin as [rec [E Hin]].
    apply filter_In in Hin as [Hin Hv]. injection E as E1 E2.
    exists rec. split; [exact Hin|]. split; [|split; [exact E1|symmetry; exact E2]].
    unfold is_valid_record in Hv. apply andb_true_iff in Hv as [Hv _].
    apply Z.eqb_eq. exact Hv.
  - simpl. rewrite !map_map. simpl. apply distinct_after_filter.
    rewrite rec_ids. exact Hd.
Qed.

Lemma candidate_exact_same (rows : list input_row) (a b : Z) :
  In (a, b) (candidate_pairs (build_blocks (id_to_norm (all_records rows)))) ->
  norm_of (id_to_norm (all_records rows)) a
  = norm_of (id_to_norm (all_records rows)) b ->
  norm_of (id_to_norm (all_records rows)) a <> "" -> a <> b ->
  same (final_clusters (all_records rows)) a b.
Proof.
  intros Hin Hn Hne Hab. unfold final_clusters.
  apply split_exact; auto.
  - apply raw_inv.
  - apply cluster_exact; auto.
Qed.

(** X23, exact duplicates in a block of moderate size: when the source ids
    are distinct, two valid rows with the same normalised name of three
    characters or more are written with the same [group_id], provided at
    most [MAX_BLOCK] valid rows have a normalised name that starts with the
    same three characters.  Beyond that size the block is skipped and the
    code gives no such guarantee. *)
Theorem duplicates_merge_in_small_block
    (rows : list input_row) (oa ob : output_row) :
  NoDup (map in_id rows) -> In oa (main rows) -> In ob (main rows) ->
  is_valid oa = 1 -> is_valid ob = 1 ->
  normalize (company_name oa) = normalize (company_name ob) ->
  (3 <= len (normalize (company_name oa)))%nat ->
  (List.length
     (filter (shares_prefix3 (prefix_n 3 (normalize (company_name oa))))
             (main rows)) <= MAX_BLOCK)%nat ->
  group_id oa = group_id ob.
Proof.
  intros Hd Hoa Hob Hva Hvb Hn Hl Hc.
  set (norms := id_to_norm (all_records rows)).
  set (key := prefix_n 3 (normalize (company_name oa))) in *.
  pose proof Hoa as Hra. pose proof Hob as Hrb.
  rewrite main_eq in Hra, Hrb.
  apply in_map_iff in Hra as [ra [Ea Hra]].
  apply in_map_iff in Hrb as [rb [Eb Hrb]].
  assert (Hva' : rec_valid ra = 1) by (rewrite <- Ea in Hva; exact Hva).
  assert (Hvb' : rec_valid rb = 1) by (rewrite <- Eb in Hvb; exact Hvb).
  assert (Hca : company_name oa = rec_cleaned ra) by (rewrite <- Ea; reflexivity).
  assert (Hcb : company_name ob = rec_cleaned rb) by (rewrite <- Eb; reflexivity).
  assert (Hia : master_id oa = rec_id ra) by (rewrite <- Ea; reflexivity).
  assert (Hib : master_id ob = rec_id rb) by (rewrite <- Eb; reflexivity).
  pose proof (norm_lookup rows Hd ra Hra Hva') as Hla.
  pose proof (norm_lookup rows Hd rb Hrb Hvb') as Hlb.
  rewrite <- Hca in Hla. rewrite <- Hcb, <- Hn in Hlb.
  fold norms in Hla, Hlb.
  assert (Hna : norm_of norms (rec_id ra) = normalize (company_name oa))
    by (unfold norm_of, dget_or; rewrite Hla; reflexivity).
  assert (Hnb : norm_of norms (rec_id rb) = normalize (company_name oa))
    by (unfold norm_of, dget_or; rewrite Hlb; reflexivity).
  assert (Hne : norm_of norms (rec_id ra) <> "").
  { rewrite Hna. intros E. rewrite E in Hl. simpl in Hl. lia. }
  rewrite (row_of_named rows (rec_id ra) oa Hd Hoa Hia) by exact Hne.
  rewrite (row_of_named rows (rec_id rb) ob Hd Hob Hib)
    by (unfold named; fold norms; congruence).
  destruct (Z.eq_dec (rec_id ra) (rec_id rb)) as [E|Hab];
    [rewrite E; reflexivity|].
  apply (same_group_of _ _ _ (fin_inv rows)).
  destruct (prefix3_block norms) as [H1 H2].
  destruct (H2 _ _ (dget_Some_In _ _ _ Hla) Hl) as [ms [Hk Hma]].
  destruct (H2 _ _ (dget_Some_In _ _ _ Hlb) Hl) as [ms' [Hk' Hmb]].
  fold key in Hk, Hk'. rewrite Hk in Hk'. injection Hk' as <-.
  destruct (H1 key ms Hk) as [Hnd Hmem].
  assert (Hlen : (List.length ms <= MAX_BLOCK)%nat).
  { apply (Nat.le_trans _ (List.length
                             (map master_id
                                (filter (shares_prefix3 key) (main rows)))));
      [|rewrite length_map; exact Hc].
    apply NoDup_incl_length; [exact Hnd|].
    intros x Hx. destruct (Hmem x Hx) as [v [Hv Ev]].
    apply (norm_entry_record rows x v Hd) in Hv
      as (rec & Hrec & Hrv & Hid & Hrn).
    apply in_map_iff. exists (emit (final_assignment (all_records rows)) rec).
    split; [exact Hid|]. apply filter_In. split.
    - rewrite main_eq. apply in_map. exact Hrec.
    - unfold shares_prefix3.
      change (is_valid (emit (final_assignment (all_records rows)) rec))
        with (rec_valid rec).
      change (company_name (emit (final_assignment (all_records rows)) rec))
        with (rec_cleaned rec).
      rewrite Hrv, <- Hrn, Ev. simpl. apply String.eqb_refl. }
  destruct (small_block_pairs (build_blocks norms) key ms
              (rec_id ra) (rec_id rb) Hk Hma Hmb Hab Hlen) as [Hp|Hp].
  - apply candidate_exact_same; auto. fold norms. congruence.
  - apply same_sym. apply candidate_exact_same; auto.
    + fold norms. congruence.
    + fold norms. congruence.
Qed.
End DuplicateRows.

(** * Union by rank *)

Section FilterCounts.
Context {A : Type}.
Implicit Types (p q s : A -> bool) (l : list A).

Lemma filter_count_mono p q l :
  (forall z, In z l -> p z = true -> q z = true) ->
  (List.length (filter p l) <= List.length (filter q l))%nat.
Proof.
  induction l as [|x l IH]; intros H; simpl; [lia|].
  assert (IH' := IH (fun z Hz => H z (or_intror Hz))).
  pose proof (H x (or_introl eq_refl)) as Hx.
  destruct (p x); [rewrite Hx by reflexivity|destruct (q x)]; simpl; lia.
Qed.

Lemma filter_count_sum p q s l :
  (forall z, In z l -> p z = true -> q z = true -> False) ->
  (forall z, In z l -> p z = true -> s z = true) ->
  (forall z, In z l -> q z = true -> s z = true) ->
  (List.length (filter p l) + List.length (filter q l)
   <= List.length (filter s l))%nat.
Proof.
  induction l as [|x l IH]; intros Hd Hp Hq; simpl; [lia|].
  assert (IH' := IH (fun z Hz => Hd z (or_intror Hz))
                    (fun z Hz => Hp z (or_intror Hz))
                    (fun z Hz => Hq z (or_intror Hz))).
  pose proof (Hd x (or_introl eq_refl)) as Hdx.
  pose proof (Hp x (or_introl eq_refl)) as Hpx.
  pose proof (Hq x (or_introl eq_refl)) as Hqx.
  destruct (p x), (q x).
  - exfalso. apply Hdx; reflexivity.
  - rewrite Hpx by reflexivity. simpl. lia.
  - rewrite Hqx by reflexivity. simpl. lia.
  - destruct (s x); simpl; lia.
Qed.

Lemma filter_count_pos p l x :
  In x l -> p x = true -> (1 <= List.length (filter p l))%nat.
Proof.
  intros Hin Hp.
  assert (H : In x (filter p l)) by (apply filter_In; auto).
  destruct (filter p l); [destruct H|simpl; lia].
Qed.

Lemma filter_count_app p l l' :
  (List.length (filter p l) <= List.length (filter p (l ++ l')))%nat.
Proof. rewrite filter_app, length_app. lia. Qed.
End FilterCounts.

Lemma list_max_cases (l : list nat) : list_max l = 0%nat \/ In (list_max l) l.
Proof.
  induction l as [|x l IH]; simpl; [left; reflexivity|].
  destruct (Nat.max_spec x (list_max l)) as [[_ E]|[_ E]]; rewrite E.
  - destruct IH as [IH|IH]; [left; exact IH|right; right; exact IH].
  - right. left. reflexivity.
Qed.

Section RankBound.
Implicit Types (uf : UnionFind) (x y z r : Z).

Lemma root_of_Rep uf z :
  uf_inv uf -> dmem (parent uf) z = true -> Rep uf z (root_of uf z).
Proof.
  intros Hinv Hz. destruct (find_spec uf z Hinv) as (_ & _ & _ & Hr & _).
  rewrite (touch_mem uf z Hz) in Hr. exact Hr.
Qed.

Lemma root_of_iff uf z r :
  uf_inv uf -> dmem (parent uf) z = true ->
  ((root_of uf z =? r) = true <-> Rep uf z r).
Proof.
  intros Hinv Hz. pose proof (root_of_Rep uf z Hinv Hz) as Hr.
  rewrite Z.eqb_eq. split.
  - intros <-. exact Hr.
  - intros H. exact (Rep_det _ _ _ _ Hr H).
Qed.

(** The class of a root does not shrink when the roots of its members are
    kept. *)
Lemma class_size_mono uf uf' r r' l' :
  uf_inv uf -> uf_inv uf' ->
  dkeys (parent uf') = (dkeys (parent uf) ++ l')%list ->
  (forall z, Rep uf z r -> Rep uf' z r') ->
  (class_size uf r <= class_size uf' r')%nat.
Proof.
  intros Hinv Hinv' Hk Hrep. unfold class_size. rewrite Hk.
  eapply Nat.le_trans; [|apply filter_count_app].
  apply filter_count_mono. intros z Hz Hp.
  apply dmem_In in Hz. apply (root_of_iff uf z r Hinv Hz) in Hp.
  apply Hrep in Hp. apply root_of_iff; [exact Hinv'| |exact Hp].
  apply (Rep_dom _ _ _ Hp).
Qed.

Lemma touch_keys uf x :
  uf_inv uf ->
  exists l', dkeys (parent (touch uf x)) = (dkeys (parent uf) ++ l')%list.
Proof.
  intros Hinv. unfold touch. destruct (dmem (parent uf) x) eqn:E.
  - exists []. rewrite app_nil_r. reflexivity.
  - exists [x]. simpl. rewrite dset_new by (apply dmem_false_None; exact E).
    unfold dkeys. rewrite map_app. reflexivity.
Qed.

Lemma touch_rank_keys uf x :
  NoDup (dkeys (rank uf)) -> NoDup (dkeys (rank (touch uf x))).
Proof.
  intros H. unfold touch. destruct (dmem (parent uf) x); [exact H|].
  simpl. apply dkeys_dset_NoDup. exact H.
Qed.

Lemma find_size uf x : size_inv uf -> size_inv (fst (find uf x)).
Proof.
  intros (Hinv & Hnd & Hsz).
  destruct (find_spec uf x Hinv) as (Hinv1 & Hk & Hrk & _ & Heq).
  split; [exact Hinv1|]. split.
  { rewrite Hrk. apply touch_rank_keys. exact Hnd. }
  intros r Hr.
  assert (Hrr : Rep (touch uf x) r r) by (apply Heq, Rep_root; exact Hr).
  assert (Erk : rank_of (fst (find uf x)) r = rank_of uf r).
  { unfold rank_of at 1. rewrite Hrk. apply (rank_of_touch uf x r Hinv). }
  rewrite Erk.
  apply (Rep_touch uf x r r Hinv) in Hrr as [Hold|(Hnew & -> & _)].
  - eapply Nat.le_trans; [apply Hsz; apply (Rep_is_root _ _ _ Hold)|].
    destruct (touch_keys uf x Hinv) as [l' Hl'].
    apply (class_size_mono uf (fst (find uf x)) r r l' Hinv Hinv1).
    + rewrite Hk. exact Hl'.
    + intros z Hz. apply Heq. apply Rep_touch; [exact Hinv|]. left. exact Hz.
  - assert (E0 : rank_of uf x = 0%nat).
    { unfold rank_of, dget_or. rewrite (inv_fresh uf Hinv x Hnew). reflexivity. }
    rewrite E0. simpl. unfold class_size.
    apply (filter_count_pos _ _ x).
    + apply dmem_In. apply dget_Some_mem in Hr. exact Hr.
    + apply root_of_iff; [exact Hinv1| |apply Rep_root; exact Hr].
      apply dget_Some_mem in Hr. exact Hr.
Qed.

Lemma link_size uf a b :
  size_inv uf -> dget (parent uf) a = Some a -> dget (parent uf) b = Some b ->
  a <> b -> (rank_of uf b <= rank_of uf a)%nat ->
  size_inv (link_roots uf a b).
Proof.
  intros (Hinv & Hnd & Hsz) Ha Hb Hab Hle.
  pose proof (link_inv uf a b Hinv Ha Hb Hab Hle) as Hinv'.
  assert (Hk : dkeys (parent (link_roots uf a b))
               = (dkeys (parent uf) ++ [])%list).
  { rewrite app_nil_r, link_parent. apply dkeys_dset_mem.
    apply dget_Some_mem in Hb. exact Hb. }
  split; [exact Hinv'|]. split.
  { unfold link_roots. destruct (Nat.eqb _ _); simpl; [|exact Hnd].
    apply dkeys_dset_NoDup. exact Hnd. }
  intros r Hr. rewrite link_parent in Hr.
  assert (Hrb : r <> b).
  { intros ->. rewrite dget_dset_same in Hr. congruence. }
  rewrite dget_dset_other in Hr by exact Hrb.
  destruct (Z.eq_dec r a) as [->|Hra].
  - eapply Nat.le_trans with (m := (class_size uf a + class_size uf b)%nat).
    + pose proof (Hsz a Ha). pose proof (Hsz b Hb).
      rewrite link_rank_self.
      destruct (Nat.eqb_spec (rank_of uf a) (rank_of uf b)) as [E|E].
      * rewrite Nat.add_1_r, Nat.pow_succ_r'. rewrite E in *. lia.
      * lia.
    + unfold class_size. rewrite Hk, app_nil_r.
      apply filter_count_sum.
      * intros z Hz H1 H2. apply Z.eqb_eq in H1, H2. congruence.
      * intros z Hz H1. apply dmem_In in Hz.
        apply (root_of_iff uf z a Hinv Hz) in H1.
        apply (link_Rep uf a b Ha Hb Hab) in H1.
        rewrite (proj2 (Z.eqb_neq a b) Hab) in H1.
        apply root_of_iff; [exact Hinv'| |exact H1].
        apply (Rep_dom _ _ _ H1).
      * intros z Hz H1. apply dmem_In in Hz.
        apply (root_of_iff uf z b Hinv Hz) in H1.
        apply (link_Rep uf a b Ha Hb Hab) in H1.
        rewrite Z.eqb_refl in H1.
        apply root_of_iff; [exact Hinv'| |exact H1].
        apply (Rep_dom _ _ _ H1).
  - rewrite (link_rank_other uf a b r Hra).
    eapply Nat.le_trans; [apply (Hsz r Hr)|].
    apply (class_size_mono uf (link_roots uf a b) r r [] Hinv Hinv' Hk).
    intros z Hz. apply (link_Rep uf a b Ha Hb Hab) in Hz.
    rewrite (proj2 (Z.eqb_neq r b) Hrb) in Hz. exact Hz.
Qed.

Lemma union_size uf x y : size_inv uf -> size_inv (union uf x y).
Proof.
  intros H. pose proof H as (Hinv & _).
  assert (H2 : size_inv (found uf x y)).
  { unfold found. apply find_size, find_size, H. }
  destruct (found_roots uf x y Hinv) as [Hrx Hry].
  pose proof (Rep_is_root _ _ _ Hrx) as Hx.
  pose proof (Rep_is_root _ _ _ Hry) as Hy.
  rewrite union_unfold. cbv zeta.
  change (fst (find (fst (find uf x)) y)) with (found uf x y).
  set (rx := snd (find uf x)) in *.
  set (ry := snd (find (fst (find uf x)) y)) in *.
  destruct (Z.eqb_spec rx ry) as [E|E]; [exact H2|].
  destruct (Nat.ltb_spec (rank_of (found uf x y) rx)
                         (rank_of (found uf x y) ry)).
  - apply link_size; auto. lia.
  - apply link_size; auto.
Qed.

Lemma groups_size l :
  forall uf g, size_inv uf -> size_inv (fst (fold_left groups_step l (uf, g))).
Proof.
  induction l as [|x l IH]; intros uf g H; simpl; [exact H|].
  destruct (find uf x) as [uf' r] eqn:E.
  apply IH. change uf' with (fst (uf', r)). rewrite <- E.
  apply find_size. exact H.
Qed.

Lemma built_size uf : built uf -> size_inv uf.
Proof.
  induction 1 as [|uf x _ IH|uf x y _ IH|uf _ IH].
  - split; [apply uf_new_inv|]. split; [constructor|]. intros r [=].
  - apply find_size. exact IH.
  - apply union_size. exact IH.
  - apply groups_size. exact IH.
Qed.

(** X24, union by rank keeps the trees shallow: in every state that calls
    of [find], [union] and [groups] produce from the empty structure, a
    root of rank [k] has at least [2 ^ k] elements in its class.  Hence no
    rank exceeds the binary logarithm of the number of elements, and that
    many recursive calls always suffice for [find]. *)
Theorem rank_is_logarithmic uf :
  built uf ->
  (forall r, dget (parent uf) r = Some r ->
             (2 ^ rank_of uf r <= class_size uf r)%nat)
  /\ (max_rank uf <= Nat.log2 (List.length (dkeys (parent uf))))%nat
  /\ forall x, find_rec (Nat.log2 (List.length (dkeys (parent uf)))) uf x
               = find uf x.
Proof.
  intros Hb. destruct (built_size uf Hb) as (Hinv & Hnd & Hsz).
  assert (Hmax : (max_rank uf
                  <= Nat.log2 (List.length (dkeys (parent uf))))%nat).
  { destruct (list_max_cases (map snd (rank uf))) as [E|Hin];
      [unfold max_rank; rewrite E; lia|].
    fold (max_rank uf) in Hin.
    apply in_map_iff in Hin as [[k v] [Ev Hin]]. simpl in Ev. subst v.
    pose proof (NoDup_keys_In_dget _ _ _ Hnd Hin) as Hk.
    assert (Hkn : dmem (parent uf) k = true).
    { destruct (dmem (parent uf) k) eqn:E; [reflexivity|].
      rewrite (inv_fresh uf Hinv k E) in Hk. discriminate. }
    assert (Erk : rank_of uf k = max_rank uf)
      by (unfold rank_of, dget_or; rewrite Hk; reflexivity).
    pose proof (root_of_Rep uf k Hinv Hkn) as Hr.
    pose proof (Hsz _ (Rep_is_root _ _ _ Hr)) as Hs.
    assert (Hle : (rank_of uf k <= rank_of uf (root_of uf k))%nat).
    { destruct (Rep_rank uf k _ Hinv Hr) as [E|E]; [rewrite <- E|]; lia. }
    assert (Hc : (class_size uf (root_of uf k)
                  <= List.length (dkeys (parent uf)))%nat).
    { unfold class_size. apply filter_length_le. }
    assert (Hp : (2 ^ max_rank uf <= List.length (dkeys (parent uf)))%nat).
    { rewrite <- Erk.
      eapply Nat.le_trans; [apply Nat.pow_le_mono_r; [lia|exact Hle]|]. lia. }
    apply Nat.log2_le_pow2; [|exact Hp].
    pose proof (Nat.pow_nonzero 2 (max_rank uf)). lia. }
  split; [exact Hsz|]. split; [exact Hmax|].
  intros x. unfold find.
  rewrite (find_rec_touch _ uf x), (find_rec_touch (max_rank uf)).
  apply find_rec_fuel.
  - apply touch_inv. exact Hinv.
  - apply touch_known.
  - rewrite max_rank_touch by exact Hinv. lia.
  - exact Hmax.
Qed.
End RankBound.

(** * The shape of cleaned names *)

Lemma word_not_space (c : ascii) : is_word c = true -> is_space c = false.
Proof.
  destruct c as [[] [] [] [] [] [] [] []]; try reflexivity; intros [=].
Qed.

Lemma amp_match (prev : option ascii) (s rest : text) :
  match_here AMP_GLUE_RE prev s = Some rest ->
  exists c1 mid c2,
    s = ((c1 :: mid) ++ [c2] ++ rest)%list
    /\ is_word c1 = true /\ is_word c2 = true.
Proof.
  unfold match_here, AMP_GLUE_RE, word_char. cbn [seqs rx].
  destruct s as [|c1 s1]; [discriminate|].
  destruct (is_word c1) eqn:E1; [|discriminate].
  intros H.
  apply (rx_suffix ws_plus) in H as (p2 & s2 & [pre Epre] & H).
  unfold chr in H. cbn [rx] in H.
  destruct s2 as [|a s3]; [discriminate|].
  destruct (Ascii.eqb "&" a) eqn:Ea; [|discriminate].
  destruct s3 as [|c2 s4]; [discriminate|].
  destruct (is_word c2) eqn:E2; [|discriminate].
  injection H as <-.
  exists c1, (pre ++ [a])%list, c2. split; [|split; assumption].
  rewrite Epre. simpl. rewrite <- app_assoc. reflexivity.
Qed.

Lemma loose_word_head (c : ascii) (t : text) :
  is_space c = false -> loose (c :: t) = loose t.
Proof. intros H. simpl. rewrite H. reflexivity. Qed.

Lemma loose_same_head (c : ascii) (t u : text) :
  loose (c :: t) = true -> loose u = true ->
  hd_error u = hd_error t -> loose (c :: u) = true.
Proof.
  simpl. intros H Hu Hh. rewrite Hu, andb_true_r.
  apply andb_true_iff in H as [H _].
  destruct (is_space c); [|reflexivity].
  apply andb_true_iff in H as [H1 H2]. rewrite H1. simpl.
  destruct u as [|d u], t as [|e t]; simpl in Hh; try discriminate; auto.
  injection Hh as ->. exact H2.
Qed.

Lemma amp_glue_loose :
  forall fuel prev s, loose s = true ->
    loose (sub_from fuel AMP_GLUE_RE amp_glue_repl prev s) = true
    /\ hd_error (sub_from fuel AMP_GLUE_RE amp_glue_repl prev s) = hd_error s.
Proof.
  induction fuel as [|fuel IH]; intros prev s Hs; [simpl; auto|].
  assert (Hplain :
    loose match s with
          | [] => []
          | c :: s' => c :: sub_from fuel AMP_GLUE_RE amp_glue_repl (Some c) s'
          end = true
    /\ hd_error match s with
                | [] => []
                | c :: s' =>
                    c :: sub_from fuel AMP_GLUE_RE amp_glue_repl (Some c) s'
                end = hd_error s).
  { destruct s as [|c s']; [auto|]. split; [|reflexivity].
    destruct (IH (Some c) s' (loose_tail _ _ Hs)) as [H1 H2].
    apply (loose_same_head c s'); assumption. }
  cbn [sub_from].
  destruct (match_here AMP_GLUE_RE prev s) as [rest|] eqn:Em; [|exact Hplain].
  destruct (amp_match prev s rest Em) as (c1 & mid & c2 & Es & E1 & E2).
  assert (En : (List.length s - List.length rest)%nat
               = S (List.length (mid ++ [c2])%list)).
  { rewrite Es. cbn [app List.length]. rewrite !length_app.
    cbn [List.length]. lia. }
  rewrite En.
  assert (Ef : firstn (S (List.length (mid ++ [c2])%list)) s
               = (c1 :: mid ++ [c2])%list).
  { replace s with ((c1 :: mid ++ [c2]) ++ rest)%list
      by (rewrite Es; cbn [app]; rewrite <- app_assoc; reflexivity).
    change (S (List.length (mid ++ [c2])%list))
      with (List.length (c1 :: mid ++ [c2])%list).
    rewrite firstn_app, firstn_all, Nat.sub_diag. cbn [firstn].
    apply app_nil_r. }
  rewrite Ef. cbn [amp_glue_repl].
  replace (last (c1 :: mid ++ [c2]) c1) with c2
    by (symmetry; apply (last_last (c1 :: mid) c2 c1)).
  replace (last (c1 :: mid ++ [c2]) " "%char) with c2
    by (symmetry; apply (last_last (c1 :: mid) c2 " "%char)).
  cbn [app]. split; [|rewrite Es; reflexivity].
  rewrite (loose_word_head c1) by (apply word_not_space; exact E1).
  rewrite (loose_word_head "&"%char) by reflexivity.
  rewrite (loose_word_head c2) by (apply word_not_space; exact E2).
  apply IH. apply (loose_suffix rest s); [|exact Hs].
  exists (c1 :: mid ++ [c2])%list. rewrite Es. cbn [app].
  rewrite <- app_assoc. reflexivity.
Qed.

Lemma squeezed_loose (s : string) :
  loose (chars (re_sub_const WS_RUN_RE " " s)) = true.
Proof.
  unfold re_sub_const, re_sub. rewrite chars_str.
  apply (ws_run_loose (Datatypes.S (List.length (chars s))) None (chars s)).
  lia.
Qed.

Lemma strip_loose (s : string) :
  loose (chars s) = true -> loose (chars (strip s)) = true.
Proof.
  intros H. unfold strip. rewrite chars_str.
  destruct (rstrip_t_prefix (lstrip_t (chars s))) as [sp E].
  apply (loose_prefix _ sp). rewrite <- E.
  apply (loose_suffix _ (chars s)); [apply lstrip_t_suffix|exact H].
Qed.

Lemma clean_name_loose (label : string) :
  loose (chars (clean_name label)) = true.
Proof.
  unfold clean_name. destruct (String.eqb label ""); [reflexivity|].
  cbv zeta. apply strip_loose. unfold re_sub at 1. rewrite chars_str.
  apply amp_glue_loose. apply squeezed_loose.
Qed.

(** X25, the shape of cleaned names: the result of [clean_name] has no
    white space at either end, no two blanks in a row and no white space
    other than the blank.  Hence the last penalty of [primary_score], for
    a doubled blank or white space at an end, never applies to a cleaned
    name. *)
Theorem clean_name_shape (label : string) :
  strip (clean_name label) = clean_name label
  /\ contains_t (chars "  ") (chars (clean_name label)) = false
  /\ (forall c, In c (chars (clean_name label)) -> is_space c = true ->
                c = " "%char)
  /\ (contains_t (chars "  ") (chars (clean_name label))
      || negb (String.eqb (clean_name label) (strip (clean_name label))))%bool
     = false.
Proof.
  pose proof (clean_name_loose label) as Hl.
  pose proof (clean_name_stripped label) as Hs.
  pose proof (loose_no_double_blank _ Hl) as Hd.
  split; [exact Hs|]. split; [exact Hd|]. split.
  - intros c Hin Hc. apply (loose_blank _ c Hl Hin Hc).
  - rewrite Hd, Hs, String.eqb_refl. reflexivity.
Qed.

(** * Groups and clusters *)

Section GroupsAreClusters.
Context {fz : Fuzz} {ho : HashOrder}.

Lemma group_of_same cleaned types uf x :
  uf_inv uf -> dmem (parent uf) x = true ->
  same uf x (group_of (select_primaries cleaned types (raw_groups_of uf)) x).
Proof.
  intros Hinv Hx.
  destruct (member_group uf Hinv x Hx) as (r & ms & Hin & Hxm & Hne).
  destruct (select_in_group cleaned types uf Hinv r ms x Hin Hxm) as [E _].
  rewrite E. exists r. split.
  - apply (raw_members uf Hinv r ms); assumption.
  - apply (raw_members uf Hinv r ms); [exact Hin|].
    apply best_In. exact Hne.
Qed.

Lemma group_of_conn cleaned types uf a b :
  uf_inv uf ->
  group_of (select_primaries cleaned types (raw_groups_of uf)) a
  = group_of (select_primaries cleaned types (raw_groups_of uf)) b ->
  a = b \/ same uf a b.
Proof.
  intros Hinv E.
  destruct (dmem (parent uf) a) eqn:Ha, (dmem (parent uf) b) eqn:Hb.
  - right. pose proof (group_of_same cleaned types uf a Hinv Ha) as H1.
    pose proof (group_of_same cleaned types uf b Hinv Hb) as H2.
    rewrite <- E in H2.
    exact (same_trans _ _ _ _ H1 (same_sym _ _ _ H2)).
  - right. pose proof (group_of_same cleaned types uf a Hinv Ha) as H.
    rewrite E in H.
    destruct (select_outside cleaned types uf Hinv b Hb) as [Eb _].
    rewrite Eb in H. exact H.
  - right. pose proof (group_of_same cleaned types uf b Hinv Hb) as H.
    rewrite <- E in H.
    destruct (select_outside cleaned types uf Hinv a Ha) as [Ea _].
    rewrite Ea in H. apply same_sym. exact H.
  - left.
    destruct (select_outside cleaned types uf Hinv a Ha) as [Ea _].
    destruct (select_outside cleaned types uf Hinv b Hb) as [Eb _].
    congruence.
Qed.

(** X26, what a group is: when the source ids are distinct, two valid rows
    carry the same [group_id] exactly when they are the same record or
    their records are in one final cluster.  Two different valid rows of
    one group are therefore always linked by a chain of candidate pairs
    that the merge decision accepted: the job never groups records without
    such a chain. *)
Theorem groups_are_clusters (rows : list input_row) (oa ob : output_row) :
  NoDup (map in_id rows) -> In oa (main rows) -> In ob (main rows) ->
  is_valid oa = 1 -> is_valid ob = 1 ->
  (group_id oa = group_id ob <->
   master_id oa = master_id ob
   \/ same (final_clusters (all_records rows)) (master_id oa) (master_id ob))
  /\ (group_id oa = group_id ob -> master_id oa <> master_id ob ->
      clos_trans Z (accepted_link (id_to_norm (all_records rows)))
                 (master_id oa) (master_id ob)).
Proof.
  intros Hd Hoa Hob Hva Hvb.
  rewrite main_eq in Hoa, Hob.
  apply in_map_iff in Hoa as [ra [<- Hra]].
  apply in_map_iff in Hob as [rb [<- Hrb]].
  change (is_valid (emit (final_assignment (all_records rows)) ra))
    with (rec_valid ra) in Hva.
  change (is_valid (emit (final_assignment (all_records rows)) rb))
    with (rec_valid rb) in Hvb.
  change (master_id (emit (final_assignment (all_records rows)) ra))
    with (rec_id ra).
  change (master_id (emit (final_assignment (all_records rows)) rb))
    with (rec_id rb).
  rewrite (emit_valid_group rows ra Hva), (emit_valid_group rows rb Hvb).
  pose proof (fin_inv rows) as Hinv.
  assert (Hto : group_of (final_assignment (all_records rows)) (rec_id ra)
                = group_of (final_assignment (all_records rows)) (rec_id rb) ->
                rec_id ra = rec_id rb
                \/ same (final_clusters (all_records rows))
                        (rec_id ra) (rec_id rb)).
  { apply group_of_conn. exact Hinv. }
  split; [split|].
  - exact Hto.
  - intros [E|Hs]; [rewrite E; reflexivity|].
    apply (same_group_of _ _ _ Hinv). exact Hs.
  - intros E Hne. destruct (Hto E) as [E'|Hs]; [contradiction|].
    apply raw_same_chain.
    apply (split_refines (id_to_norm (all_records rows)) _ _ _ (raw_inv rows)).
    exact Hs.
Qed.
End GroupsAreClusters.

(** * Closed instances of the further properties *)

Lemma small_forest_inv : uf_inv small_forest.
Proof. apply find_inv, union_inv, uf_new_inv. Qed.

Lemma find_in_small_forest :
  uf_inv small_forest
  /\ dget (parent (fst (find small_forest 2))) 2
     = Some (snd (find small_forest 2))
  /\ snd (find small_forest 2) = 1.
Proof.
  pose proof (find_contract small_forest 2 small_forest_inv)
    as (_ & _ & H3 & _).
  refine (conj small_forest_inv (conj H3 _)).
  vm_compute. reflexivity.
Defined.

Lemma find_depth_in_small_forest :
  uf_inv small_forest /\ (max_rank small_forest <= 7)%nat
  /\ find_rec 7 small_forest 2 = find small_forest 2.
Proof.
  assert (H : (max_rank small_forest <= 7)%nat) by (vm_compute; lia).
  exact (conj small_forest_inv
           (conj H (find_depth_bounded small_forest 2 7 small_forest_inv H))).
Defined.

Lemma union_in_small_forest :
  uf_inv small_forest /\ same (union small_forest 2 3) 2 3.
Proof.
  pose proof (union_contract small_forest 2 3 small_forest_inv)
    as (_ & H2 & _).
  exact (conj small_forest_inv H2).
Defined.

Lemma groups_of_small_forest :
  uf_inv small_forest
  /\ NoDup (dkeys (snd (groups small_forest)))
  /\ snd (groups small_forest) = [(1, [1; 2]); (3, [3])].
Proof.
  pose proof (groups_partition small_forest small_forest_inv) as (H1 & _).
  refine (conj small_forest_inv (conj H1 _)).
  vm_compute. reflexivity.
Defined.

Lemma blank_label_ranks_last :
  (2 <= len (strip "Tata Motors"))%nat /\ (2 <= len (strip "Tata Group"))%nat
  /\ (len (strip " x ") < 2)%nat
  /\ (primary_score "Tata Group" "Group"
      < primary_score "Tata Motors" "Company")%Q
  /\ (primary_score " x " "Company" < primary_score "Tata Motors" "Group")%Q.
Proof.
  assert (H1 : (2 <= len (strip "Tata Motors"))%nat) by (vm_compute; lia).
  assert (H2 : (2 <= len (strip "Tata Group"))%nat) by (vm_compute; lia).
  assert (H0 : (len (strip " x ") < 2)%nat) by (vm_compute; lia).
  pose proof (primary_score_ranking "Tata Motors" "Tata Group" " x "
                "Group" "Company" H1 H2 H0) as (_ & Hc & _ & Hb).
  refine (conj H1 (conj H2 (conj H0 (conj (Hc _) Hb)))).
  intros [=].
Defined.

Lemma dashes_are_special_only :
  seven_bit "-/-" = true
  /\ (classify_garbage "-/-" = Some special_chars_only <->
      (3 <= len "-/-")%nat /\ forallb is_special (chars "-/-") = true).
Proof.
  assert (H : seven_bit "-/-" = true) by reflexivity.
  exact (conj H (proj1 (proj2 (proj2
                  (classify_structural_reasons "-/-" H))))).
Defined.

Lemma tata_motors_is_accepted :
  seven_bit "Tata Motors Ltd" = true
  /\ classify_garbage "Tata Motors Ltd" = None
  /\ (3 <= len "Tata Motors Ltd")%nat
  /\ existsb (fun c => negb (is_digit c)) (chars "Tata Motors Ltd") = true.
Proof.
  assert (H7 : seven_bit "Tata Motors Ltd" = true) by reflexivity.
  assert (H : classify_garbage "Tata Motors Ltd" = None)
    by (vm_compute; reflexivity).
  pose proof (accepted_name_shape "Tata Motors Ltd" H7 H) as (H1 & _ & H3).
  exact (conj H7 (conj H (conj H1 H3))).
Defined.

Lemma reordered_words_same_signature :
  Permutation (split "tata motors pune") (split "pune tata motors")
  /\ token_signature "tata motors pune" = token_signature "pune tata motors".
Proof.
  assert (H : Permutation (split "tata motors pune")
                          (split "pune tata motors")).
  { change (Permutation ["tata"; "motors"; "pune"] ["pune"; "tata"; "motors"]).
    apply Permutation_sym.
    apply (Permutation_cons_app ["tata"; "motors"] [] "pune").
    apply Permutation_refl. }
  exact (conj H (token_signature_order_free _ _ H)).
Defined.

Lemma small_forest_rank_bound :
  built small_forest
  /\ (max_rank small_forest
      <= Nat.log2 (List.length (dkeys (parent small_forest))))%nat.
Proof.
  assert (H : built small_forest).
  { unfold small_forest. apply built_find, built_union, built_new. }
  exact (conj H (proj1 (proj2 (rank_is_logarithmic small_forest H)))).
Defined.

Section FurtherReference.
#[local] Existing Instance Rapidfuzz.fuzz.
#[local] Existing Instance list_order.

Lemma accepted_stays_accepted :
  (0.85 <= 0.9)%Q
  /\ should_merge "tata sons group" "tata sons grup" 0.85 = true
  /\ should_merge "tata sons group" "tata sons grup" 0.9 = true.
Proof.
  assert (H : (0.85 <= 0.9)%Q) by (apply Qle_bool_imp_le; reflexivity).
  assert (H1 : should_merge "tata sons group" "tata sons grup" 0.85 = true)
    by (vm_compute; reflexivity).
  exact (conj H (conj H1 (should_merge_monotone _ _ _ _ H H1))).
Defined.

Lemma generic_pair_refused_at_high_score :
  "alpha consulting" <> "beta consulting" /\ (0.95 <= 0.99)%Q
  /\ should_merge "alpha consulting" "beta consulting" 0.99 = false.
Proof.
  assert (Hn : "alpha consulting" <> "beta consulting") by (intros [=]).
  assert (Hs : (0.95 <= 0.99)%Q) by (apply Qle_bool_imp_le; reflexivity).
  refine (conj Hn (conj Hs _)).
  apply (proj2 (high_score_refusal _ _ _ Hn Hs)).
  vm_compute. repeat split; intros [=].
Defined.


Lemma sample_duplicate_row_In : In sample_duplicate_row (main sample_rows).
Proof. vm_compute. right. left. reflexivity. Qed.

Lemma short_name_ids_distinct : NoDup (map in_id short_name_rows).
Proof.
  vm_compute. repeat (constructor; [simpl; intuition discriminate|]).
  constructor.
Qed.

Lemma short_name_row_In : In short_name_row (main short_name_rows).
Proof. vm_compute. left. reflexivity. Qed.

Lemma sample_duplicate_names_primary :
  NoDup (map in_id sample_rows)
  /\ In sample_duplicate_row (main sample_rows)
  /\ is_valid sample_duplicate_row = 1
  /\ exists p, In p (main sample_rows)
       /\ master_id p = group_id sample_duplicate_row /\ is_valid p = 1
       /\ is_primary p = 1 /\ group_id p = group_id sample_duplicate_row.
Proof.
  refine (conj sample_ids_distinct (conj sample_duplicate_row_In
            (conj eq_refl _))).
  exact (proj1 (group_id_names_primary sample_rows sample_duplicate_row
                  sample_ids_distinct sample_duplicate_row_In eq_refl)).
Defined.

Lemma short_name_row_alone :
  NoDup (map in_id short_name_rows)
  /\ In short_name_row (main short_name_rows)
  /\ is_valid short_name_row = 1
  /\ candidate_pairs (build_blocks (id_to_norm (all_records short_name_rows)))
     = []
  /\ forall o', In o' (main short_name_rows) ->
                group_id o' = master_id short_name_row -> o' = short_name_row.
Proof.
  assert (E : candidate_pairs
                (build_blocks (id_to_norm (all_records short_name_rows)))
              = []) by (vm_compute; reflexivity).
  refine (conj short_name_ids_distinct (conj short_name_row_In
            (conj eq_refl (conj E _)))).
  apply (uncompared_record_is_alone short_name_rows short_name_row
           short_name_ids_distinct short_name_row_In eq_refl).
  intros a b H. rewrite E in H. destruct H.
Defined.

Lemma sample_primary_scores_best :
  NoDup (map in_id sample_rows)
  /\ In sample_duplicate_row (main sample_rows)
  /\ In sample_primary_row (main sample_rows)
  /\ group_id sample_duplicate_row = group_id sample_primary_row
  /\ (primary_score (company_name sample_duplicate_row)
                    (source_type sample_duplicate_row)
      <= primary_score (company_name sample_primary_row)
                       (source_type sample_primary_row))%Q.
Proof.
  refine (conj sample_ids_distinct (conj sample_duplicate_row_In
            (conj sample_primary_row_In (conj eq_refl _)))).
  exact (proj1 (primary_is_best_scored sample_rows sample_duplicate_row
                  sample_primary_row sample_ids_distinct
                  sample_duplicate_row_In sample_primary_row_In
                  eq_refl eq_refl eq_refl eq_refl)).
Defined.


Lemma short_name_row_is_alone :
  NoDup (map in_id short_name_rows)
  /\ In short_name_row (main short_name_rows)
  /\ is_valid short_name_row = 1
  /\ (len (normalize (company_name short_name_row)) < 3)%nat
  /\ group_id short_name_row = master_id short_name_row
  /\ is_primary short_name_row = 1.
Proof.
  assert (Hs : (len (normalize (company_name short_name_row)) < 3)%nat)
    by (vm_compute; lia).
  pose proof (short_names_stay_alone short_name_rows short_name_row
                short_name_ids_distinct short_name_row_In eq_refl Hs)
    as (H1 & H2 & _).
  exact (conj short_name_ids_distinct
           (conj short_name_row_In (conj eq_refl (conj Hs (conj H1 H2))))).
Defined.

Lemma sample_duplicates_merge :
  NoDup (map in_id sample_rows)
  /\ In sample_primary_row (main sample_rows)
  /\ In sample_duplicate_row (main sample_rows)
  /\ normalize (company_name sample_primary_row)
     = normalize (company_name sample_duplicate_row)
  /\ (3 <= len (normalize (company_name sample_primary_row)))%nat
  /\ (List.length
        (filter (shares_prefix3
                   (prefix_n 3 (normalize (company_name sample_primary_row))))
                (main sample_rows)) <= MAX_BLOCK)%nat
  /\ group_id sample_primary_row = group_id sample_duplicate_row.
Proof.
  assert (Hn : normalize (company_name sample_primary_row)
               = normalize (company_name sample_duplicate_row))
    by (vm_compute; reflexivity).
  assert (Hl : (3 <= len (normalize (company_name sample_primary_row)))%nat)
    by (vm_compute; lia).
  assert (Hc : (List.length
                  (filter (shares_prefix3
                             (prefix_n 3 (normalize
                                            (company_name sample_primary_row))))
                          (main sample_rows)) <= MAX_BLOCK)%nat)
    by (vm_compute; lia).
  exact (conj sample_ids_distinct
           (conj sample_primary_row_In
              (conj sample_duplicate_row_In
                 (conj Hn (conj Hl (conj Hc
                    (duplicates_merge_in_small_block sample_rows
                       sample_primary_row sample_duplicate_row
                       sample_ids_distinct sample_primary_row_In
                       sample_duplicate_row_In eq_refl eq_refl
                       Hn Hl Hc))))))).
Defined.

Lemma sample_group_is_chained :
  NoDup (map in_id sample_rows)
  /\ In sample_primary_row (main sample_rows)
  /\ In sample_duplicate_row (main sample_rows)
  /\ group_id sample_primary_row = group_id sample_duplicate_row
  /\ clos_trans Z (accepted_link (id_to_norm (all_records sample_rows))) 1 2.
Proof.
  refine (conj sample_ids_distinct
            (conj sample_primary_row_In
               (conj sample_duplicate_row_In (conj eq_refl _)))).
  apply (proj2 (groups_are_clusters sample_rows sample_primary_row
                  sample_duplicate_row sample_ids_distinct
                  sample_primary_row_In sample_duplicate_row_In
                  eq_refl eq_refl) eq_refl).
  intros [=].
Defined.

End FurtherReference.
